(** * videoplayer: webcam viewer with audio passthrough (src/main.c)

    A shallow embedding of the C program and the properties of its
    pixel conversion, presentation scaling, device selection and
    two-worker lifecycle. *)

From Stdlib Require Import ZArith Lia Bool List Ascii String QArith Qround Qminmax.
From Stdlib Require Import Floats.SpecFloat.
From stdpp Require Import base tactics option list list_numbers strings.

Local Open Scope Z_scope.

(** Linear arithmetic with division and remainder by constants. *)
Ltac dlia := Z.to_euclidean_division_equations; lia.

(** ** C integers

    [int] is a 32-bit two's complement integer.  Signed overflow is
    undefined in C; the embedding writes it as wrap-around (what the
    target machine does) and the theorems carry the range hypotheses
    under which no operation wraps. *)
Module CInt.

Definition INT_MIN : Z := - 2 ^ 31.
Definition INT_MAX : Z := 2 ^ 31 - 1.

Definition wrap_int (x : Z) : Z := (x + 2 ^ 31) mod 2 ^ 32 - 2 ^ 31.

Definition int_add (a b : Z) : Z := wrap_int (a + b).
Definition int_sub (a b : Z) : Z := wrap_int (a - b).
Definition int_mul (a b : Z) : Z := wrap_int (a * b).
(** [a >> n] on a signed int: arithmetic shift (rounds towards minus infinity). *)
Definition int_shr (a n : Z) : Z := Z.shiftr a n.
(** [a / b] on ints: truncation towards zero. *)
Definition int_div (a b : Z) : Z := wrap_int (Z.quot a b).

Definition in_int (x : Z) : Prop := INT_MIN <= x <= INT_MAX.

Lemma wrap_int_id x : in_int x -> wrap_int x = x.
Proof.
  unfold in_int, INT_MIN, INT_MAX, wrap_int. intros H.
  rewrite Z.mod_small; lia.
Qed.

Lemma wrap_int_range x : in_int (wrap_int x).
Proof.
  unfold in_int, INT_MIN, INT_MAX, wrap_int.
  pose proof (Z.mod_pos_bound (x + 2 ^ 31) (2 ^ 32)). lia.
Qed.

End CInt.

(** ** FrameConverter: [clamp_u8] and [yuyv_to_rgb24] *)
Module Convert.
Import CInt.

(** [static inline uint8_t clamp_u8(int x)] *)
Definition clamp_u8 (x : Z) : Z :=
  if x <? 0 then 0
  else if x >? 255 then 255
  else x mod 256.

(** The result of running a piece of C code over bounded buffers:
    it finishes, or it touches memory outside a buffer (undefined
    behaviour), or the loop has not finished within the fuel given. *)
Inductive outcome (A : Type) : Type :=
| Done (a : A)
| Fault
| OutOfFuel.
Arguments Done {A} a.
Arguments Fault {A}.
Arguments OutOfFuel {A}.

Definition bind {A B} (m : outcome A) (k : A -> outcome B) : outcome B :=
  match m with
  | Done a => k a
  | Fault => Fault
  | OutOfFuel => OutOfFuel
  end.

Notation "'do' x <- m ; k" := (bind m (fun x => k))
  (at level 10, x name, m at level 100, k at level 200).

(** The destination buffer [rgb]: its bytes, and the offsets stored so
    far, in program order. *)
Record dest : Type := { bytes : list Z; written : list Z }.

(** [yuyv[j]]: a read of the source frame. *)
Definition load (yuyv : list Z) (j : Z) : outcome Z :=
  if j <? 0 then Fault
  else match yuyv !! Z.to_nat j with
       | Some b => Done b
       | None => Fault
       end.

(** [rgb[k] = v]: a store into the destination buffer. *)
Definition store (k v : Z) (d : dest) : outcome dest :=
  if (k <? 0) || (Z.of_nat (length (bytes d)) <=? k) then Fault
  else Done {| bytes := <[Z.to_nat k := v]> (bytes d);
               written := written d ++ [k] |}.

(** The body of the [for] loop of [yuyv_to_rgb24]: one macropixel. *)
Definition yuyv_iter (yuyv : list Z) (i j : Z) (d : dest) : outcome dest :=
  do y0 <- load yuyv (int_add j 0);
  do ub <- load yuyv (int_add j 1);
  let u := int_sub ub 128 in
  do y1 <- load yuyv (int_add j 2);
  do vb <- load yuyv (int_add j 3);
  let v := int_sub vb 128 in
  let c0 := int_sub y0 16 in
  let c1 := int_sub y1 16 in
  let r0 := int_shr (int_add (int_add (int_mul 298 c0) (int_mul 409 v)) 128) 8 in
  let g0 := int_shr (int_add (int_sub (int_sub (int_mul 298 c0) (int_mul 100 u))
                                      (int_mul 208 v)) 128) 8 in
  let b0 := int_shr (int_add (int_add (int_mul 298 c0) (int_mul 516 u)) 128) 8 in
  let r1 := int_shr (int_add (int_add (int_mul 298 c1) (int_mul 409 v)) 128) 8 in
  let g1 := int_shr (int_add (int_sub (int_sub (int_mul 298 c1) (int_mul 100 u))
                                      (int_mul 208 v)) 128) 8 in
  let b1 := int_shr (int_add (int_add (int_mul 298 c1) (int_mul 516 u)) 128) 8 in
  let out0 := int_mul i 3 in
  do d <- store (int_add out0 0) (clamp_u8 r0) d;
  do d <- store (int_add out0 1) (clamp_u8 g0) d;
  do d <- store (int_add out0 2) (clamp_u8 b0) d;
  let out1 := int_mul (int_add i 1) 3 in
  do d <- store (int_add out1 0) (clamp_u8 r1) d;
  do d <- store (int_add out1 1) (clamp_u8 g1) d;
  store (int_add out1 2) (clamp_u8 b1) d.

(** [for (int i = 0, j = 0; i < npix; i += 2, j += 4) ...] *)
Fixpoint yuyv_loop (fuel : nat) (yuyv : list Z) (npix i j : Z) (d : dest)
  : outcome dest :=
  if i <? npix then
    match fuel with
    | O => OutOfFuel
    | S fuel' =>
        do d' <- yuyv_iter yuyv i j d;
        yuyv_loop fuel' yuyv npix (int_add i 2) (int_add j 4) d'
    end
  else Done d.

(** [static void yuyv_to_rgb24(const uint8_t *yuyv, uint8_t *rgb, int w, int h)].
    The loop runs at most [npix] times, so [npix] is fuel enough. *)
Definition yuyv_to_rgb24 (yuyv rgb : list Z) (w h : Z) : outcome dest :=
  let npix := int_mul w h in
  yuyv_loop (Z.to_nat npix) yuyv npix 0 0 {| bytes := rgb; written := [] |}.

(** [*args->rgb_size = (size_t)width * (size_t)height * 3], on 64-bit
    [size_t]; [width] and [height] are the driver's [__u32] fields. *)
Definition wrap_size_t (x : Z) : Z := x mod 2 ^ 64.
Definition rgb_size (w h : Z) : Z := wrap_size_t (wrap_size_t (w * h) * 3).

(** *** The transform in the words of the specification *)

Definition clamp255 (x : Z) : Z := Z.max 0 (Z.min 255 x).

Definition spec_R (y v : Z) : Z :=
  clamp255 (Z.shiftr (298 * (y - 16) + 409 * (v - 128) + 128) 8).
Definition spec_G (y u v : Z) : Z :=
  clamp255 (Z.shiftr (298 * (y - 16) - 100 * (u - 128) - 208 * (v - 128) + 128) 8).
Definition spec_B (y u : Z) : Z :=
  clamp255 (Z.shiftr (298 * (y - 16) + 516 * (u - 128) + 128) 8).

Definition is_u8 (b : Z) : Prop := 0 <= b <= 255.

(** The three bytes of output pixel number [p]. *)
Definition pixel_at (l : list Z) (p : Z) : option (Z * Z * Z) :=
  match l !! Z.to_nat (3 * p), l !! Z.to_nat (3 * p + 1), l !! Z.to_nat (3 * p + 2) with
  | Some r, Some g, Some b => Some (r, g, b)
  | _, _, _ => None
  end.

(** Number of loop iterations (macropixels touched) for [npix] pixels. *)
Definition macropixels (npix : Z) : Z := (npix + 1) / 2.

Example yuyv_grey :
  yuyv_to_rgb24 [128; 128; 128; 128] [0; 0; 0; 0; 0; 0] 2 1
  = Done {| bytes := [130; 130; 130; 130; 130; 130]; written := [0; 1; 2; 3; 4; 5] |}.
Proof. reflexivity. Qed.

Example yuyv_odd :
  yuyv_to_rgb24 [128; 128; 128; 128] [0; 0; 0] 1 1 = Fault.
Proof. reflexivity. Qed.

(** *** Single accesses *)

Lemma load_done (yuyv : list Z) j b :
  0 <= j -> yuyv !! Z.to_nat j = Some b -> load yuyv j = Done b.
Proof.
  intros Hj Hb. unfold load.
  destruct (j <? 0) eqn:E; [lia|]. by rewrite Hb.
Qed.

Lemma store_done k v d :
  0 <= k < Z.of_nat (length (bytes d)) ->
  store k v d = Done {| bytes := <[Z.to_nat k := v]> (bytes d);
                        written := written d ++ [k] |}.
Proof.
  intros Hk. unfold store.
  destruct (k <? 0) eqn:E1; [lia|].
  destruct (Z.of_nat (length (bytes d)) <=? k) eqn:E2; [lia|]. done.
Qed.

Ltac unwrap :=
  repeat match goal with
    | |- context [wrap_int ?x] =>
        rewrite (wrap_int_id x) by (unfold in_int, INT_MIN, INT_MAX, is_u8 in *; lia)
    end.

Lemma clamp_u8_clamp255 x : clamp_u8 x = clamp255 x.
Proof.
  unfold clamp_u8, clamp255.
  destruct (x <? 0) eqn:E1; [lia|].
  destruct (x >? 255) eqn:E2; [lia|].
  rewrite Z.mod_small; lia.
Qed.

Lemma clamp255_u8 x : is_u8 (clamp255 x).
Proof. unfold is_u8, clamp255. lia. Qed.

(** For byte inputs no step of the fixed-point arithmetic wraps, and
    the three channels are those of the specification. *)
Lemma code_R_spec y v :
  is_u8 y -> is_u8 v ->
  clamp_u8 (int_shr (int_add (int_add (int_mul 298 (int_sub y 16))
                                      (int_mul 409 (int_sub v 128))) 128) 8)
  = spec_R y v.
Proof.
  intros Hy Hv. rewrite clamp_u8_clamp255.
  unfold spec_R, int_shr, int_add, int_sub, int_mul. unwrap. done.
Qed.

Lemma code_G_spec y u v :
  is_u8 y -> is_u8 u -> is_u8 v ->
  clamp_u8 (int_shr (int_add (int_sub (int_sub (int_mul 298 (int_sub y 16))
                                               (int_mul 100 (int_sub u 128)))
                                      (int_mul 208 (int_sub v 128))) 128) 8)
  = spec_G y u v.
Proof.
  intros Hy Hu Hv. rewrite clamp_u8_clamp255.
  unfold spec_G, int_shr, int_add, int_sub, int_mul. unwrap. done.
Qed.

Lemma code_B_spec y u :
  is_u8 y -> is_u8 u ->
  clamp_u8 (int_shr (int_add (int_add (int_mul 298 (int_sub y 16))
                                      (int_mul 516 (int_sub u 128))) 128) 8)
  = spec_B y u.
Proof.
  intros Hy Hu. rewrite clamp_u8_clamp255.
  unfold spec_B, int_shr, int_add, int_sub, int_mul. unwrap. done.
Qed.

(** *** One iteration *)

Ltac lookup_inserts :=
  repeat first
    [ rewrite list_lookup_insert_eq by (rewrite ?length_insert; lia)
    | rewrite list_lookup_insert_ne by lia ].

Lemma pixel_at_ext (l l' : list Z) p :
  0 <= p ->
  (forall k : nat, (k < Z.to_nat (3 * p + 3))%nat -> l' !! k = l !! k) ->
  pixel_at l' p = pixel_at l p.
Proof.
  intros Hp H. unfold pixel_at. rewrite !H by lia. done.
Qed.

Lemma yuyv_iter_done (yuyv : list Z) i j d y0 ub y1 vb :
  0 <= i -> 3 * i + 5 <= INT_MAX ->
  0 <= j -> j + 3 <= INT_MAX ->
  yuyv !! Z.to_nat j = Some y0 ->
  yuyv !! Z.to_nat (j + 1) = Some ub ->
  yuyv !! Z.to_nat (j + 2) = Some y1 ->
  yuyv !! Z.to_nat (j + 3) = Some vb ->
  3 * i + 5 < Z.of_nat (length (bytes d)) ->
  exists d1 p0 p1,
    yuyv_iter yuyv i j d = Done d1
    /\ length (bytes d1) = length (bytes d)
    /\ written d1 = written d ++ seqZ (3 * i) 6
    /\ (forall k : nat, (k < Z.to_nat (3 * i))%nat -> bytes d1 !! k = bytes d !! k)
    /\ pixel_at (bytes d1) i = Some p0
    /\ pixel_at (bytes d1) (i + 1) = Some p1
    /\ (is_u8 y0 -> is_u8 ub -> is_u8 vb ->
        p0 = (spec_R y0 vb, spec_G y0 ub vb, spec_B y0 ub))
    /\ (is_u8 y1 -> is_u8 ub -> is_u8 vb ->
        p1 = (spec_R y1 vb, spec_G y1 ub vb, spec_B y1 ub)).
Proof.
  intros Hi Hi' Hj Hj' L0 L1 L2 L3 Hlen.
  unfold yuyv_iter.
  assert (A0 : int_add j 0 = j) by (unfold int_add; unwrap; lia).
  assert (A1 : int_add j 1 = j + 1) by (unfold int_add; unwrap; lia).
  assert (A2 : int_add j 2 = j + 2) by (unfold int_add; unwrap; lia).
  assert (A3 : int_add j 3 = j + 3) by (unfold int_add; unwrap; lia).
  rewrite A0, A1, A2, A3.
  rewrite (load_done _ _ _ Hj L0); cbn [bind].
  rewrite (load_done _ _ ub) by (done || lia); cbn [bind].
  rewrite (load_done _ _ y1) by (done || lia); cbn [bind].
  rewrite (load_done _ _ vb) by (done || lia); cbn [bind].
  assert (O0 : int_add (int_mul i 3) 0 = 3 * i)
    by (unfold int_add, int_mul; unwrap; lia).
  assert (O1 : int_add (int_mul i 3) 1 = 3 * i + 1)
    by (unfold int_add, int_mul; unwrap; lia).
  assert (O2 : int_add (int_mul i 3) 2 = 3 * i + 2)
    by (unfold int_add, int_mul; unwrap; lia).
  assert (O3 : int_add (int_mul (int_add i 1) 3) 0 = 3 * i + 3)
    by (unfold int_add, int_mul; unwrap; lia).
  assert (O4 : int_add (int_mul (int_add i 1) 3) 1 = 3 * i + 4)
    by (unfold int_add, int_mul; unwrap; lia).
  assert (O5 : int_add (int_mul (int_add i 1) 3) 2 = 3 * i + 5)
    by (unfold int_add, int_mul; unwrap; lia).
  cbv zeta. rewrite O0, O1, O2, O3, O4, O5.
  do 5 (rewrite store_done by (cbn [bytes]; rewrite ?length_insert; lia);
        cbn [bind bytes written]).
  rewrite store_done by (cbn [bytes]; rewrite ?length_insert; lia).
  cbn [bytes written].
  eexists _, (_, _, _), (_, _, _).
  split; [reflexivity|]. cbn [bytes written].
  split; [by rewrite !length_insert|].
  split.
  { rewrite <- !app_assoc. f_equal.
    rewrite !seqZ_cons by lia. rewrite seqZ_nil by lia.
    cbn [app]. repeat f_equal; lia. }
  split.
  { intros k Hk. rewrite !list_lookup_insert_ne by lia. done. }
  split.
  { unfold pixel_at. by lookup_inserts. }
  split.
  { unfold pixel_at.
    replace (3 * (i + 1)) with (3 * i + 3) by lia.
    replace (3 * i + 3 + 1) with (3 * i + 4) by lia.
    replace (3 * i + 3 + 2) with (3 * i + 5) by lia.
    by lookup_inserts. }
  split.
  { intros. by rewrite code_R_spec, code_G_spec, code_B_spec. }
  { intros. by rewrite code_R_spec, code_G_spec, code_B_spec. }
Qed.

(** *** The whole loop

    Started at macropixel [a] with [m] macropixels to go, the loop
    finishes, stores offsets [6a .. 6(a+m)-1] once each and in order,
    leaves the bytes below [6a] alone, and every macropixel of byte
    values is converted as the specification says. *)
Lemma yuyv_loop_done (yuyv : list Z) npix (m : nat) :
  forall (fuel : nat) a d,
    (m <= fuel)%nat -> 0 <= a ->
    npix <= 2 * (a + Z.of_nat m) ->
    (0 < Z.of_nat m -> 2 * (a + Z.of_nat m) - 1 <= npix) ->
    4 * (a + Z.of_nat m) <= Z.of_nat (length yuyv) ->
    6 * (a + Z.of_nat m) <= Z.of_nat (length (bytes d)) ->
    6 * (a + Z.of_nat m) <= INT_MAX ->
    exists d',
      yuyv_loop fuel yuyv npix (2 * a) (4 * a) d = Done d'
      /\ length (bytes d') = length (bytes d)
      /\ written d' = written d ++ seqZ (6 * a) (6 * Z.of_nat m)
      /\ (forall k : nat, (k < Z.to_nat (6 * a))%nat -> bytes d' !! k = bytes d !! k)
      /\ (forall t y0 ub y1 vb,
            a <= t < a + Z.of_nat m ->
            yuyv !! Z.to_nat (4 * t) = Some y0 ->
            yuyv !! Z.to_nat (4 * t + 1) = Some ub ->
            yuyv !! Z.to_nat (4 * t + 2) = Some y1 ->
            yuyv !! Z.to_nat (4 * t + 3) = Some vb ->
            is_u8 y0 -> is_u8 ub -> is_u8 y1 -> is_u8 vb ->
            pixel_at (bytes d') (2 * t)
              = Some (spec_R y0 vb, spec_G y0 ub vb, spec_B y0 ub)
            /\ pixel_at (bytes d') (2 * t + 1)
              = Some (spec_R y1 vb, spec_G y1 ub vb, spec_B y1 ub)).
Proof.
  induction m as [|m IH]; intros fuel a d Hfuel Ha Hup Hlow Hsrc Hdst Hmax.
  - exists d. split.
    { destruct fuel; cbn [yuyv_loop];
        destruct (2 * a <? npix) eqn:E; (lia || done). }
    split; [done|]. split.
    { rewrite seqZ_nil by lia. by rewrite app_nil_r. }
    split; [done|]. intros; lia.
  - destruct fuel as [|fuel]; [lia|].
    unfold INT_MAX in Hmax.
    destruct (lookup_lt_is_Some_2 yuyv (Z.to_nat (4 * a))) as [y0 L0]; [lia|].
    destruct (lookup_lt_is_Some_2 yuyv (Z.to_nat (4 * a + 1))) as [ub L1]; [lia|].
    destruct (lookup_lt_is_Some_2 yuyv (Z.to_nat (4 * a + 2))) as [y1 L2]; [lia|].
    destruct (lookup_lt_is_Some_2 yuyv (Z.to_nat (4 * a + 3))) as [vb L3]; [lia|].
    destruct (yuyv_iter_done yuyv (2 * a) (4 * a) d y0 ub y1 vb)
      as (d1 & p0 & p1 & Hrun & Hlen1 & Hw1 & Hkeep1 & Hp0 & Hp1 & Hs0 & Hs1);
      try (unfold INT_MAX; lia); try done.
    destruct (IH fuel (a + 1) d1) as (d' & Hrun' & Hlen' & Hw' & Hkeep' & Hpix');
      try (unfold INT_MAX; lia).
    exists d'.
    split.
    { cbn [yuyv_loop]. destruct (2 * a <? npix) eqn:E; [|lia].
      rewrite Hrun. cbn [bind].
      replace (int_add (2 * a) 2) with (2 * (a + 1))
        by (unfold int_add; unwrap; lia).
      replace (int_add (4 * a) 4) with (4 * (a + 1))
        by (unfold int_add; unwrap; lia).
      done. }
    split; [congruence|].
    split.
    { rewrite Hw', Hw1, <- app_assoc. f_equal.
      replace (6 * Z.of_nat (S m)) with (6 + 6 * Z.of_nat m) by lia.
      rewrite seqZ_app by lia. do 2 f_equal; lia. }
    split.
    { intros k Hk. rewrite Hkeep' by lia. apply Hkeep1. lia. }
    intros t z0 zu z1 zv Ht T0 T1 T2 T3 U0 U1 U2 U3.
    destruct (decide (t = a)) as [->|Hne].
    + rewrite L0 in T0. rewrite L1 in T1. rewrite L2 in T2. rewrite L3 in T3.
      simplify_eq.
      rewrite (pixel_at_ext (bytes d1) (bytes d')), Hp0
        by (try lia; intros; apply Hkeep'; lia).
      rewrite (pixel_at_ext (bytes d1) (bytes d')), Hp1
        by (try lia; intros; apply Hkeep'; lia).
      by rewrite Hs0, Hs1.
    + apply Hpix'; (lia || done).
Qed.

(** *** The whole call *)

Lemma yuyv_to_rgb24_done (yuyv rgb : list Z) w h :
  in_int (w * h) -> 6 * macropixels (w * h) <= INT_MAX ->
  4 * macropixels (w * h) <= Z.of_nat (length yuyv) ->
  6 * macropixels (w * h) <= Z.of_nat (length rgb) ->
  exists d,
    yuyv_to_rgb24 yuyv rgb w h = Done d
    /\ length (bytes d) = length rgb
    /\ written d = seqZ 0 (6 * macropixels (w * h))
    /\ (forall t y0 ub y1 vb,
          0 <= t < macropixels (w * h) ->
          yuyv !! Z.to_nat (4 * t) = Some y0 ->
          yuyv !! Z.to_nat (4 * t + 1) = Some ub ->
          yuyv !! Z.to_nat (4 * t + 2) = Some y1 ->
          yuyv !! Z.to_nat (4 * t + 3) = Some vb ->
          is_u8 y0 -> is_u8 ub -> is_u8 y1 -> is_u8 vb ->
          pixel_at (bytes d) (2 * t)
            = Some (spec_R y0 vb, spec_G y0 ub vb, spec_B y0 ub)
          /\ pixel_at (bytes d) (2 * t + 1)
            = Some (spec_R y1 vb, spec_G y1 ub vb, spec_B y1 ub)).
Proof.
  unfold macropixels, in_int, INT_MIN, INT_MAX. intros Hlo Hhi Hsrc Hdst.
  unfold yuyv_to_rgb24.
  assert (Hn : int_mul w h = w * h) by (unfold int_mul; unwrap; lia).
  rewrite Hn. clear Hn. revert Hlo Hhi Hsrc Hdst.
  generalize (w * h). intros npix Hlo Hhi Hsrc Hdst.
  destruct (yuyv_loop_done yuyv npix (Z.to_nat ((npix + 1) / 2))
              (Z.to_nat npix) 0 {| bytes := rgb; written := [] |})
    as (d & Hrun & Hlen & Hw & _ & Hpix);
    cbn [bytes written] in *; try (unfold INT_MAX; dlia); try dlia.
  exists d. split; [exact Hrun|]. split; [exact Hlen|]. split.
  { rewrite Hw. cbn [app]. destruct (decide (0 < npix)).
    - f_equal; dlia.
    - rewrite !seqZ_nil by dlia. done. }
  intros t y0 ub y1 vb Ht. apply Hpix. dlia.
Qed.

(** C3: for byte inputs, every macropixel (Y0,U,Y1,V) the conversion
    processes yields the two output pixels given by subtracting 16 from
    luma and 128 from chroma, R = (298*Y' + 409*V' + 128) >> 8,
    G = (298*Y' - 100*U' - 208*V' + 128) >> 8,
    B = (298*Y' + 516*U' + 128) >> 8, each clamped to [0,255]; the call
    finishes whenever the pixel count fits an int and the two buffers
    hold the macropixels. *)
Theorem yuyv_to_rgb24_macropixel (yuyv rgb : list Z) w h k y0 u y1 v :
  in_int (w * h) -> 6 * macropixels (w * h) <= INT_MAX ->
  4 * macropixels (w * h) <= Z.of_nat (length yuyv) ->
  6 * macropixels (w * h) <= Z.of_nat (length rgb) ->
  0 <= k < macropixels (w * h) ->
  yuyv !! Z.to_nat (4 * k) = Some y0 ->
  yuyv !! Z.to_nat (4 * k + 1) = Some u ->
  yuyv !! Z.to_nat (4 * k + 2) = Some y1 ->
  yuyv !! Z.to_nat (4 * k + 3) = Some v ->
  is_u8 y0 -> is_u8 u -> is_u8 y1 -> is_u8 v ->
  exists d,
    yuyv_to_rgb24 yuyv rgb w h = Done d
    /\ pixel_at (bytes d) (2 * k)
       = Some (clamp255 (Z.shiftr (298 * (y0 - 16) + 409 * (v - 128) + 128) 8),
               clamp255 (Z.shiftr (298 * (y0 - 16) - 100 * (u - 128)
                                   - 208 * (v - 128) + 128) 8),
               clamp255 (Z.shiftr (298 * (y0 - 16) + 516 * (u - 128) + 128) 8))
    /\ pixel_at (bytes d) (2 * k + 1)
       = Some (clamp255 (Z.shiftr (298 * (y1 - 16) + 409 * (v - 128) + 128) 8),
               clamp255 (Z.shiftr (298 * (y1 - 16) - 100 * (u - 128)
                                   - 208 * (v - 128) + 128) 8),
               clamp255 (Z.shiftr (298 * (y1 - 16) + 516 * (u - 128) + 128) 8)).
Proof.
  intros Hlo Hhi Hsrc Hdst Hk L0 L1 L2 L3 U0 U1 U2 U3.
  destruct (yuyv_to_rgb24_done yuyv rgb w h Hlo Hhi Hsrc Hdst)
    as (d & Hrun & _ & _ & Hpix).
  exists d. split; [exact Hrun|].
  exact (Hpix k y0 u y1 v Hk L0 L1 L2 L3 U0 U1 U2 U3).
Qed.

Lemma yuyv_to_rgb24_macropixel_witness :
  exists d,
    yuyv_to_rgb24 [81; 90; 145; 240] [0; 0; 0; 0; 0; 0] 2 1 = Done d
    /\ pixel_at (bytes d) 0 = Some (255, 0, 0)
    /\ pixel_at (bytes d) 1 = Some (255, 74, 74).
Proof.
  apply (yuyv_to_rgb24_macropixel [81; 90; 145; 240] [0; 0; 0; 0; 0; 0]
           2 1 0 81 90 145 240);
    unfold in_int, INT_MIN, INT_MAX, macropixels, is_u8;
    first [reflexivity | dlia].
Defined.

(** C4 as stated fails: a uniform frame of luma 128 and chroma 128
    comes out as 130 in every channel, which is not within 1 of 128. *)
Lemma yuyv_to_rgb24_grey_is_130 :
  yuyv_to_rgb24 (replicate 4 128) (replicate 6 0) 2 1
  = Done {| bytes := replicate 6 130; written := seqZ 0 6 |}
  /\ ~ (127 <= 130 <= 129).
Proof. split; [reflexivity | lia]. Qed.

(** C4, amended: a uniform frame of luma 128 and chroma 128 converts to
    a frame whose every pixel is (130,130,130): the limited-range luma
    is expanded by 298/256, so mid-grey lands 2 above 128. *)
Theorem yuyv_to_rgb24_uniform_grey (n : nat) (rgb : list Z) w h :
  in_int (w * h) -> 6 * macropixels (w * h) <= INT_MAX ->
  4 * macropixels (w * h) <= Z.of_nat n ->
  6 * macropixels (w * h) <= Z.of_nat (length rgb) ->
  exists d,
    yuyv_to_rgb24 (replicate n 128) rgb w h = Done d
    /\ forall p, 0 <= p < w * h -> pixel_at (bytes d) p = Some (130, 130, 130).
Proof.
  intros Hin Hhi Hsrc Hdst.
  destruct (yuyv_to_rgb24_done (replicate n 128) rgb w h)
    as (d & Hrun & _ & _ & Hpix); rewrite ?length_replicate; try done.
  exists d. split; [exact Hrun|]. intros p Hp.
  assert (Hlk : forall c, 0 <= c < 4 ->
            replicate n 128 !! Z.to_nat (4 * (p / 2) + c) = Some 128).
  { intros c Hc. apply lookup_replicate_2. unfold macropixels in *. dlia. }
  destruct (Hpix (p / 2) 128 128 128 128) as [P0 P1];
    try (unfold is_u8; lia); try (unfold macropixels; dlia).
  - replace (4 * (p / 2)) with (4 * (p / 2) + 0) by lia. apply Hlk; lia.
  - apply Hlk; lia.
  - apply Hlk; lia.
  - apply Hlk; lia.
  - destruct (Z.eq_dec (p mod 2) 0) as [E|E].
    + replace p with (2 * (p / 2)) at 1 by dlia. exact P0.
    + replace p with (2 * (p / 2) + 1) at 1 by dlia. exact P1.
Qed.

Lemma yuyv_to_rgb24_uniform_grey_witness :
  exists d,
    yuyv_to_rgb24 (replicate 8 128) (replicate 12 0) 2 2 = Done d
    /\ forall p, 0 <= p < 2 * 2 -> pixel_at (bytes d) p = Some (130, 130, 130).
Proof.
  apply (yuyv_to_rgb24_uniform_grey 8 (replicate 12 0) 2 2);
    unfold in_int, INT_MIN, INT_MAX, macropixels; cbn [length replicate];
    first [reflexivity | dlia].
Defined.

(** C5: the code overruns the FrameBuffer for an odd pixel count.  For
    a 1x1 frame [proc_video] allocates 3 bytes, but the loop handles
    pixels in pairs and stores the second pixel without a test: the
    store at offset 3 is outside the buffer.  With three more bytes
    behind the buffer, those are overwritten. *)
Lemma yuyv_to_rgb24_odd_overrun :
  rgb_size 1 1 = 3
  /\ yuyv_to_rgb24 [128; 128; 128; 128] [0; 0; 0] 1 1 = Fault
  /\ yuyv_to_rgb24 [128; 128; 128; 128] [0; 0; 0; 7; 7; 7] 1 1
     = Done {| bytes := [130; 130; 130; 130; 130; 130];
               written := [0; 1; 2; 3; 4; 5] |}.
Proof. repeat split; reflexivity. Qed.

(** X24: where the buffer is filled exactly.  For a negotiated size
    whose pixel count is even and whose byte count fits an int, the
    FrameBuffer has w*h*3 bytes and one conversion call stores to the
    offsets 0, 1, ..., w*h*3-1 in this order: every byte of the buffer
    once, none outside. *)
Theorem yuyv_to_rgb24_fills_buffer (yuyv rgb : list Z) w h :
  0 <= w -> 0 <= h ->
  Z.even (w * h) = true ->
  w * h * 3 <= INT_MAX ->
  2 * (w * h) <= Z.of_nat (length yuyv) ->
  Z.of_nat (length rgb) = rgb_size w h ->
  rgb_size w h = w * h * 3
  /\ exists d,
      yuyv_to_rgb24 yuyv rgb w h = Done d
      /\ written d = seqZ 0 (w * h * 3)
      /\ length (bytes d) = length rgb.
Proof.
  intros Hw Hh Heven Hmax Hsrc Hdst.
  assert (Hnn : 0 <= w * h) by (apply Z.mul_nonneg_nonneg; lia).
  assert (Hsz : rgb_size w h = w * h * 3).
  { unfold rgb_size, wrap_size_t, INT_MAX in *.
    rewrite (Z.mod_small (w * h)) by lia. rewrite Z.mod_small; lia. }
  split; [exact Hsz|].
  rewrite Hsz in Hdst. revert Hnn Heven Hmax Hsrc Hdst.
  pose proof (yuyv_to_rgb24_done yuyv rgb w h) as Hdone. revert Hdone.
  unfold macropixels, in_int, INT_MIN, INT_MAX.
  generalize (w * h). intros npix Hdone Hnn Heven Hmax Hsrc Hdst.
  apply Z.even_spec in Heven. destruct Heven as [c ->].
  destruct Hdone as (d & Hrun & Hlen & Hwr & _); try dlia.
  exists d. split; [exact Hrun|]. split; [|exact Hlen].
  rewrite Hwr. f_equal. dlia.
Qed.

Lemma yuyv_to_rgb24_fills_buffer_witness :
  rgb_size 2 2 = 2 * 2 * 3
  /\ exists d,
      yuyv_to_rgb24 (replicate 8 128) (replicate 12 0) 2 2 = Done d
      /\ written d = seqZ 0 (2 * 2 * 3)
      /\ length (bytes d) = length (replicate 12 0).
Proof.
  apply (yuyv_to_rgb24_fills_buffer (replicate 8 128) (replicate 12 0) 2 2);
    unfold INT_MAX; cbn [length replicate]; first [reflexivity | dlia].
Defined.

(** *** Further properties of the conversion *)

Lemma load_inv (yuyv : list Z) j b :
  load yuyv j = Done b -> 0 <= j /\ yuyv !! Z.to_nat j = Some b.
Proof.
  unfold load. destruct (j <? 0) eqn:E; [done|].
  destruct (yuyv !! Z.to_nat j) as [b'|]; [|done].
  intros [= ->]. split; [lia | done].
Qed.

Lemma store_inv k v d d' :
  store k v d = Done d' ->
  0 <= k < Z.of_nat (length (bytes d))
  /\ d' = {| bytes := <[Z.to_nat k := v]> (bytes d); written := written d ++ [k] |}.
Proof.
  unfold store. destruct (k <? 0) eqn:E1; [done|].
  destruct (Z.of_nat (length (bytes d)) <=? k) eqn:E2; [done|].
  cbn [orb]. intros [= <-]. split; [lia | done].
Qed.

Lemma bind_Done {A B} (m : outcome A) (k : A -> outcome B) b :
  bind m k = Done b -> exists a, m = Done a /\ k a = Done b.
Proof. destruct m as [a| |]; cbn [bind]; [|done|done]. intros H. by exists a. Qed.

(** What one iteration that finishes has done: four loads at
    [j .. j+3], six stores of clamped values at [out0 .. out0+2] and
    [out1 .. out1+2]. *)
Lemma yuyv_iter_inv (yuyv : list Z) i j d d' :
  yuyv_iter yuyv i j d = Done d' ->
  exists y0 ub y1 vb b0 b1 b2 b3 b4 b5,
    load yuyv (int_add j 0) = Done y0
    /\ load yuyv (int_add j 1) = Done ub
    /\ load yuyv (int_add j 2) = Done y1
    /\ load yuyv (int_add j 3) = Done vb
    /\ (let o0 := int_mul i 3 in
        let o1 := int_mul (int_add i 1) 3 in
        exists d1 d2 d3 d4 d5,
          store (int_add o0 0) (clamp_u8 b0) d = Done d1
          /\ store (int_add o0 1) (clamp_u8 b1) d1 = Done d2
          /\ store (int_add o0 2) (clamp_u8 b2) d2 = Done d3
          /\ store (int_add o1 0) (clamp_u8 b3) d3 = Done d4
          /\ store (int_add o1 1) (clamp_u8 b4) d4 = Done d5
          /\ store (int_add o1 2) (clamp_u8 b5) d5 = Done d').
Proof.
  unfold yuyv_iter. intros H.
  apply bind_Done in H as (y0 & L0 & H).
  apply bind_Done in H as (ub & L1 & H).
  apply bind_Done in H as (y1 & L2 & H).
  apply bind_Done in H as (vb & L3 & H).
  cbv zeta in H.
  apply bind_Done in H as (d1 & S1 & H).
  apply bind_Done in H as (d2 & S2 & H).
  apply bind_Done in H as (d3 & S3 & H).
  apply bind_Done in H as (d4 & S4 & H).
  apply bind_Done in H as (d5 & S5 & S6).
  do 10 eexists. repeat (split; [eassumption|]).
  cbv zeta. exists d1, d2, d3, d4, d5. by repeat split.
Qed.

Lemma clamp_u8_is_u8 x : is_u8 (clamp_u8 x).
Proof. rewrite clamp_u8_clamp255. apply clamp255_u8. Qed.

Lemma store_clamped_u8 k x d d' :
  store k (clamp_u8 x) d = Done d' ->
  Forall is_u8 (bytes d) ->
  Forall is_u8 (bytes d') /\ length (bytes d') = length (bytes d).
Proof.
  intros H Hd. apply store_inv in H as [_ ->]. cbn [bytes]. split.
  - apply Forall_insert; [done | apply clamp_u8_is_u8].
  - apply length_insert.
Qed.

Lemma yuyv_iter_u8 (yuyv : list Z) i j d d' :
  yuyv_iter yuyv i j d = Done d' ->
  Forall is_u8 (bytes d) ->
  Forall is_u8 (bytes d') /\ length (bytes d') = length (bytes d).
Proof.
  intros H Hd.
  apply yuyv_iter_inv in H
    as (y0 & ub & y1 & vb & b0 & b1 & b2 & b3 & b4 & b5 & _ & _ & _ & _ & H).
  cbv zeta in H. destruct H as (d1 & d2 & d3 & d4 & d5 & S1 & S2 & S3 & S4 & S5 & S6).
  destruct (store_clamped_u8 _ _ _ _ S1 Hd) as [H1 E1].
  destruct (store_clamped_u8 _ _ _ _ S2 H1) as [H2 E2].
  destruct (store_clamped_u8 _ _ _ _ S3 H2) as [H3 E3].
  destruct (store_clamped_u8 _ _ _ _ S4 H3) as [H4 E4].
  destruct (store_clamped_u8 _ _ _ _ S5 H4) as [H5 E5].
  destruct (store_clamped_u8 _ _ _ _ S6 H5) as [H6 E6].
  split; [done | congruence].
Qed.

Lemma yuyv_loop_u8 (yuyv : list Z) npix (fuel : nat) :
  forall i j d d',
    yuyv_loop fuel yuyv npix i j d = Done d' ->
    Forall is_u8 (bytes d) ->
    Forall is_u8 (bytes d') /\ length (bytes d') = length (bytes d).
Proof.
  induction fuel as [|fuel IH]; intros i j d d'; cbn [yuyv_loop];
    destruct (i <? npix); try done.
  - by intros [= ->].
  - intros H Hd. apply bind_Done in H as (d1 & Hit & Hrest).
    destruct (yuyv_iter_u8 _ _ _ _ _ Hit Hd) as [H1 E1].
    destruct (IH _ _ _ _ Hrest H1) as [H2 E2]. split; [done | congruence].
  - by intros [= ->].
Qed.

(** X1: whatever the source values, the sizes and the overflow
    behaviour, a conversion that finishes stores nothing but values in
    0..255 and does not resize the buffer: a destination of bytes stays
    a destination of bytes. *)
Theorem yuyv_to_rgb24_stores_bytes (yuyv rgb : list Z) w h d :
  yuyv_to_rgb24 yuyv rgb w h = Done d ->
  Forall is_u8 rgb ->
  Forall is_u8 (bytes d) /\ length (bytes d) = length rgb.
Proof.
  unfold yuyv_to_rgb24. intros H Hrgb.
  exact (yuyv_loop_u8 _ _ _ _ _ _ _ H Hrgb).
Qed.

Lemma yuyv_to_rgb24_stores_bytes_witness :
  Forall is_u8 [255; 0; 0; 255; 74; 74]
  /\ length [255; 0; 0; 255; 74; 74] = length [0; 0; 0; 0; 0; 0].
Proof.
  apply (yuyv_to_rgb24_stores_bytes [81; 90; 145; 240] [0; 0; 0; 0; 0; 0] 2 1
           {| bytes := [255; 0; 0; 255; 74; 74]; written := [0; 1; 2; 3; 4; 5] |}).
  - reflexivity.
  - repeat constructor; unfold is_u8; lia.
Defined.

Lemma yuyv_iter_bounds (yuyv : list Z) i j d d' :
  0 <= i -> 3 * i + 5 <= INT_MAX ->
  0 <= j -> j + 3 <= INT_MAX ->
  yuyv_iter yuyv i j d = Done d' ->
  j + 3 < Z.of_nat (length yuyv)
  /\ 3 * i + 5 < Z.of_nat (length (bytes d))
  /\ length (bytes d') = length (bytes d)
  /\ (forall k : nat,
        (k < Z.to_nat (3 * i))%nat \/ (Z.to_nat (3 * i + 6) <= k)%nat ->
        bytes d' !! k = bytes d !! k).
Proof.
  intros Hi Hi' Hj Hj' H.
  apply yuyv_iter_inv in H
    as (y0 & ub & y1 & vb & b0 & b1 & b2 & b3 & b4 & b5 & _ & _ & _ & L3 & H).
  cbv zeta in H. destruct H as (d1 & d2 & d3 & d4 & d5 & S1 & S2 & S3 & S4 & S5 & S6).
  assert (A3 : int_add j 3 = j + 3) by (unfold int_add; unwrap; lia).
  assert (O0 : int_add (int_mul i 3) 0 = 3 * i)
    by (unfold int_add, int_mul; unwrap; lia).
  assert (O1 : int_add (int_mul i 3) 1 = 3 * i + 1)
    by (unfold int_add, int_mul; unwrap; lia).
  assert (O2 : int_add (int_mul i 3) 2 = 3 * i + 2)
    by (unfold int_add, int_mul; unwrap; lia).
  assert (O3 : int_add (int_mul (int_add i 1) 3) 0 = 3 * i + 3)
    by (unfold int_add, int_mul; unwrap; lia).
  assert (O4 : int_add (int_mul (int_add i 1) 3) 1 = 3 * i + 4)
    by (unfold int_add, int_mul; unwrap; lia).
  assert (O5 : int_add (int_mul (int_add i 1) 3) 2 = 3 * i + 5)
    by (unfold int_add, int_mul; unwrap; lia).
  rewrite A3 in L3. rewrite O0 in S1. rewrite O1 in S2. rewrite O2 in S3.
  rewrite O3 in S4. rewrite O4 in S5. rewrite O5 in S6.
  apply load_inv in L3 as [_ L3]. apply lookup_lt_Some in L3.
  apply store_inv in S1 as [_ ->]. apply store_inv in S2 as [_ ->].
  apply store_inv in S3 as [_ ->]. apply store_inv in S4 as [_ ->].
  apply store_inv in S5 as [_ ->]. apply store_inv in S6 as [B6 ->].
  cbn [bytes] in *. rewrite !length_insert in B6.
  split; [lia|]. split; [lia|]. split; [by rewrite !length_insert|].
  intros k Hk. rewrite !list_lookup_insert_ne by lia. done.
Qed.

Lemma yuyv_iter_no_timeout (yuyv : list Z) i j d :
  yuyv_iter yuyv i j d <> OutOfFuel.
Proof.
  assert (HL : forall l k, load l k <> OutOfFuel).
  { intros l k. unfold load. destruct (k <? 0); [done|]. by destruct (l !! _). }
  assert (HS : forall k v e, store k v e <> OutOfFuel).
  { intros k v e. unfold store. by destruct (_ || _). }
  unfold yuyv_iter.
  repeat match goal with
    | |- bind (load ?l ?k) _ <> _ =>
        pose proof (HL l k); destruct (load l k); cbn [bind]; try done
    end.
  cbv zeta.
  repeat match goal with
    | |- bind (store ?k ?v ?e) _ <> _ =>
        pose proof (HS k v e); destruct (store k v e); cbn [bind]; try done
    end.
Qed.

(** A loop that finishes has found both buffers long enough for all
    its macropixels and has left the bytes behind them alone. *)
Lemma yuyv_loop_inv (yuyv : list Z) npix :
  in_int npix -> 6 * macropixels npix <= INT_MAX ->
  forall (fuel : nat) a d d',
    0 <= a ->
    yuyv_loop fuel yuyv npix (2 * a) (4 * a) d = Done d' ->
    length (bytes d') = length (bytes d)
    /\ (forall k : nat, 6 * macropixels npix <= Z.of_nat k ->
          bytes d' !! k = bytes d !! k)
    /\ (2 * a < npix ->
        4 * macropixels npix <= Z.of_nat (length yuyv)
        /\ 6 * macropixels npix <= Z.of_nat (length (bytes d))).
Proof.
  unfold in_int, INT_MIN, INT_MAX, macropixels. intros Hin Hmax.
  assert (Hlin : 3 * npix <= 2 ^ 31 - 1) by dlia.
  induction fuel as [|fuel IH]; intros a d d' Ha; cbn [yuyv_loop];
    destruct (2 * a <? npix) eqn:E; try done.
  - intros [= ->]. split; [done|]. split; [done | lia].
  - intros H. apply bind_Done in H as (d1 & Hit & Hrest).
    apply yuyv_iter_bounds in Hit as (B1 & B2 & B3 & B4);
      [| first [dlia | unfold INT_MAX; dlia] ..].
    replace (int_add (2 * a) 2) with (2 * (a + 1)) in Hrest
      by (unfold int_add; unwrap; lia).
    replace (int_add (4 * a) 4) with (4 * (a + 1)) in Hrest
      by (unfold int_add; unwrap; lia).
    apply IH in Hrest as (R1 & R2 & R3); [|lia].
    split; [congruence|]. split.
    + intros k Hk. rewrite R2 by done. apply B4. right. dlia.
    + intros _. destruct (Z.lt_ge_cases (2 * (a + 1)) npix) as [Hlt|Hge].
      * destruct (R3 Hlt) as [R4 R5]. split; [done|]. by rewrite <- B3.
      * split; dlia.
  - intros [= ->]. split; [done|]. split; [done | lia].
Qed.

Lemma yuyv_loop_no_timeout (yuyv : list Z) npix :
  in_int npix -> 6 * macropixels npix <= INT_MAX ->
  forall (fuel : nat) a d,
    0 <= a -> macropixels npix - a <= Z.of_nat fuel ->
    yuyv_loop fuel yuyv npix (2 * a) (4 * a) d <> OutOfFuel.
Proof.
  unfold in_int, INT_MIN, INT_MAX, macropixels. intros Hin Hmax.
  assert (Hlin : 3 * npix <= 2 ^ 31 - 1) by dlia.
  induction fuel as [|fuel IH]; intros a d Ha Hf; cbn [yuyv_loop];
    destruct (2 * a <? npix) eqn:E; try done.
  - dlia.
  - pose proof (yuyv_iter_no_timeout yuyv (2 * a) (4 * a) d) as Hi.
    destruct (yuyv_iter yuyv (2 * a) (4 * a) d) as [d1| |]; cbn [bind]; try done.
    replace (int_add (2 * a) 2) with (2 * (a + 1))
      by (unfold int_add; unwrap; lia).
    replace (int_add (4 * a) 4) with (4 * (a + 1))
      by (unfold int_add; unwrap; lia).
    apply IH; lia.
Qed.

Lemma yuyv_to_rgb24_fault (yuyv rgb : list Z) w h :
  in_int (w * h) -> 0 < w * h -> 6 * macropixels (w * h) <= INT_MAX ->
  ~ (4 * macropixels (w * h) <= Z.of_nat (length yuyv)
     /\ 6 * macropixels (w * h) <= Z.of_nat (length rgb)) ->
  yuyv_to_rgb24 yuyv rgb w h = Fault.
Proof.
  intros Hin Hpos Hmax Hshort. unfold yuyv_to_rgb24.
  assert (Hn : int_mul w h = w * h) by (by apply wrap_int_id).
  rewrite Hn. revert Hin Hpos Hmax Hshort. generalize (w * h).
  intros npix Hin Hpos Hmax Hshort.
  pose proof (yuyv_loop_no_timeout yuyv npix Hin Hmax (Z.to_nat npix) 0
                {| bytes := rgb; written := [] |}) as Hno.
  pose proof (yuyv_loop_inv yuyv npix Hin Hmax (Z.to_nat npix) 0
                {| bytes := rgb; written := [] |}) as Hinv.
  change (2 * 0) with 0 in *. change (4 * 0) with 0 in *.
  destruct (yuyv_loop (Z.to_nat npix) yuyv npix 0 0 {| bytes := rgb; written := [] |})
    as [d'| |]; [|done|].
  - exfalso. destruct (Hinv d') as (_ & _ & Hb); [lia|done|].
    apply Hshort. apply Hb. lia.
  - exfalso. apply Hno; [lia | unfold macropixels; dlia | done].
Qed.






(** X3: for every odd pixel count the call overruns a destination of
    exactly w*h*3 bytes (the size [proc_video] allocates), whatever the
    source frame holds: the last iteration stores a pixel that is not
    part of the frame. *)
Theorem yuyv_to_rgb24_odd_faults (yuyv rgb : list Z) w h :
  0 < w * h -> Z.odd (w * h) = true ->
  w * h * 3 + 3 <= INT_MAX ->
  Z.of_nat (length rgb) = w * h * 3 ->
  yuyv_to_rgb24 yuyv rgb w h = Fault.
Proof.
  intros Hpos Hodd Hmax Hlen.
  pose proof (yuyv_to_rgb24_fault yuyv rgb w h) as Hf. revert Hpos Hodd Hmax Hlen Hf.
  unfold in_int, INT_MIN, INT_MAX, macropixels. generalize (w * h).
  intros npix Hpos Hodd Hmax Hlen Hf.
  rewrite <- Z.negb_even in Hodd. apply negb_true_iff in Hodd.
  assert (Hmod : npix mod 2 = 1).
  { pose proof (Zmod_even npix) as Hm. rewrite Hodd in Hm. done. }
  apply Hf; dlia.
Qed.

Lemma yuyv_to_rgb24_odd_faults_witness :
  yuyv_to_rgb24 (replicate 20 128) (replicate 27 0) 3 3 = Fault.
Proof.
  apply (yuyv_to_rgb24_odd_faults (replicate 20 128) (replicate 27 0) 3 3);
    unfold INT_MAX; cbn [length replicate]; first [reflexivity | lia].
Defined.

(** X4: a call that finishes leaves every byte behind the last
    macropixel (offset 6*ceil(w*h/2) and up) as it was. *)
Theorem yuyv_to_rgb24_tail_untouched (yuyv rgb : list Z) w h d (k : nat) :
  in_int (w * h) -> 6 * macropixels (w * h) <= INT_MAX ->
  yuyv_to_rgb24 yuyv rgb w h = Done d ->
  6 * macropixels (w * h) <= Z.of_nat k ->
  bytes d !! k = rgb !! k.
Proof.
  intros Hin Hmax. unfold yuyv_to_rgb24.
  rewrite (wrap_int_id _ Hin : int_mul w h = w * h). intros H Hk.
  destruct (yuyv_loop_inv yuyv (w * h) Hin Hmax (Z.to_nat (w * h)) 0
              {| bytes := rgb; written := [] |} d) as (_ & Ht & _);
    [lia | exact H |].
  by apply Ht.
Qed.

Lemma yuyv_to_rgb24_tail_untouched_witness :
  [255; 0; 0; 255; 74; 74; 7; 8] !! 7%nat = [0; 0; 0; 0; 0; 0; 7; 8] !! 7%nat.
Proof.
  apply (yuyv_to_rgb24_tail_untouched [81; 90; 145; 240] [0; 0; 0; 0; 0; 0; 7; 8] 2 1
           {| bytes := [255; 0; 0; 255; 74; 74; 7; 8];
              written := [0; 1; 2; 3; 4; 5] |} 7);
    unfold in_int, INT_MIN, INT_MAX, macropixels; first [reflexivity | dlia].
Defined.

(** *** The conversion as a function on frames *)

(** The frame converter in the words of the specification: each
    4-byte macropixel Y0 U Y1 V becomes the two pixels
    R(Y0,V) G(Y0,U,V) B(Y0,U) and R(Y1,V) G(Y1,U,V) B(Y1,U). *)
Fixpoint convert_frame (yuyv : list Z) : list Z :=
  match yuyv with
  | y0 :: u :: y1 :: v :: rest =>
      [spec_R y0 v; spec_G y0 u v; spec_B y0 u;
       spec_R y1 v; spec_G y1 u v; spec_B y1 u] ++ convert_frame rest
  | _ => []
  end.

Lemma convert_frame_length (m : nat) :
  forall l, length l = (4 * m)%nat -> length (convert_frame l) = (6 * m)%nat.
Proof.
  induction m as [|m IH]; intros l Hl.
  - destruct l; [done | discriminate].
  - do 4 (destruct l as [|? l]; [cbn in Hl; lia|]).
    cbn [convert_frame]. rewrite length_app, (IH l) by (cbn in Hl; lia).
    cbn [length]. lia.
Qed.

Lemma convert_frame_lookup (t : nat) :
  forall l y0 u y1 v,
    l !! (4 * t)%nat = Some y0 -> l !! (4 * t + 1)%nat = Some u ->
    l !! (4 * t + 2)%nat = Some y1 -> l !! (4 * t + 3)%nat = Some v ->
    convert_frame l !! (6 * t)%nat = Some (spec_R y0 v)
    /\ convert_frame l !! (6 * t + 1)%nat = Some (spec_G y0 u v)
    /\ convert_frame l !! (6 * t + 2)%nat = Some (spec_B y0 u)
    /\ convert_frame l !! (6 * t + 3)%nat = Some (spec_R y1 v)
    /\ convert_frame l !! (6 * t + 4)%nat = Some (spec_G y1 u v)
    /\ convert_frame l !! (6 * t + 5)%nat = Some (spec_B y1 u).
Proof.
  induction t as [|t IH]; intros l y0 u y1 v L0 L1 L2 L3.
  - do 4 (destruct l as [|? l]; [discriminate|]).
    cbn in L0, L1, L2, L3. simplify_eq. by repeat split.
  - replace (4 * S t)%nat with (S (S (S (S (4 * t))))) in * by lia.
    do 4 (destruct l as [|? l]; [discriminate|]).
    cbn [lookup list_lookup Nat.add] in L0, L1, L2, L3.
    destruct (IH l y0 u y1 v L0 L1 L2 L3) as (H0 & H1 & H2 & H3 & H4 & H5).
    cbn [convert_frame].
    replace (6 * S t)%nat with (S (S (S (S (S (S (6 * t))))))) by lia.
    by repeat split.
Qed.

Lemma pixel_at_Some (l : list Z) p r g b :
  pixel_at l p = Some (r, g, b) ->
  l !! Z.to_nat (3 * p) = Some r
  /\ l !! Z.to_nat (3 * p + 1) = Some g
  /\ l !! Z.to_nat (3 * p + 2) = Some b.
Proof.
  unfold pixel_at.
  destruct (l !! Z.to_nat (3 * p)); [|done].
  destruct (l !! Z.to_nat (3 * p + 1)); [|done].
  destruct (l !! Z.to_nat (3 * p + 2)); [|done].
  by intros [= -> -> ->].
Qed.

(** X5: on a frame of bytes the call computes the specification's
    frame converter: the destination of 6 bytes per macropixel ends up
    holding exactly the converted macropixels of the source, in order,
    whatever it held before; so converting again into the same buffer
    gives the same frame. *)
Theorem yuyv_to_rgb24_is_convert_frame (yuyv rgb : list Z) w h :
  in_int (w * h) -> 6 * macropixels (w * h) <= INT_MAX ->
  Forall is_u8 yuyv ->
  4 * macropixels (w * h) <= Z.of_nat (length yuyv) ->
  Z.of_nat (length rgb) = 6 * macropixels (w * h) ->
  yuyv_to_rgb24 yuyv rgb w h
  = Done {| bytes := convert_frame (take (Z.to_nat (4 * macropixels (w * h))) yuyv);
            written := seqZ 0 (6 * macropixels (w * h)) |}.
Proof.
  intros Hin Hmax Hu8 Hsrc Hdst.
  destruct (yuyv_to_rgb24_done yuyv rgb w h Hin Hmax Hsrc)
    as (d & Hrun & Hlen & Hwr & Hpix); [lia|].
  rewrite Hrun. f_equal. destruct d as [bs wr]. cbn [bytes written] in *.
  subst wr. f_equal.
  revert Hu8 Hsrc Hdst Hlen Hpix. generalize (macropixels (w * h)).
  intros m Hu8 Hsrc Hdst Hlen Hpix.
  destruct (Z.le_gt_cases m 0) as [Hm|Hm].
  { replace (Z.to_nat (4 * m)) with 0%nat by lia.
    destruct bs; [done | cbn in Hlen; lia]. }
  set (src := take (Z.to_nat (4 * m)) yuyv).
  assert (Hsl : length src = (4 * Z.to_nat m)%nat).
  { unfold src. rewrite length_take. lia. }
  pose proof (convert_frame_length (Z.to_nat m) src Hsl) as Hcl.
  apply list_eq. intros i.
  destruct (Nat.lt_ge_cases i (6 * Z.to_nat m)) as [Hi|Hi].
  2: { rewrite !lookup_ge_None_2 by lia. done. }
  set (t := (i / 6)%nat).
  assert (Ht : (6 * t <= i < 6 * t + 6)%nat).
  { unfold t. pose proof (Nat.div_mod_eq i 6).
    pose proof (Nat.mod_upper_bound i 6). lia. }
  clearbody t.
  assert (Htm : (t < Z.to_nat m)%nat) by lia.
  destruct (lookup_lt_is_Some_2 src (4 * t)) as [y0 L0]; [lia|].
  destruct (lookup_lt_is_Some_2 src (4 * t + 1)) as [u L1]; [lia|].
  destruct (lookup_lt_is_Some_2 src (4 * t + 2)) as [y1 L2]; [lia|].
  destruct (lookup_lt_is_Some_2 src (4 * t + 3)) as [v L3]; [lia|].
  destruct (convert_frame_lookup t src y0 u y1 v L0 L1 L2 L3)
    as (C0 & C1 & C2 & C3 & C4 & C5).
  assert (Hy : forall c b, src !! c = Some b -> yuyv !! c = Some b /\ is_u8 b).
  { intros c b Hc. unfold src in Hc. apply lookup_take_Some in Hc as [Hc _].
    split; [done|]. rewrite Forall_forall in Hu8. apply Hu8.
    apply list_elem_of_lookup. by exists c. }
  destruct (Hy _ _ L0) as [Y0 U0]. destruct (Hy _ _ L1) as [Y1 U1].
  destruct (Hy _ _ L2) as [Y2 U2]. destruct (Hy _ _ L3) as [Y3 U3].
  destruct (Hpix (Z.of_nat t) y0 u y1 v) as [P0 P1]; try done; try lia.
  { by replace (Z.to_nat (4 * Z.of_nat t)) with (4 * t)%nat by lia. }
  { by replace (Z.to_nat (4 * Z.of_nat t + 1)) with (4 * t + 1)%nat by lia. }
  { by replace (Z.to_nat (4 * Z.of_nat t + 2)) with (4 * t + 2)%nat by lia. }
  { by replace (Z.to_nat (4 * Z.of_nat t + 3)) with (4 * t + 3)%nat by lia. }
  apply pixel_at_Some in P0 as (Q0 & Q1 & Q2).
  apply pixel_at_Some in P1 as (Q3 & Q4 & Q5).
  replace (Z.to_nat (3 * (2 * Z.of_nat t))) with (6 * t)%nat in Q0 by lia.
  replace (Z.to_nat (3 * (2 * Z.of_nat t) + 1)) with (6 * t + 1)%nat in Q1 by lia.
  replace (Z.to_nat (3 * (2 * Z.of_nat t) + 2)) with (6 * t + 2)%nat in Q2 by lia.
  replace (Z.to_nat (3 * (2 * Z.of_nat t + 1))) with (6 * t + 3)%nat in Q3 by lia.
  replace (Z.to_nat (3 * (2 * Z.of_nat t + 1) + 1)) with (6 * t + 4)%nat in Q4 by lia.
  replace (Z.to_nat (3 * (2 * Z.of_nat t + 1) + 2)) with (6 * t + 5)%nat in Q5 by lia.
  assert (Hc : (i = 6 * t \/ i = 6 * t + 1 \/ i = 6 * t + 2 \/ i = 6 * t + 3
                \/ i = 6 * t + 4 \/ i = 6 * t + 5)%nat) by lia.
  destruct Hc as [-> | [-> | [-> | [-> | [-> | ->]]]]]; congruence.
Qed.

Lemma yuyv_to_rgb24_is_convert_frame_witness :
  yuyv_to_rgb24 [81; 90; 145; 240; 16; 128; 235; 128] (replicate 12 77) 2 2
  = Done {| bytes := convert_frame
                       (take (Z.to_nat (4 * macropixels (2 * 2)))
                          [81; 90; 145; 240; 16; 128; 235; 128]);
            written := seqZ 0 (6 * macropixels (2 * 2)) |}.
Proof.
  apply (yuyv_to_rgb24_is_convert_frame
           [81; 90; 145; 240; 16; 128; 235; 128] (replicate 12 77) 2 2);
    unfold in_int, INT_MIN, INT_MAX, macropixels; cbn [length replicate];
    try dlia.
  repeat constructor; unfold is_u8; lia.
Defined.

(** The grey level of a luma sample under neutral chroma. *)
Definition grey_level (y : Z) : Z := clamp255 (Z.shiftr (298 * (y - 16) + 128) 8).

Lemma neutral_chroma_grey y :
  spec_R y 128 = grey_level y /\ spec_G y 128 128 = grey_level y
  /\ spec_B y 128 = grey_level y.
Proof.
  unfold spec_R, spec_G, spec_B, grey_level.
  repeat split; do 2 f_equal; lia.
Qed.

Lemma grey_level_facts y y' :
  (y <= 16 -> grey_level y = 0)
  /\ (235 <= y -> grey_level y = 255)
  /\ (y <= y' -> grey_level y <= grey_level y').
Proof.
  unfold grey_level, clamp255. rewrite !Z.shiftr_div_pow2 by lia.
  change (2 ^ 8) with 256. repeat split; intros; dlia.
Qed.

(** X6: a macropixel with neutral chroma (U = V = 128) comes out as
    two grey pixels, R = G = B; the grey level grows with the luma
    sample, is 0 (black) for luma up to 16 and 255 (white) from luma
    235 on: the studio range 16..235 is stretched to the full range. *)
Theorem yuyv_to_rgb24_neutral_chroma (yuyv rgb : list Z) w h k y0 y1 :
  in_int (w * h) -> 6 * macropixels (w * h) <= INT_MAX ->
  4 * macropixels (w * h) <= Z.of_nat (length yuyv) ->
  6 * macropixels (w * h) <= Z.of_nat (length rgb) ->
  0 <= k < macropixels (w * h) ->
  yuyv !! Z.to_nat (4 * k) = Some y0 ->
  yuyv !! Z.to_nat (4 * k + 1) = Some 128 ->
  yuyv !! Z.to_nat (4 * k + 2) = Some y1 ->
  yuyv !! Z.to_nat (4 * k + 3) = Some 128 ->
  is_u8 y0 -> is_u8 y1 ->
  exists d g0 g1,
    yuyv_to_rgb24 yuyv rgb w h = Done d
    /\ pixel_at (bytes d) (2 * k) = Some (g0, g0, g0)
    /\ pixel_at (bytes d) (2 * k + 1) = Some (g1, g1, g1)
    /\ (y0 <= 16 -> g0 = 0) /\ (235 <= y0 -> g0 = 255)
    /\ (y0 <= y1 -> g0 <= g1).
Proof.
  intros Hin Hmax Hsrc Hdst Hk L0 L1 L2 L3 U0 U1.
  destruct (yuyv_to_rgb24_done yuyv rgb w h Hin Hmax Hsrc Hdst)
    as (d & Hrun & _ & _ & Hpix).
  destruct (Hpix k y0 128 y1 128 Hk L0 L1 L2 L3) as [P0 P1];
    try done; try (unfold is_u8; lia).
  destruct (neutral_chroma_grey y0) as (R0 & G0 & B0).
  destruct (neutral_chroma_grey y1) as (R1 & G1 & B1).
  rewrite R0, G0, B0 in P0. rewrite R1, G1, B1 in P1.
  exists d, (grey_level y0), (grey_level y1).
  destruct (grey_level_facts y0 y1) as (F1 & F2 & F3). by repeat split.
Qed.

Lemma yuyv_to_rgb24_neutral_chroma_witness :
  exists d g0 g1,
    yuyv_to_rgb24 [16; 128; 235; 128] (replicate 6 0) 2 1 = Done d
    /\ pixel_at (bytes d) (2 * 0) = Some (g0, g0, g0)
    /\ pixel_at (bytes d) (2 * 0 + 1) = Some (g1, g1, g1)
    /\ (16 <= 16 -> g0 = 0) /\ (235 <= 16 -> g0 = 255)
    /\ (16 <= 235 -> g0 <= g1).
Proof.
  apply (yuyv_to_rgb24_neutral_chroma [16; 128; 235; 128] (replicate 6 0) 2 1 0 16 235);
    unfold in_int, INT_MIN, INT_MAX, macropixels, is_u8; cbn [length replicate];
    first [reflexivity | dlia].
Defined.

End Convert.

(** ** Presenter: [integer_fit_rect]

    [SDL_FRect] holds C [float]s: IEEE 754 binary32, modelled with the
    specification of floating-point arithmetic of the standard library
    at precision 24 and maximal exponent 128. *)
Module FitRect.
Import CInt.

Definition prec : Z := 24.
Definition emax : Z := 128.

(** [(float)n] for an int [n]: rounding to nearest, ties to even. *)
Definition float_of_int (n : Z) : spec_float := binary_normalize prec emax n 0 false.

(** [(int)f]: truncation towards zero; outside the range of int the
    conversion is undefined in C (the x86 instruction yields INT_MIN). *)
Definition int_of_float (f : spec_float) : Z :=
  match f with
  | S754_zero _ => 0
  | S754_finite s m e =>
      let t := cond_Zopp s (Z.shiftl (Zpos m) e) in
      if (INT_MIN <=? t) && (t <=? INT_MAX) then t else INT_MIN
  | _ => INT_MIN
  end.

(** The literal [0.5f] = 2^23 * 2^-24. *)
Definition half : spec_float := S754_finite false 8388608 (-24).

Definition float_mul (a b : spec_float) : spec_float := SFmul prec emax a b.

Record SDL_FRect : Type := { x : spec_float; y : spec_float; w : spec_float; h : spec_float }.

(** The local [s] of [integer_fit_rect]. *)
Definition fit_scale (src_w src_h dst_w dst_h : Z) : Z :=
  let sx := int_div dst_w src_w in
  let sy := int_div dst_h src_h in
  let s := if sx <? sy then sx else sy in
  if s <? 1 then 1 else s.

(** [static SDL_FRect integer_fit_rect(int src_w, int src_h, int dst_w, int dst_h)] *)
Definition integer_fit_rect (src_w src_h dst_w dst_h : Z) : SDL_FRect :=
  let s := fit_scale src_w src_h dst_w dst_h in
  let r_w := float_of_int (int_mul src_w s) in
  let r_h := float_of_int (int_mul src_h s) in
  let r_x := float_mul (float_of_int (int_sub dst_w (int_of_float r_w))) half in
  let r_y := float_mul (float_of_int (int_sub dst_h (int_of_float r_h))) half in
  {| x := r_x; y := r_y; w := r_w; h := r_h |}.

(** The real number a finite float stands for: [+-m * 2^e]. *)
Definition float_value (s : bool) (m : positive) (e : Z) : Q :=
  Qmake (cond_Zopp s (Zpos m) * 2 ^ Z.max e 0) (Z.to_pos (2 ^ Z.max (- e) 0)).

Definition represents (f : spec_float) (q : Q) : Prop :=
  match f with
  | S754_zero _ => Qeq 0 q
  | S754_finite s m e => Qeq (float_value s m e) q
  | _ => False
  end.

Example fit_1280x960 :
  fit_scale 640 480 1280 960 = 2
  /\ integer_fit_rect 640 480 1280 960
     = {| x := S754_zero false; y := S754_zero false;
          w := S754_finite false 10485760 (-13);
          h := S754_finite false 15728640 (-14) |}.
Proof. split; reflexivity. Qed.

Example fit_1000x1000 :
  fit_scale 640 480 1000 1000 = 1
  /\ integer_fit_rect 640 480 1000 1000
     = {| x := S754_finite false 11796480 (-16);
          y := S754_finite false 8519680 (-15);
          w := S754_finite false 10485760 (-14);
          h := S754_finite false 15728640 (-15) |}.
Proof. split; reflexivity. Qed.

(** *** Exactness of binary32 on small integers *)

Lemma digits2_pos_bounds (p : positive) :
  2 ^ (Zpos (digits2_pos p) - 1) <= Zpos p < 2 ^ Zpos (digits2_pos p).
Proof.
  induction p as [p IH|p IH|]; cbn [digits2_pos].
  - rewrite Pos2Z.inj_succ.
    replace (Z.succ (Zpos (digits2_pos p)) - 1) with (Zpos (digits2_pos p)) by lia.
    rewrite Z.pow_succ_r by lia.
    replace (2 ^ Zpos (digits2_pos p))
      with (2 * 2 ^ (Zpos (digits2_pos p) - 1)) in *
      by (rewrite <- Z.pow_succ_r by lia; f_equal; lia).
    lia.
  - rewrite Pos2Z.inj_succ.
    replace (Z.succ (Zpos (digits2_pos p)) - 1) with (Zpos (digits2_pos p)) by lia.
    rewrite Z.pow_succ_r by lia.
    replace (2 ^ Zpos (digits2_pos p))
      with (2 * 2 ^ (Zpos (digits2_pos p) - 1)) in *
      by (rewrite <- Z.pow_succ_r by lia; f_equal; lia).
    lia.
  - cbn. lia.
Qed.

Lemma digits2_pos_iter_xO (k p : positive) :
  Zpos (digits2_pos (Pos.iter xO p k)) = Zpos (digits2_pos p) + Zpos k.
Proof.
  induction k as [|k IH] using Pos.peano_ind.
  - cbn [Pos.iter digits2_pos]. lia.
  - rewrite Pos.iter_succ. cbn [digits2_pos]. lia.
Qed.

Lemma Zpos_iter_xO (k p : positive) :
  Zpos (Pos.iter xO p k) = Zpos p * 2 ^ Zpos k.
Proof.
  induction k as [|k IH] using Pos.peano_ind.
  - cbn [Pos.iter]. lia.
  - rewrite Pos.iter_succ, Pos2Z.inj_succ, Z.pow_succ_r by lia.
    rewrite Pos2Z.inj_xO, IH. lia.
Qed.

(** A mantissa of exactly 24 bits with an exponent in the normal range
    is already rounded. *)
Lemma binary_round_aux_exact (s : bool) (m : positive) (e : Z) :
  Zpos (digits2_pos m) = 24 -> -149 <= e <= 104 ->
  binary_round_aux prec emax s (Zpos m) e loc_Exact = S754_finite s m e.
Proof.
  intros Hd He.
  unfold binary_round_aux, shr_fexp, fexp, emin, prec, emax.
  cbn [Zdigits2 shr_record_of_loc]. rewrite Hd.
  replace (Z.max (24 + e - 24) (3 - 128 - 24) - e) with 0 by lia.
  cbn [shr shr_m loc_of_shr_record round_nearest_even Zdigits2 shr_record_of_loc].
  rewrite Hd.
  replace (Z.max (24 + e - 24) (3 - 128 - 24) - e) with 0 by lia.
  cbn [shr shr_m].
  destruct (e <=? 128 - 24) eqn:E; [done | lia].
Qed.

(** [f] is the normal binary32 number equal to the non-zero integer [n]. *)
Definition exact_for (f : spec_float) (n : Z) : Prop :=
  exists m e,
    f = S754_finite (n <? 0) m e
    /\ Zpos (digits2_pos m) = 24
    /\ -23 <= e <= 1
    /\ Zpos m * 2 ^ Z.max e 0 = Z.abs n * 2 ^ Z.max (- e) 0.

Lemma binary_round_small (s : bool) (p : positive) :
  Zpos p < 2 ^ 24 ->
  exists m e,
    binary_round prec emax s p 0 = S754_finite s m e
    /\ Zpos (digits2_pos m) = 24
    /\ -23 <= e <= 0
    /\ Zpos m = Zpos p * 2 ^ (- e).
Proof.
  intros Hp.
  pose proof (digits2_pos_bounds p) as [Hlo _].
  assert (Hd : Zpos (digits2_pos p) <= 24).
  { destruct (Z_le_gt_dec (Zpos (digits2_pos p)) 24) as [|Hgt]; [done|].
    assert (2 ^ 24 <= 2 ^ (Zpos (digits2_pos p) - 1))
      by (apply Z.pow_le_mono_r; lia).
    lia. }
  unfold binary_round, shl_align, fexp, emin, prec, emax.
  replace (Z.max (Zpos (digits2_pos p) + 0 - 24) (3 - 128 - 24) - 0)
    with (Zpos (digits2_pos p) - 24) by lia.
  replace (Z.max (Zpos (digits2_pos p) + 0 - 24) (3 - 128 - 24))
    with (Zpos (digits2_pos p) - 24) by lia.
  destruct (Zpos (digits2_pos p) - 24) as [|k|k] eqn:E; [|lia|].
  - exists p, 0. rewrite binary_round_aux_exact by lia.
    repeat split; lia.
  - exists (Pos.iter xO p k), (Zneg k).
    pose proof (digits2_pos_iter_xO k p) as Hdk.
    rewrite binary_round_aux_exact by lia.
    repeat split; try lia.
    rewrite Zpos_iter_xO. reflexivity.
Qed.

Lemma float_of_int_exact_for (n : Z) :
  n <> 0 -> Z.abs n <= 2 ^ 24 -> exact_for (float_of_int n) n.
Proof.
  intros Hn Hb. unfold exact_for.
  destruct (Z.eq_dec (Z.abs n) (2 ^ 24)) as [Htop|Htop].
  { assert (n = 16777216 \/ n = -16777216) as [-> | ->] by lia.
    - exists 8388608%positive, 1. repeat split; (reflexivity || lia).
    - exists 8388608%positive, 1. repeat split; (reflexivity || lia). }
  destruct n as [|p|p]; [done| |].
  - destruct (binary_round_small false p) as (m & e & Hr & Hd & He & Hm); [lia|].
    exists m, e. unfold float_of_int, binary_normalize. rewrite Hr.
    repeat split; try lia.
    rewrite (Z.max_r e 0), (Z.max_l (- e) 0) by lia.
    cbn [Z.abs]. change (2 ^ 0) with 1. lia.
  - destruct (binary_round_small true p) as (m & e & Hr & Hd & He & Hm); [lia|].
    exists m, e. unfold float_of_int, binary_normalize. rewrite Hr.
    repeat split; try lia.
    rewrite (Z.max_r e 0), (Z.max_l (- e) 0) by lia.
    cbn [Z.abs]. change (2 ^ 0) with 1. lia.
Qed.

(** Multiplying a normal number by [0.5f] only lowers its exponent. *)
Lemma float_mul_half (s : bool) (m : positive) (e : Z) :
  Zpos (digits2_pos m) = 24 -> -148 <= e <= 105 ->
  float_mul (S754_finite s m e) half = S754_finite s m (e - 1).
Proof.
  intros Hd He. unfold float_mul, SFmul, half.
  rewrite Pos.mul_comm.
  change (Pos.mul 8388608 m) with (Pos.iter xO m 23).
  unfold binary_round_aux, shr_fexp, fexp, emin, prec, emax.
  cbn [Zdigits2 shr_record_of_loc].
  rewrite digits2_pos_iter_xO, Hd.
  replace (Z.max (24 + 23 + (e + -24) - 24) (3 - 128 - 24) - (e + -24))
    with 23 by lia.
  cbn [shr SpecFloat.iter_pos Pos.iter shr_1 orb shr_m loc_of_shr_record
       round_nearest_even Zdigits2].
  rewrite Hd.
  replace (Z.max (24 + (e + -24 + 23) - 24) (3 - 128 - 24) - (e + -24 + 23))
    with 0 by lia.
  cbn [shr shr_m].
  destruct (e + -24 + 23 <=? 128 - 24) eqn:E; [|lia].
  destruct s; cbn [xorb]; f_equal; lia.
Qed.

Lemma exact_for_represents f n : exact_for f n -> represents f (inject_Z n).
Proof.
  intros (m & e & -> & Hd & He & Hv).
  unfold represents, float_value, Qeq, inject_Z. cbn [Qnum Qden].
  rewrite Z2Pos.id by (apply Z.pow_pos_nonneg; lia).
  revert Hv. generalize (2 ^ Z.max e 0) (2 ^ Z.max (- e) 0). intros A B Hv.
  destruct (n <? 0) eqn:E; cbn [cond_Zopp].
  - rewrite Z.abs_neq in Hv by lia. lia.
  - rewrite Z.abs_eq in Hv by lia. lia.
Qed.

Lemma exact_for_int_of_float f n :
  Z.abs n <= 2 ^ 24 -> exact_for f n -> int_of_float f = n.
Proof.
  intros Hb (m & e & -> & Hd & He & Hv). unfold int_of_float.
  assert (Hsh : Z.shiftl (Zpos m) e = Z.abs n).
  { destruct (Z.eq_dec e 1) as [He1|Hne].
    - rewrite Z.shiftl_mul_pow2 by lia.
      rewrite (Z.max_l e 0), (Z.max_r (- e) 0) in Hv by lia.
      change (2 ^ 0) with 1 in Hv. lia.
    - rewrite Z.shiftl_div_pow2 by lia.
      rewrite (Z.max_r e 0), (Z.max_l (- e) 0) in Hv by lia.
      change (2 ^ 0) with 1 in Hv. rewrite Z.mul_1_r in Hv. rewrite Hv.
      apply Z.div_mul. apply Z.pow_nonzero; lia. }
  rewrite Hsh. unfold INT_MIN, INT_MAX.
  destruct (n <? 0) eqn:E; cbn [cond_Zopp].
  - destruct ((- 2 ^ 31 <=? - Z.abs n) && (- Z.abs n <=? 2 ^ 31 - 1)) eqn:R; lia.
  - destruct ((- 2 ^ 31 <=? Z.abs n) && (Z.abs n <=? 2 ^ 31 - 1)) eqn:R; lia.
Qed.

Lemma exact_for_half f n :
  exact_for f n -> represents (float_mul f half) (n # 2).
Proof.
  intros (m & e & -> & Hd & He & Hv).
  rewrite float_mul_half by lia.
  unfold represents, float_value, Qeq. cbn [Qnum Qden].
  rewrite Z2Pos.id by (apply Z.pow_pos_nonneg; lia).
  rewrite (Z.max_r (e - 1) 0), (Z.max_l (- (e - 1)) 0) by lia.
  change (2 ^ 0) with 1.
  destruct (Z.eq_dec e 1) as [He1|Hne].
  - rewrite (Z.max_l e 0), (Z.max_r (- e) 0) in Hv by lia.
    change (2 ^ 0) with 1 in Hv.
    rewrite He1 in *. change (2 ^ (- (1 - 1))) with 1. change (2 ^ 1) with 2 in Hv.
    destruct (n <? 0) eqn:E; cbn [cond_Zopp].
    + rewrite Z.abs_neq in Hv by lia. lia.
    + rewrite Z.abs_eq in Hv by lia. lia.
  - rewrite (Z.max_r e 0), (Z.max_l (- e) 0) in Hv by lia.
    change (2 ^ 0) with 1 in Hv.
    replace (- (e - 1)) with (Z.succ (- e)) by lia.
    rewrite Z.pow_succ_r by lia.
    revert Hv. generalize (2 ^ (- e)). intros B Hv.
    destruct (n <? 0) eqn:E; cbn [cond_Zopp].
    + rewrite Z.abs_neq in Hv by lia. lia.
    + rewrite Z.abs_eq in Hv by lia. lia.
Qed.

(** Every int of magnitude at most 2^24 survives the trip through
    [float] unchanged, and halving it is exact. *)
Lemma float_of_int_exact (n : Z) :
  Z.abs n <= 2 ^ 24 ->
  represents (float_of_int n) (inject_Z n)
  /\ int_of_float (float_of_int n) = n
  /\ represents (float_mul (float_of_int n) half) (n # 2).
Proof.
  intros Hb. destruct (Z.eq_dec n 0) as [->|Hn].
  - repeat split; reflexivity.
  - pose proof (float_of_int_exact_for n Hn Hb) as Hex.
    split; [by apply exact_for_represents|].
    split; [by apply exact_for_int_of_float|].
    by apply exact_for_half.
Qed.

(** *** The scale factor *)

Lemma int_div_pos a b :
  0 <= a <= INT_MAX -> 0 < b -> int_div a b = a / b.
Proof.
  intros Ha Hb. unfold int_div.
  rewrite Z.quot_div_nonneg by lia.
  apply wrap_int_id. unfold in_int, INT_MIN, INT_MAX in *.
  pose proof (Z.div_pos a b). pose proof (Z.div_le_upper_bound a b a).
  assert (a / b <= a) by (apply Z.div_le_upper_bound; nia). lia.
Qed.

Lemma fit_scale_max_min src_w src_h dst_w dst_h :
  0 < src_w -> 0 < src_h -> 0 <= dst_w <= INT_MAX -> 0 <= dst_h <= INT_MAX ->
  fit_scale src_w src_h dst_w dst_h
  = Z.max 1 (Z.min (dst_w / src_w) (dst_h / src_h)).
Proof.
  intros. unfold fit_scale. rewrite !int_div_pos by lia.
  destruct (dst_w / src_w <? dst_h / src_h) eqn:E1.
  - destruct (dst_w / src_w <? 1) eqn:E2; lia.
  - destruct (dst_h / src_h <? 1) eqn:E2; lia.
Qed.

Lemma Qfloor_div a b : 0 < b -> Qfloor (inject_Z a / inject_Z b) = a / b.
Proof.
  intros Hb. destruct b as [|p|p]; try lia.
  unfold Qdiv, Qinv, Qmult, inject_Z, Qfloor. cbn [Qnum Qden].
  rewrite Z.mul_1_r. reflexivity.
Qed.

Lemma Qfloor_Qmin q1 q2 : Qfloor (Qmin q1 q2) = Z.min (Qfloor q1) (Qfloor q2).
Proof.
  destruct (Qlt_le_dec q2 q1) as [Hlt|Hle].
  - rewrite (Qfloor_comp _ _ (Q.min_r q1 q2 (Qlt_le_weak _ _ Hlt))).
    pose proof (Qfloor_resp_le _ _ (Qlt_le_weak _ _ Hlt)). lia.
  - rewrite (Qfloor_comp _ _ (Q.min_l q1 q2 Hle)).
    pose proof (Qfloor_resp_le _ _ Hle). lia.
Qed.

Lemma scaled_le src dst k :
  0 < src -> 0 <= dst -> 1 <= k -> k <= Z.max 1 (dst / src) ->
  src * k <= Z.max src dst.
Proof.
  intros Hs Hd Hk Hle.
  destruct (Z.le_gt_cases (dst / src) 1) as [H1|H1].
  - assert (k = 1) by lia. subst k. lia.
  - pose proof (Z.mul_div_le dst src Hs).
    assert (src * k <= src * (dst / src)) by (apply Z.mul_le_mono_nonneg_l; lia).
    lia.
Qed.

(** C6 as stated fails for sizes a float cannot hold: 16777217 = 2^24+1
    is rounded to 16777216 by [(float)], so the rectangle is not
    srcW*scale wide. *)
Lemma integer_fit_rect_rounds_large :
  fit_scale 16777217 1 16777217 1 = 1
  /\ represents (w (integer_fit_rect 16777217 1 16777217 1)) (inject_Z 16777216)
  /\ ~ represents (w (integer_fit_rect 16777217 1 16777217 1))
        (inject_Z (16777217 * 1)).
Proof.
  split; [reflexivity|]. split; [reflexivity|].
  vm_compute. discriminate.
Qed.

(** C6, amended: for all positive srcW, srcH, dstW, dstH up to 2^24
    (the integers a float holds exactly), the scale is
    max(1, floor(min(dstW/srcW, dstH/srcH))) and the rectangle is
    srcW*scale by srcH*scale, placed at ((dstW - srcW*scale)/2,
    (dstH - srcH*scale)/2), that is, centered in the destination. *)
Theorem integer_fit_rect_spec src_w src_h dst_w dst_h :
  0 < src_w <= 2 ^ 24 -> 0 < src_h <= 2 ^ 24 ->
  0 < dst_w <= 2 ^ 24 -> 0 < dst_h <= 2 ^ 24 ->
  fit_scale src_w src_h dst_w dst_h
  = Z.max 1 (Qfloor (Qmin (inject_Z dst_w / inject_Z src_w)
                          (inject_Z dst_h / inject_Z src_h)))
  /\ represents (w (integer_fit_rect src_w src_h dst_w dst_h))
       (inject_Z (src_w * fit_scale src_w src_h dst_w dst_h))
  /\ represents (h (integer_fit_rect src_w src_h dst_w dst_h))
       (inject_Z (src_h * fit_scale src_w src_h dst_w dst_h))
  /\ represents (x (integer_fit_rect src_w src_h dst_w dst_h))
       ((dst_w - src_w * fit_scale src_w src_h dst_w dst_h) # 2)
  /\ represents (y (integer_fit_rect src_w src_h dst_w dst_h))
       ((dst_h - src_h * fit_scale src_w src_h dst_w dst_h) # 2).
Proof.
  intros Hsw Hsh Hdw Hdh.
  pose proof (fit_scale_max_min src_w src_h dst_w dst_h) as Hs.
  unfold INT_MAX in Hs. specialize (Hs ltac:(lia) ltac:(lia) ltac:(lia) ltac:(lia)).
  split.
  { rewrite Hs, Qfloor_Qmin, !Qfloor_div by lia. reflexivity. }
  unfold integer_fit_rect. cbn [x y w h].
  generalize dependent (fit_scale src_w src_h dst_w dst_h). intros k Hk.
  assert (Hk1 : 1 <= k) by lia.
  pose proof (scaled_le src_w dst_w k ltac:(lia) ltac:(lia) Hk1 ltac:(lia)) as Hkw.
  pose proof (scaled_le src_h dst_h k ltac:(lia) ltac:(lia) Hk1 ltac:(lia)) as Hkh.
  assert (0 < src_w * k) by nia. assert (0 < src_h * k) by nia.
  assert (Mw : int_mul src_w k = src_w * k)
    by (apply wrap_int_id; unfold in_int, INT_MIN, INT_MAX; lia).
  assert (Mh : int_mul src_h k = src_h * k)
    by (apply wrap_int_id; unfold in_int, INT_MIN, INT_MAX; lia).
  rewrite Mw, Mh.
  destruct (float_of_int_exact (src_w * k)) as (Rw & Iw & _); [lia|].
  destruct (float_of_int_exact (src_h * k)) as (Rh & Ih & _); [lia|].
  rewrite Iw, Ih.
  assert (Sw : int_sub dst_w (src_w * k) = dst_w - src_w * k)
    by (apply wrap_int_id; unfold in_int, INT_MIN, INT_MAX; lia).
  assert (Sh : int_sub dst_h (src_h * k) = dst_h - src_h * k)
    by (apply wrap_int_id; unfold in_int, INT_MIN, INT_MAX; lia).
  rewrite Sw, Sh.
  destruct (float_of_int_exact (dst_w - src_w * k)) as (_ & _ & Rx); [lia|].
  destruct (float_of_int_exact (dst_h - src_h * k)) as (_ & _ & Ry); [lia|].
  done.
Qed.

(** The second example of the specification: 640x480 in 1000x1000 gives
    scale 1 and a 640x480 rectangle at (180,260). *)
Lemma integer_fit_rect_spec_witness :
  fit_scale 640 480 1000 1000
  = Z.max 1 (Qfloor (Qmin (inject_Z 1000 / inject_Z 640)
                          (inject_Z 1000 / inject_Z 480)))
  /\ represents (w (integer_fit_rect 640 480 1000 1000))
       (inject_Z (640 * fit_scale 640 480 1000 1000))
  /\ represents (h (integer_fit_rect 640 480 1000 1000))
       (inject_Z (480 * fit_scale 640 480 1000 1000))
  /\ represents (x (integer_fit_rect 640 480 1000 1000))
       ((1000 - 640 * fit_scale 640 480 1000 1000) # 2)
  /\ represents (y (integer_fit_rect 640 480 1000 1000))
       ((1000 - 480 * fit_scale 640 480 1000 1000) # 2).
Proof.
  apply (integer_fit_rect_spec 640 480 1000 1000); lia.
Defined.

(** The two examples of the specification, by evaluation. *)
Example integer_fit_rect_examples :
  (fit_scale 640 480 1280 960 = 2
   /\ represents (w (integer_fit_rect 640 480 1280 960)) (inject_Z 1280)
   /\ represents (h (integer_fit_rect 640 480 1280 960)) (inject_Z 960)
   /\ represents (x (integer_fit_rect 640 480 1280 960)) (inject_Z 0)
   /\ represents (y (integer_fit_rect 640 480 1280 960)) (inject_Z 0))
  /\ (fit_scale 640 480 1000 1000 = 1
      /\ represents (w (integer_fit_rect 640 480 1000 1000)) (inject_Z 640)
      /\ represents (h (integer_fit_rect 640 480 1000 1000)) (inject_Z 480)
      /\ represents (x (integer_fit_rect 640 480 1000 1000)) (inject_Z 180)
      /\ represents (y (integer_fit_rect 640 480 1000 1000)) (inject_Z 260)).
Proof. repeat split; reflexivity. Qed.

(** *** Further properties of the fit rectangle *)

(** X7: the scale factor is at least 1.  When the source fits the
    destination it is the largest whole factor at which the scaled
    source still fits, both ways; when the destination is smaller than
    the source in either direction (a window of size 0 included) it
    is 1. *)
Theorem fit_scale_largest src_w src_h dst_w dst_h :
  0 < src_w -> 0 < src_h -> 0 <= dst_w <= INT_MAX -> 0 <= dst_h <= INT_MAX ->
  1 <= fit_scale src_w src_h dst_w dst_h
  /\ (src_w <= dst_w -> src_h <= dst_h ->
      src_w * fit_scale src_w src_h dst_w dst_h <= dst_w
      /\ src_h * fit_scale src_w src_h dst_w dst_h <= dst_h
      /\ (dst_w < src_w * (fit_scale src_w src_h dst_w dst_h + 1)
          \/ dst_h < src_h * (fit_scale src_w src_h dst_w dst_h + 1)))
  /\ (dst_w < src_w \/ dst_h < src_h -> fit_scale src_w src_h dst_w dst_h = 1).
Proof.
  intros Hsw Hsh Hdw Hdh.
  rewrite (fit_scale_max_min src_w src_h dst_w dst_h) by lia.
  pose proof (Z.mul_div_le dst_w src_w Hsw) as Hw1.
  pose proof (Z.mul_succ_div_gt dst_w src_w Hsw) as Hw2.
  pose proof (Z.mul_div_le dst_h src_h Hsh) as Hh1.
  pose proof (Z.mul_succ_div_gt dst_h src_h Hsh) as Hh2.
  pose proof (Z.div_pos dst_w src_w ltac:(lia) Hsw) as Hw0.
  pose proof (Z.div_pos dst_h src_h ltac:(lia) Hsh) as Hh0.
  revert Hw0 Hw1 Hw2 Hh0 Hh1 Hh2.
  generalize (dst_w / src_w) (dst_h / src_h). intros qw qh Hw0 Hw1 Hw2 Hh0 Hh1 Hh2.
  split; [lia|]. split.
  - intros Hfw Hfh.
    assert (1 <= qw) by nia. assert (1 <= qh) by nia.
    rewrite Z.max_r by lia.
    destruct (Z.le_ge_cases qw qh) as [Hle|Hge].
    + rewrite Z.min_l by lia. split; [lia|]. split; [nia | left; lia].
    + rewrite Z.min_r by lia. split; [nia|]. split; [lia | right; lia].
  - intros [Hlt|Hlt].
    + assert (qw = 0) by nia. lia.
    + assert (qh = 0) by nia. lia.
Qed.

Lemma fit_scale_largest_witness :
  1 <= fit_scale 640 480 1920 1080
  /\ (640 <= 1920 -> 480 <= 1080 ->
      640 * fit_scale 640 480 1920 1080 <= 1920
      /\ 480 * fit_scale 640 480 1920 1080 <= 1080
      /\ (1920 < 640 * (fit_scale 640 480 1920 1080 + 1)
          \/ 1080 < 480 * (fit_scale 640 480 1920 1080 + 1)))
  /\ (1920 < 640 \/ 1080 < 480 -> fit_scale 640 480 1920 1080 = 1).
Proof.
  apply (fit_scale_largest 640 480 1920 1080); unfold INT_MAX; lia.
Defined.

(** The four floats of the rectangle, for sizes a float holds exactly;
    the destination may be empty. *)
Lemma integer_fit_rect_values src_w src_h dst_w dst_h k :
  0 < src_w <= 2 ^ 24 -> 0 < src_h <= 2 ^ 24 ->
  0 <= dst_w <= 2 ^ 24 -> 0 <= dst_h <= 2 ^ 24 ->
  k = fit_scale src_w src_h dst_w dst_h ->
  1 <= k /\ src_w * k <= Z.max src_w dst_w /\ src_h * k <= Z.max src_h dst_h
  /\ represents (w (integer_fit_rect src_w src_h dst_w dst_h)) (inject_Z (src_w * k))
  /\ represents (h (integer_fit_rect src_w src_h dst_w dst_h)) (inject_Z (src_h * k))
  /\ represents (x (integer_fit_rect src_w src_h dst_w dst_h))
       ((dst_w - src_w * k) # 2)
  /\ represents (y (integer_fit_rect src_w src_h dst_w dst_h))
       ((dst_h - src_h * k) # 2).
Proof.
  intros Hsw Hsh Hdw Hdh Hk.
  pose proof (fit_scale_max_min src_w src_h dst_w dst_h) as Hs.
  unfold INT_MAX in Hs. specialize (Hs ltac:(lia) ltac:(lia) ltac:(lia) ltac:(lia)).
  unfold integer_fit_rect. cbn [x y w h]. rewrite <- Hk. rewrite <- Hk in Hs.
  clear Hk.
  pose proof (Z.div_pos dst_w src_w ltac:(lia) ltac:(lia)).
  pose proof (Z.div_pos dst_h src_h ltac:(lia) ltac:(lia)).
  assert (Hk1 : 1 <= k) by lia.
  pose proof (scaled_le src_w dst_w k ltac:(lia) ltac:(lia) Hk1 ltac:(lia)) as Hkw.
  pose proof (scaled_le src_h dst_h k ltac:(lia) ltac:(lia) Hk1 ltac:(lia)) as Hkh.
  assert (0 < src_w * k) by nia. assert (0 < src_h * k) by nia.
  assert (Mw : int_mul src_w k = src_w * k)
    by (apply wrap_int_id; unfold in_int, INT_MIN, INT_MAX; lia).
  assert (Mh : int_mul src_h k = src_h * k)
    by (apply wrap_int_id; unfold in_int, INT_MIN, INT_MAX; lia).
  rewrite Mw, Mh.
  destruct (float_of_int_exact (src_w * k)) as (Rw & Iw & _); [lia|].
  destruct (float_of_int_exact (src_h * k)) as (Rh & Ih & _); [lia|].
  rewrite Iw, Ih.
  assert (Sw : int_sub dst_w (src_w * k) = dst_w - src_w * k)
    by (apply wrap_int_id; unfold in_int, INT_MIN, INT_MAX; lia).
  assert (Sh : int_sub dst_h (src_h * k) = dst_h - src_h * k)
    by (apply wrap_int_id; unfold in_int, INT_MIN, INT_MAX; lia).
  rewrite Sw, Sh.
  destruct (float_of_int_exact (dst_w - src_w * k)) as (_ & _ & Rx); [lia|].
  destruct (float_of_int_exact (dst_h - src_h * k)) as (_ & _ & Ry); [lia|].
  done.
Qed.

(** X8: when the source fits the destination (sizes up to 2^24), the
    rectangle lies inside the destination with equal margins left and
    right and equal margins above and below, none negative, and it has
    the aspect ratio of the source. *)
Theorem integer_fit_rect_inside src_w src_h dst_w dst_h :
  0 < src_w <= 2 ^ 24 -> 0 < src_h <= 2 ^ 24 ->
  src_w <= dst_w <= 2 ^ 24 -> src_h <= dst_h <= 2 ^ 24 ->
  exists qx qy qw qh : Q,
    represents (x (integer_fit_rect src_w src_h dst_w dst_h)) qx
    /\ represents (y (integer_fit_rect src_w src_h dst_w dst_h)) qy
    /\ represents (w (integer_fit_rect src_w src_h dst_w dst_h)) qw
    /\ represents (h (integer_fit_rect src_w src_h dst_w dst_h)) qh
    /\ (0 <= qx /\ 0 <= qy)%Q
    /\ (qx + qw + qx == inject_Z dst_w)%Q
    /\ (qy + qh + qy == inject_Z dst_h)%Q
    /\ (qw * inject_Z src_h == qh * inject_Z src_w)%Q.
Proof.
  intros Hsw Hsh Hdw Hdh.
  destruct (integer_fit_rect_values src_w src_h dst_w dst_h _
              ltac:(lia) ltac:(lia) ltac:(lia) ltac:(lia) eq_refl)
    as (Hk & Hkw & Hkh & Rw & Rh & Rx & Ry).
  revert Hk Hkw Hkh Rw Rh Rx Ry.
  generalize (fit_scale src_w src_h dst_w dst_h). intros k Hk Hkw Hkh Rw Rh Rx Ry.
  eexists _, _, _, _. repeat (split; [eassumption|]).
  unfold Qle, Qeq, Qplus, Qmult, inject_Z. cbn [Qnum Qden].
  repeat split; try lia; nia.
Qed.

Lemma integer_fit_rect_inside_witness :
  exists qx qy qw qh : Q,
    represents (x (integer_fit_rect 640 480 1920 1080)) qx
    /\ represents (y (integer_fit_rect 640 480 1920 1080)) qy
    /\ represents (w (integer_fit_rect 640 480 1920 1080)) qw
    /\ represents (h (integer_fit_rect 640 480 1920 1080)) qh
    /\ (0 <= qx /\ 0 <= qy)%Q
    /\ (qx + qw + qx == inject_Z 1920)%Q
    /\ (qy + qh + qy == inject_Z 1080)%Q
    /\ (qw * inject_Z 480 == qh * inject_Z 640)%Q.
Proof.
  apply (integer_fit_rect_inside 640 480 1920 1080); lia.
Defined.

(** X9: when the destination is smaller than the source in either
    direction (down to an empty one), nothing is scaled down: the
    rectangle has the size of the source and is centered, so it sticks
    out of the destination by the same amount on both sides. *)
Theorem integer_fit_rect_too_small src_w src_h dst_w dst_h :
  0 < src_w <= 2 ^ 24 -> 0 < src_h <= 2 ^ 24 ->
  0 <= dst_w <= 2 ^ 24 -> 0 <= dst_h <= 2 ^ 24 ->
  dst_w < src_w \/ dst_h < src_h ->
  represents (w (integer_fit_rect src_w src_h dst_w dst_h)) (inject_Z src_w)
  /\ represents (h (integer_fit_rect src_w src_h dst_w dst_h)) (inject_Z src_h)
  /\ represents (x (integer_fit_rect src_w src_h dst_w dst_h)) ((dst_w - src_w) # 2)
  /\ represents (y (integer_fit_rect src_w src_h dst_w dst_h)) ((dst_h - src_h) # 2).
Proof.
  intros Hsw Hsh Hdw Hdh Hsmall.
  destruct (integer_fit_rect_values src_w src_h dst_w dst_h _
              Hsw Hsh Hdw Hdh eq_refl)
    as (_ & _ & _ & Rw & Rh & Rx & Ry).
  assert (Hk : fit_scale src_w src_h dst_w dst_h = 1).
  { rewrite fit_scale_max_min by (unfold INT_MAX; lia).
    destruct Hsmall as [Hlt|Hlt].
    - rewrite (Z.div_small dst_w src_w) by lia.
      pose proof (Z.div_pos dst_h src_h ltac:(lia) ltac:(lia)). lia.
    - rewrite (Z.div_small dst_h src_h) by lia.
      pose proof (Z.div_pos dst_w src_w ltac:(lia) ltac:(lia)). lia. }
  rewrite Hk, !Z.mul_1_r in *. done.
Qed.

Lemma integer_fit_rect_too_small_witness :
  represents (w (integer_fit_rect 640 480 0 0)) (inject_Z 640)
  /\ represents (h (integer_fit_rect 640 480 0 0)) (inject_Z 480)
  /\ represents (x (integer_fit_rect 640 480 0 0)) ((0 - 640) # 2)
  /\ represents (y (integer_fit_rect 640 480 0 0)) ((0 - 480) # 2).
Proof.
  apply (integer_fit_rect_too_small 640 480 0 0); lia.
Defined.

End FitRect.

(** ** Audio device boundary: [pick_recording_device]

    C strings are modelled by the characters before the terminating
    NUL; a NULL pointer is [None]. *)
Module Select.

Local Open Scope string_scope.
Local Open Scope list_scope.
Local Open Scope Z_scope.

Definition SDL_AudioDeviceID : Type := Z.
(** Constants of SDL3's [SDL_audio.h]. *)
Definition SDL_AUDIO_DEVICE_DEFAULT_PLAYBACK : SDL_AudioDeviceID := 4294967295.
Definition SDL_AUDIO_DEVICE_DEFAULT_RECORDING : SDL_AudioDeviceID := 4294967294.

Definition LONG_MIN : Z := - 2 ^ 63.
Definition LONG_MAX : Z := 2 ^ 63 - 1.

(** *** The C library functions the code calls *)

Definition code (c : ascii) : Z := Z.of_N (N_of_ascii c).

Definition isspace (c : ascii) : bool :=
  (code c =? 32) || ((9 <=? code c) && (code c <=? 13)).

Definition isdigit (c : ascii) : bool := (48 <=? code c) && (code c <=? 57).

Fixpoint skip_spaces (s : string) : string :=
  match s with
  | String c r => if isspace c then skip_spaces r else s
  | EmptyString => s
  end.

(** The longest run of decimal digits at the head of [s], accumulated
    from [acc], and what follows it. *)
Fixpoint parse_digits (acc : Z) (s : string) : Z * string :=
  match s with
  | String c r => if isdigit c then parse_digits (10 * acc + (code c - 48)) r
                  else (acc, s)
  | EmptyString => (acc, s)
  end.

Definition clamp_long (v : Z) : Z := Z.max LONG_MIN (Z.min LONG_MAX v).

(** [strtol(nptr, &end, 10)]: the value and the string at [end].
    White space, an optional sign, then digits; without a digit nothing
    is consumed and [end] is [nptr]; out-of-range values saturate. *)
Definition strtol (nptr : string) : Z * string :=
  let s1 := skip_spaces nptr in
  let '(neg, s2) :=
    match s1 with
    | String c r =>
        if Ascii.eqb c "-" then (true, r)
        else if Ascii.eqb c "+" then (false, r)
        else (false, s1)
    | EmptyString => (false, s1)
    end in
  match s2 with
  | String c _ =>
      if isdigit c then
        let '(v, rest) := parse_digits 0 s2 in
        (clamp_long (if neg then - v else v), rest)
      else (0, nptr)
  | EmptyString => (0, nptr)
  end.

Fixpoint is_prefix (p s : string) : bool :=
  match p, s with
  | EmptyString, _ => true
  | String a p', String b s' => if Ascii.eqb a b then is_prefix p' s' else false
  | String _ _, EmptyString => false
  end.

(** [strstr(haystack, needle)]: the tail of [haystack] at the first
    occurrence of [needle], or NULL. *)
Fixpoint strstr (haystack needle : string) : option string :=
  if is_prefix needle haystack then Some haystack
  else match haystack with
       | String _ r => strstr r needle
       | EmptyString => None
       end.

(** *** Output *)

Inductive message : Type :=
| Listing (i : nat) (name : string)        (* stdout: recording[i]=name *)
| Selected (name : string) (id : SDL_AudioDeviceID)
                                           (* stdout: Selected recording device *)
| IndexUnavailable (idx : Z)               (* stderr: index unavailable, using default *)
| NotFound (selector : string).            (* stderr: not found, using default *)

Definition is_diagnostic (m : message) : bool :=
  match m with
  | IndexUnavailable _ | NotFound _ => true
  | _ => false
  end.

Definition diagnostics (out : list message) : list message :=
  List.filter is_diagnostic out.

Section Pick.

(** [SDL_GetAudioDeviceName]: the name of a device, or NULL. *)
Variable SDL_GetAudioDeviceName : SDL_AudioDeviceID -> option string.

Definition name_or_unknown (d : SDL_AudioDeviceID) : string :=
  match SDL_GetAudioDeviceName d with
  | Some name => name
  | None => "(unknown)"
  end.

(** The first loop: one line per enumerated device. *)
Definition list_devices (devices : option (list SDL_AudioDeviceID)) : list message :=
  match devices with
  | Some l => imap (fun i d => Listing i (name_or_unknown d)) l
  | None => []
  end.

(** The search loop: the first device with a name in which [strstr]
    finds the selector. *)
Fixpoint search (selector : string) (l : list SDL_AudioDeviceID)
  : option (SDL_AudioDeviceID * string) :=
  match l with
  | [] => None
  | d :: r =>
      match SDL_GetAudioDeviceName d with
      | Some name =>
          match strstr name selector with
          | Some _ => Some (d, name)
          | None => search selector r
          end
      | None => search selector r
      end
  end.

(** [static SDL_AudioDeviceID pick_recording_device(const char *selector)];
    [devices] is what [SDL_GetAudioRecordingDevices] returned and
    [count] the length of that array. *)
Definition pick_recording_device
    (devices : option (list SDL_AudioDeviceID)) (selector : option string)
  : SDL_AudioDeviceID * list message :=
  let out := list_devices devices in
  let chosen := SDL_AUDIO_DEVICE_DEFAULT_RECORDING in
  match selector with
  | Some (String c0 _ as sel) =>
      let '(idx, end_) := strtol sel in
      match end_ with
      | EmptyString =>
          match devices with
          | Some l =>
              if (0 <=? idx)%Z && (idx <? Z.of_nat (length l))%Z then
                (default chosen (l !! Z.to_nat idx), out)
              else (chosen, out ++ [IndexUnavailable idx])
          | None => (chosen, out ++ [IndexUnavailable idx])
          end
      | String _ _ =>
          match devices with
          | Some l =>
              match search sel l with
              | Some (d, name) => (d, out ++ [Selected name d])
              | None => (chosen, out ++ [NotFound sel])
              end
          | None => (chosen, out)
          end
      end
  | _ => (chosen, out)
  end.

(** [static SDL_AudioDeviceID pick_playback_device(int out_index)];
    sink listing lines are written as [Listing] too. *)
Definition pick_playback_device
    (devices : option (list SDL_AudioDeviceID)) (out_index : Z)
  : SDL_AudioDeviceID * list message :=
  let out := list_devices devices in
  let chosen := SDL_AUDIO_DEVICE_DEFAULT_PLAYBACK in
  if 0 <=? out_index then
    match devices with
    | Some l =>
        if out_index <? Z.of_nat (length l) then
          let chosen := default chosen (l !! Z.to_nat out_index) in
          (chosen, out ++ [Selected (name_or_unknown chosen) chosen])
        else (chosen, out ++ [IndexUnavailable out_index])
    | None => (chosen, out ++ [IndexUnavailable out_index])
    end
  else (chosen, out).

End Pick.

Definition names_demo (d : SDL_AudioDeviceID) : option string :=
  if (d =? 7)%Z then Some "HDA Intel PCH"
  else if (d =? 9)%Z then Some "USB3. 0 capture Stereo"
  else if (d =? 11)%Z then Some "USB Webcam capture"
  else None.

Example pick_by_index :
  pick_recording_device names_demo (Some [7; 8; 9; 11]%Z) (Some "2")
  = (9%Z, [Listing 0 "HDA Intel PCH"; Listing 1 "(unknown)";
           Listing 2 "USB3. 0 capture Stereo"; Listing 3 "USB Webcam capture"]).
Proof. reflexivity. Qed.

Example pick_by_name :
  pick_recording_device names_demo (Some [7; 8; 9; 11]%Z) (Some "capture")
  = (9%Z, [Listing 0 "HDA Intel PCH"; Listing 1 "(unknown)";
           Listing 2 "USB3. 0 capture Stereo"; Listing 3 "USB Webcam capture";
           Selected "USB3. 0 capture Stereo" 9%Z]).
Proof. reflexivity. Qed.

Example pick_case_sensitive :
  pick_recording_device names_demo (Some [7; 8; 9; 11]%Z) (Some "Capture")
  = (SDL_AUDIO_DEVICE_DEFAULT_RECORDING,
     [Listing 0 "HDA Intel PCH"; Listing 1 "(unknown)";
      Listing 2 "USB3. 0 capture Stereo"; Listing 3 "USB Webcam capture";
      NotFound "Capture"]).
Proof. reflexivity. Qed.

Example pick_out_of_range :
  diagnostics (snd (pick_recording_device names_demo (Some [7; 8; 9; 11]%Z) (Some "-1")))
  = [IndexUnavailable (-1)].
Proof. reflexivity. Qed.

Example strtol_examples :
  strtol "42" = (42%Z, "") /\ strtol "  +7" = (7%Z, "")
  /\ strtol "12abc" = (12%Z, "abc") /\ strtol "abc" = (0%Z, "abc")
  /\ strtol "-" = (0%Z, "-")
  /\ strtol "99999999999999999999" = (LONG_MAX, "").
Proof. repeat split; reflexivity. Qed.

(** *** What the claims call things *)

(** [sel] occurs in [name] as a substring (byte for byte, so case matters). *)
Definition contains (name sel : string) : Prop :=
  exists pre post, name = (pre ++ sel ++ post)%string.

(** The selector parses entirely as a number: [strtol] stops at the
    terminating NUL. *)
Definition parses_entirely (sel : string) : Prop := snd (strtol sel) = "".

Definition name_matches (names : SDL_AudioDeviceID -> option string)
    (sel : string) (d : SDL_AudioDeviceID) : Prop :=
  exists name, names d = Some name /\ contains name sel.

(** Device number [i] is the first one whose name contains [sel]. *)
Definition first_match (names : SDL_AudioDeviceID -> option string)
    (sel : string) (l : list SDL_AudioDeviceID) (i : nat) (d : SDL_AudioDeviceID) : Prop :=
  l !! i = Some d
  /\ name_matches names sel d
  /\ forall j d', (j < i)%nat -> l !! j = Some d' -> ~ name_matches names sel d'.

(** *** What [strtol] accepts as a whole *)

Fixpoint all_chars (P : ascii -> bool) (s : string) : bool :=
  match s with
  | String c r => P c && all_chars P r
  | EmptyString => true
  end.

Definition starts_without (P : ascii -> bool) (s : string) : Prop :=
  match s with
  | String c _ => P c = false
  | EmptyString => True
  end.

Lemma skip_spaces_split s :
  exists ws, s = (ws ++ skip_spaces s)%string
             /\ all_chars isspace ws = true
             /\ starts_without isspace (skip_spaces s).
Proof.
  induction s as [|c s (ws & E & Hws & Hst)]; cbn [skip_spaces].
  - by exists "".
  - destruct (isspace c) eqn:Ec.
    + exists (String c ws). split; [|split; [|done]].
      * change (String c s = String c (ws ++ skip_spaces s)%string). by rewrite <- E.
      * cbn [all_chars]. by rewrite Ec, Hws.
    + by exists "".
Qed.

Lemma skip_spaces_app ws t :
  all_chars isspace ws = true -> starts_without isspace t ->
  skip_spaces (ws ++ t)%string = t.
Proof.
  intros Hws Ht. induction ws as [|c ws IH].
  - change (skip_spaces t = t). destruct t as [|c t]; [done|].
    cbn in *. by rewrite Ht.
  - cbn [all_chars] in Hws. apply andb_prop in Hws as [Hc Hws].
    change (skip_spaces (String c (ws ++ t)%string) = t).
    cbn [skip_spaces]. rewrite Hc. by apply IH.
Qed.

Lemma parse_digits_split s :
  forall acc, exists ds,
    s = (ds ++ snd (parse_digits acc s))%string
    /\ all_chars isdigit ds = true.
Proof.
  induction s as [|c s IH]; intros acc; cbn [parse_digits].
  - by exists "".
  - destruct (isdigit c) eqn:Ec.
    + destruct (IH (10 * acc + (code c - 48))) as (ds & E & Hds).
      exists (String c ds). split.
      * change (String c s
                = String c (ds ++ snd (parse_digits (10 * acc + (code c - 48)) s))%string).
        by rewrite <- E.
      * cbn [all_chars]. by rewrite Ec, Hds.
    + by exists "".
Qed.

Lemma parse_digits_all ds :
  all_chars isdigit ds = true -> forall acc, snd (parse_digits acc ds) = "".
Proof.
  induction ds as [|c ds IH]; intros H acc; cbn [parse_digits]; [done|].
  cbn [all_chars] in H. apply andb_prop in H as [Hc Hds].
  rewrite Hc. by apply IH.
Qed.

Lemma app_empty_r (s : string) : (s ++ "")%string = s.
Proof.
  induction s as [|c s IH]; [done|].
  change (String c (s ++ "")%string = String c s). by rewrite IH.
Qed.

Lemma isdigit_not_sign c :
  isdigit c = true ->
  isspace c = false /\ Ascii.eqb c "-" = false /\ Ascii.eqb c "+" = false.
Proof.
  unfold isdigit, isspace, code. intros H.
  apply andb_prop in H as [H1 H2].
  repeat split.
  - destruct (_ =? 32) eqn:E1; [lia|]. cbn [orb].
    destruct (9 <=? _) eqn:E2; [|done]. cbn [andb].
    destruct (_ <=? 13) eqn:E3; [lia|done].
  - apply Ascii.eqb_neq. intros ->. vm_compute in H1. discriminate.
  - apply Ascii.eqb_neq. intros ->. vm_compute in H1. discriminate.
Qed.

(** A non-empty selector parses entirely as a number exactly when it
    is white space, an optional sign and at least one decimal digit,
    with nothing after the digits. *)
Lemma parses_entirely_iff sel :
  sel <> "" ->
  parses_entirely sel <->
  exists ws sign ds,
    sel = (ws ++ sign ++ ds)%string
    /\ all_chars isspace ws = true
    /\ (sign = "" \/ sign = "+" \/ sign = "-")
    /\ ds <> "" /\ all_chars isdigit ds = true.
Proof.
  intros Hne. unfold parses_entirely, strtol. split.
  - destruct (skip_spaces_split sel) as (ws & E & Hws & Hst).
    destruct (skip_spaces sel) as [|c r] eqn:Es; [done|].
    assert (Hdigits : forall s2,
              snd (match s2 with
                   | String c2 _ =>
                       if isdigit c2
                       then let '(v, rest) := parse_digits 0 s2 in
                            (clamp_long v, rest)
                       else (0, sel)
                   | EmptyString => (0, sel)
                   end) = "" ->
              s2 <> "" /\ all_chars isdigit s2 = true).
    { intros s2 H. destruct s2 as [|c2 r2]; [done|].
      destruct (isdigit c2) eqn:Ed; [|done].
      destruct (parse_digits_split (String c2 r2) 0) as (ds & E2 & Hds).
      destruct (parse_digits 0 (String c2 r2)) as [v rest]. cbn [snd] in *.
      subst rest. rewrite app_empty_r in E2. split; [done | by rewrite E2]. }
    destruct (Ascii.eqb c "-") eqn:E1.
    { apply Ascii.eqb_eq in E1. subst c. intros H.
      assert (Hd : r <> "" /\ all_chars isdigit r = true).
      { apply Hdigits. destruct r as [|c2 r2]; [done|].
        destruct (isdigit c2); [|done].
        destruct (parse_digits 0 (String c2 r2)). done. }
      exists ws, "-", r. split; [exact E|]. split; [done|].
      split; [by right; right | exact Hd]. }
    destruct (Ascii.eqb c "+") eqn:E2.
    { apply Ascii.eqb_eq in E2. subst c. intros H.
      assert (Hd : r <> "" /\ all_chars isdigit r = true).
      { apply Hdigits. destruct r as [|c2 r2]; [done|].
        destruct (isdigit c2); [|done].
        destruct (parse_digits 0 (String c2 r2)). done. }
      exists ws, "+", r. split; [exact E|]. split; [done|].
      split; [by right; left | exact Hd]. }
    intros H.
    assert (Hd : String c r <> "" /\ all_chars isdigit (String c r) = true).
    { apply Hdigits. destruct (isdigit c); [|done].
      destruct (parse_digits 0 (String c r)). done. }
    exists ws, "", (String c r). split; [exact E|]. split; [done|].
    split; [by left | exact Hd].
  - intros (ws & sign & ds & -> & Hws & Hsign & Hds & Hall).
    destruct ds as [|d ds]; [done|].
    pose proof Hall as Hall'. cbn [all_chars] in Hall'.
    apply andb_prop in Hall' as [Hd _].
    destruct (isdigit_not_sign d Hd) as (Hsp & Hm & Hp).
    pose proof (parse_digits_all (String d ds) Hall 0) as Hrest.
    destruct Hsign as [-> | [-> | ->]].
    + rewrite skip_spaces_app by done.
      change ("" ++ String d ds)%string with (String d ds).
      cbv beta iota. rewrite Hm, Hp. cbv beta iota. rewrite Hd.
      destruct (parse_digits 0 (String d ds)). done.
    + rewrite skip_spaces_app by done.
      change ("+" ++ String d ds)%string with (String "+" (String d ds)).
      cbv beta iota. change (Ascii.eqb "+" "-") with false.
      change (Ascii.eqb "+" "+") with true. cbv beta iota. rewrite Hd.
      destruct (parse_digits 0 (String d ds)). done.
    + rewrite skip_spaces_app by done.
      change ("-" ++ String d ds)%string with (String "-" (String d ds)).
      cbv beta iota. change (Ascii.eqb "-" "-") with true.
      cbv beta iota. rewrite Hd.
      destruct (parse_digits 0 (String d ds)). done.
Qed.

Lemma is_prefix_iff p s :
  is_prefix p s = true <-> exists post, s = (p ++ post)%string.
Proof.
  revert s. induction p as [|a p IH]; intros s; cbn [is_prefix].
  - split; [intros _; by exists s | done].
  - destruct s as [|b s].
    + split; [done|]. intros [post H].
      change ("" = String a (p ++ post)%string) in H. discriminate.
    + destruct (Ascii.eqb a b) eqn:E.
      * apply Ascii.eqb_eq in E. subst b. rewrite IH.
        split; intros [post H]; exists post.
        -- rewrite H. reflexivity.
        -- change (String a s = String a (p ++ post)%string) in H. congruence.
      * apply Ascii.eqb_neq in E.
        split; [done|]. intros [post H].
        change (String b s = String a (p ++ post)%string) in H. congruence.
Qed.

Lemma strstr_contains hay needle :
  is_Some (strstr hay needle) <-> contains hay needle.
Proof.
  induction hay as [|a hay IH]; cbn [strstr].
  - destruct (is_prefix needle "") eqn:E.
    + split; [|by eexists]. intros _.
      apply is_prefix_iff in E as [post E]. by exists "", post.
    + split; [intros [? ?]; done|].
      intros (pre & post & H). destruct pre as [|b pre].
      * change ("" = (needle ++ post)%string) in H.
        assert (is_prefix needle "" = true) by (apply is_prefix_iff; by exists post).
        congruence.
      * change ("" = String b (pre ++ needle ++ post)%string) in H. discriminate.
  - destruct (is_prefix needle (String a hay)) eqn:E.
    + split; [|by eexists]. intros _.
      apply is_prefix_iff in E as [post E]. by exists "", post.
    + rewrite IH. split.
      * intros (pre & post & H). exists (String a pre), post.
        rewrite H. reflexivity.
      * intros (pre & post & H). destruct pre as [|b pre].
        -- change (String a hay = (needle ++ post)%string) in H.
           assert (is_prefix needle (String a hay) = true)
             by (apply is_prefix_iff; by exists post).
           congruence.
        -- change (String a hay = String b (pre ++ needle ++ post)%string) in H.
           exists pre, post. congruence.
Qed.

Lemma strstr_None hay needle :
  strstr hay needle = None <-> ~ contains hay needle.
Proof.
  rewrite <- strstr_contains. destruct (strstr hay needle) as [t|].
  - split; [done|]. intros H. exfalso. apply H. by exists t.
  - split; [|done]. intros _ [t Ht]. discriminate.
Qed.

Section PickFacts.

Variable names : SDL_AudioDeviceID -> option string.

Lemma search_Some sel l d name :
  search names sel l = Some (d, name) ->
  names d = Some name /\ exists i, first_match names sel l i d.
Proof.
  induction l as [|d0 l IH]; cbn [search]; [done|].
  destruct (names d0) as [n0|] eqn:En.
  - destruct (strstr n0 sel) as [t|] eqn:Es.
    + intros [= <- <-]. split; [done|]. exists 0%nat. repeat split.
      * exists n0. split; [done|]. apply strstr_contains. by rewrite Es.
      * intros j d' Hj. lia.
    + intros H. destruct (IH H) as (Hn & i & Hi & Hm & Hfirst).
      split; [done|]. exists (S i). repeat split; [done|done|].
      intros [|j] d' Hj Hd'; cbn in Hd'.
      * injection Hd' as <-. intros (n' & Hn' & Hc).
        rewrite En in Hn'. injection Hn' as <-.
        by apply strstr_None in Es.
      * apply (Hfirst j); [lia | done].
  - intros H. destruct (IH H) as (Hn & i & Hi & Hm & Hfirst).
    split; [done|]. exists (S i). repeat split; [done|done|].
    intros [|j] d' Hj Hd'; cbn in Hd'.
    + injection Hd' as <-. intros (n' & Hn' & _). congruence.
    + apply (Hfirst j); [lia | done].
Qed.

Lemma search_None sel l :
  search names sel l = None <-> forall d, d ∈ l -> ~ name_matches names sel d.
Proof.
  induction l as [|d0 l IH]; cbn [search].
  - split; [|done]. intros _ d Hd. by apply not_elem_of_nil in Hd.
  - split.
    + intros H d Hd. apply elem_of_cons in Hd as [->|Hd].
      * intros (n & Hn & Hc). rewrite Hn in H.
        apply strstr_contains in Hc as [t Ht]. by rewrite Ht in H.
      * destruct (names d0) as [n0|]; [destruct (strstr n0 sel)|];
          try done; by apply IH.
    + intros H.
      assert (Hl : search names sel l = None).
      { apply IH. intros d Hd. apply H. by apply list_elem_of_further. }
      destruct (names d0) as [n0|] eqn:En; [|done].
      destruct (strstr n0 sel) as [t|] eqn:Es; [|done].
      exfalso. apply (H d0); [apply list_elem_of_here|].
      exists n0. split; [done|]. apply strstr_contains. by rewrite Es.
Qed.

Lemma first_match_unique sel l i d i' d' :
  first_match names sel l i d -> first_match names sel l i' d' -> d = d'.
Proof.
  intros (Hi & Hm & Hf) (Hi' & Hm' & Hf').
  destruct (Nat.lt_trichotomy i i') as [H|[H|H]].
  - exfalso. by apply (Hf' i d).
  - subst i'. congruence.
  - exfalso. by apply (Hf i' d').
Qed.

Lemma diagnostics_imap (f : nat -> SDL_AudioDeviceID -> message) l :
  (forall i d, is_diagnostic (f i d) = false) -> diagnostics (imap f l) = [].
Proof.
  revert f. induction l as [|d l IH]; intros f Hf; [done|].
  cbn [imap]. unfold diagnostics in *. cbn [List.filter]. rewrite Hf.
  apply IH. intros i d'. apply Hf.
Qed.

Lemma diagnostics_list_devices devices :
  diagnostics (list_devices names devices) = [].
Proof.
  destruct devices as [l|]; [|done]. cbn [list_devices].
  by apply diagnostics_imap.
Qed.

Lemma diagnostics_app out1 out2 :
  diagnostics (out1 ++ out2) = diagnostics out1 ++ diagnostics out2.
Proof. apply List.filter_app. Qed.

(** C9 as stated fails on the empty selector: it is guarded out before
    any parsing, so the default device is returned without a
    diagnostic, although index 0 is in bounds and every name contains
    the empty string. *)
Lemma pick_recording_device_empty_selector :
  pick_recording_device names_demo (Some [7; 9]) (Some "")
  = (SDL_AUDIO_DEVICE_DEFAULT_RECORDING,
     [Listing 0 "HDA Intel PCH"; Listing 1 "USB3. 0 capture Stereo"])
  /\ strtol "" = (0, "")
  /\ [7; 9] !! Z.to_nat 0 = Some 7
  /\ first_match names_demo "" [7; 9] 0 7
  /\ 7 <> SDL_AUDIO_DEVICE_DEFAULT_RECORDING.
Proof.
  split; [reflexivity|]. split; [reflexivity|]. split; [reflexivity|].
  split; [|done].
  split; [reflexivity|]. split.
  - exists "HDA Intel PCH". split; [reflexivity|].
    by exists "", "HDA Intel PCH".
  - intros j d' Hj. lia.
Qed.

(** C9, amended: for every non-empty selector and every enumerated
    device list: if the selector parses entirely as a number, the
    device at that index is chosen when the index is within bounds,
    and otherwise the default with a diagnostic; if it does not, the
    first device whose name contains the selector (case-sensitively)
    is chosen, and when no name contains it, the default with a
    diagnostic.  (An empty selector gives the default without a
    diagnostic.) *)
Theorem pick_recording_device_resolves (devs : list SDL_AudioDeviceID) (sel : string) :
  sel <> "" ->
  let chosen := fst (pick_recording_device names (Some devs) (Some sel)) in
  let diags := diagnostics (snd (pick_recording_device names (Some devs) (Some sel))) in
  let idx := fst (strtol sel) in
  (parses_entirely sel ->
     (forall d, 0 <= idx -> devs !! Z.to_nat idx = Some d ->
        chosen = d /\ diags = [])
     /\ (~ (0 <= idx < Z.of_nat (length devs)) ->
        chosen = SDL_AUDIO_DEVICE_DEFAULT_RECORDING
        /\ diags = [IndexUnavailable idx]))
  /\ (~ parses_entirely sel ->
     (forall i d, first_match names sel devs i d -> chosen = d /\ diags = [])
     /\ ((forall d, d ∈ devs -> ~ name_matches names sel d) ->
        chosen = SDL_AUDIO_DEVICE_DEFAULT_RECORDING
        /\ diags = [NotFound sel])).
Proof.
  intros Hne. destruct sel as [|c0 sel0]; [done|].
  unfold parses_entirely. cbv zeta.
  unfold pick_recording_device.
  pose proof (diagnostics_list_devices (Some devs)) as Hdl.
  destruct (strtol (String c0 sel0)) as [idx rest] eqn:Est. cbn [fst snd].
  split.
  - intros ->. split.
    + intros d Hidx Hd.
      assert (Hlt : (Z.to_nat idx < length devs)%nat)
        by (apply lookup_lt_is_Some; by exists d).
      destruct (0 <=? idx) eqn:E1; [|lia].
      destruct (idx <? Z.of_nat (length devs)) eqn:E2; [|lia].
      cbn [andb fst snd]. rewrite Hd. done.
    + intros Hout.
      destruct ((0 <=? idx) && (idx <? Z.of_nat (length devs))) eqn:E.
      * apply andb_prop in E as [E1 E2]. lia.
      * cbn [fst snd]. rewrite diagnostics_app, Hdl. done.
  - intros Hrest. destruct rest as [|r0 rest]; [done|]. split.
    + intros i d Hfirst.
      destruct (search names (String c0 sel0) devs) as [[d' name]|] eqn:Es.
      * apply search_Some in Es as (_ & i' & Hfirst').
        cbn [fst snd]. rewrite diagnostics_app, Hdl.
        split; [|done]. by eapply first_match_unique.
      * exfalso. destruct Hfirst as (Hi & Hm & _).
        rewrite search_None in Es. apply (Es d); [|done].
        apply list_elem_of_lookup. by exists i.
    + intros Hnone. apply search_None in Hnone. rewrite Hnone.
      cbn [fst snd]. rewrite diagnostics_app, Hdl. done.
Qed.

End PickFacts.

Lemma pick_recording_device_resolves_witness :
  let chosen :=
    fst (pick_recording_device names_demo (Some [7; 8; 9; 11]) (Some "capture")) in
  let diags :=
    diagnostics (snd (pick_recording_device names_demo (Some [7; 8; 9; 11])
                        (Some "capture"))) in
  let idx := fst (strtol "capture") in
  (parses_entirely "capture" ->
     (forall d, 0 <= idx -> [7; 8; 9; 11] !! Z.to_nat idx = Some d ->
        chosen = d /\ diags = [])
     /\ (~ (0 <= idx < Z.of_nat (length [7; 8; 9; 11])) ->
        chosen = SDL_AUDIO_DEVICE_DEFAULT_RECORDING
        /\ diags = [IndexUnavailable idx]))
  /\ (~ parses_entirely "capture" ->
     (forall i d, first_match names_demo "capture" [7; 8; 9; 11] i d ->
        chosen = d /\ diags = [])
     /\ ((forall d, d ∈ [7; 8; 9; 11] -> ~ name_matches names_demo "capture" d) ->
        chosen = SDL_AUDIO_DEVICE_DEFAULT_RECORDING
        /\ diags = [NotFound "capture"])).
Proof.
  apply (pick_recording_device_resolves names_demo [7; 8; 9; 11] "capture").
  discriminate.
Defined.

(** *** Further properties of device selection *)

Section PickMore.

Variable names : SDL_AudioDeviceID -> option string.

(** X10: the sink is chosen by index only.  A negative index gives the
    default sink and prints nothing but the listing; an index within
    the enumerated list gives that device without a diagnostic; an
    index past the end, or any index from 0 on when enumeration
    failed, gives the default sink with a diagnostic. *)
Theorem pick_playback_device_resolves
    (devices : option (list SDL_AudioDeviceID)) (out_index : Z) :
  (out_index < 0 ->
     pick_playback_device names devices out_index
     = (SDL_AUDIO_DEVICE_DEFAULT_PLAYBACK, list_devices names devices))
  /\ (forall l d, devices = Some l -> 0 <= out_index ->
        l !! Z.to_nat out_index = Some d ->
        fst (pick_playback_device names devices out_index) = d
        /\ diagnostics (snd (pick_playback_device names devices out_index)) = [])
  /\ (0 <= out_index ->
      devices = None \/ (exists l, devices = Some l /\ Z.of_nat (length l) <= out_index) ->
      fst (pick_playback_device names devices out_index)
      = SDL_AUDIO_DEVICE_DEFAULT_PLAYBACK
      /\ diagnostics (snd (pick_playback_device names devices out_index))
         = [IndexUnavailable out_index]).
Proof.
  pose proof (diagnostics_list_devices names devices) as Hdl.
  unfold pick_playback_device. split; [|split].
  - intros Hneg. destruct (0 <=? out_index) eqn:E; [lia | done].
  - intros l d -> Hge Hd. destruct (0 <=? out_index) eqn:E; [|lia].
    assert (Hlt : (Z.to_nat out_index < length l)%nat)
      by (apply lookup_lt_is_Some; by exists d).
    destruct (out_index <? Z.of_nat (length l)) eqn:E2; [|lia].
    cbn [fst snd]. rewrite Hd, diagnostics_app, Hdl. done.
  - intros Hge Hdev. destruct (0 <=? out_index) eqn:E; [|lia].
    destruct Hdev as [-> | (l & -> & Hlen)].
    + cbn [fst snd]. rewrite diagnostics_app, Hdl. done.
    + destruct (out_index <? Z.of_nat (length l)) eqn:E2; [lia|].
      cbn [fst snd]. rewrite diagnostics_app, Hdl. done.
Qed.

(** X11: the capture device returned is the default device or one of
    the enumerated devices, never another identifier; without an
    enumerated device it is the default. *)
Theorem pick_recording_device_in_list
    (devices : option (list SDL_AudioDeviceID)) (selector : option string) :
  fst (pick_recording_device names devices selector)
  = SDL_AUDIO_DEVICE_DEFAULT_RECORDING
  \/ exists l, devices = Some l
               /\ fst (pick_recording_device names devices selector) ∈ l.
Proof.
  unfold pick_recording_device.
  destruct selector as [[|c0 sel0]|]; [by left| |by left].
  destruct (strtol (String c0 sel0)) as [idx [|r0 rest]].
  - destruct devices as [l|]; [|by left].
    destruct ((0 <=? idx) && (idx <? Z.of_nat (length l))) eqn:E; [|by left].
    cbn [fst]. destruct (l !! Z.to_nat idx) as [d|] eqn:Hd; [|by left].
    right. exists l. split; [done|]. cbn [default].
    apply list_elem_of_lookup. by exists (Z.to_nat idx).
  - destruct devices as [l|]; [|by left].
    destruct (search names (String c0 sel0) l) as [[d name]|] eqn:Es; [|by left].
    right. exists l. split; [done|]. cbn [fst].
    apply search_Some in Es as (_ & i & Hi & _).
    apply list_elem_of_lookup. by exists i.
Qed.

(** X12: the cases in which the default capture device is returned
    without any diagnostic: a NULL or empty selector (only the device
    listing is printed), and a selector that is not a number when the
    enumeration failed (nothing is printed at all). *)
Theorem pick_recording_device_silent_default :
  (forall devices,
     pick_recording_device names devices None
     = (SDL_AUDIO_DEVICE_DEFAULT_RECORDING, list_devices names devices)
     /\ pick_recording_device names devices (Some "")
        = (SDL_AUDIO_DEVICE_DEFAULT_RECORDING, list_devices names devices))
  /\ (forall sel,
        ~ parses_entirely sel ->
        pick_recording_device names None (Some sel)
        = (SDL_AUDIO_DEVICE_DEFAULT_RECORDING, [])).
Proof.
  split; [by intros devices|].
  intros sel Hnum. unfold pick_recording_device, parses_entirely in *.
  destruct sel as [|c0 sel0]; [done|].
  destruct (strtol (String c0 sel0)) as [idx [|r0 rest]]; [by cbn in Hnum|done].
Qed.

End PickMore.

Lemma pick_playback_device_resolves_witness :
  fst (pick_playback_device names_demo (Some [7; 9; 11]) 1) = 9
  /\ diagnostics (snd (pick_playback_device names_demo (Some [7; 9; 11]) 1)) = [].
Proof.
  apply (proj1 (proj2 (pick_playback_device_resolves names_demo (Some [7; 9; 11]) 1))
           [7; 9; 11] 9); [reflexivity | lia | reflexivity].
Defined.

Lemma pick_recording_device_silent_default_witness :
  pick_recording_device names_demo None (Some "capture")
  = (SDL_AUDIO_DEVICE_DEFAULT_RECORDING, []).
Proof.
  apply (proj2 (pick_recording_device_silent_default names_demo) "capture").
  unfold parses_entirely. discriminate.
Defined.

(** X13: a selector that parses entirely as a number is never looked
    up by name: the device chosen is the same whatever the devices are
    called, also when a device name contains the selector. *)
Theorem pick_recording_device_number_first
    (names1 names2 : SDL_AudioDeviceID -> option string)
    (devices : option (list SDL_AudioDeviceID)) (sel : string) :
  parses_entirely sel ->
  fst (pick_recording_device names1 devices (Some sel))
  = fst (pick_recording_device names2 devices (Some sel)).
Proof.
  unfold parses_entirely, pick_recording_device. intros Hnum.
  destruct sel as [|c0 sel0]; [done|].
  destruct (strtol (String c0 sel0)) as [idx rest]. cbn [snd] in Hnum. subst rest.
  destruct devices as [l|]; [|done].
  by destruct ((0 <=? idx) && (idx <? Z.of_nat (length l))).
Qed.

Lemma pick_recording_device_number_first_witness :
  fst (pick_recording_device names_demo (Some [7; 9; 11]) (Some "0"))
  = fst (pick_recording_device (fun _ => Some "Mic 0") (Some [7; 9; 11]) (Some "0")).
Proof.
  apply (pick_recording_device_number_first names_demo (fun _ => Some "Mic 0")
           (Some [7; 9; 11]) "0").
  reflexivity.
Defined.

End Select.

(** ** The two workers and their shared stop flag *)
Module Lifecycle.

Local Open Scope string_scope.
Local Open Scope list_scope.
Local Open Scope Z_scope.

(** The shared state: [int running] of [main], reached through
    [args->running] by both workers, and the global [g_stop]. *)
Record flags : Type := { running : Z; g_stop : Z }.

(** The loop test of both workers: [*args->running && !g_stop]. *)
Definition run_state (fl : flags) : bool :=
  negb (running fl =? 0) && (g_stop fl =? 0).

Inductive store : Type :=
| SetRunning (v : Z)      (* running = v, *args->running = v *)
| SetGStop (v : Z).       (* g_stop = v *)

Definition apply_store (s : store) (fl : flags) : flags :=
  match s with
  | SetRunning v => {| running := v; g_stop := g_stop fl |}
  | SetGStop v => {| running := running fl; g_stop := v |}
  end.

Definition apply_stores (l : list store) (fl : flags) : flags :=
  fold_left (fun fl s => apply_store s fl) l fl.

Inductive sdl_event : Type :=
| SDL_EVENT_QUIT
| SDL_EVENT_KEY_DOWN (key : Z)
| SDL_EVENT_OTHER.

Definition SDLK_ESCAPE : Z := 27.

Inductive startup_step : Type :=
| S_FMT | REQBUFS | CALLOC
| QUERYBUF (i : nat) | MMAP (i : nat) | QBUF (i : nat)
| STREAMON | CREATE_WINDOW | CREATE_RENDERER | CREATE_TEXTURE | MALLOC_RGB
| OPEN_RECORDING (id : Select.SDL_AudioDeviceID)
| OPEN_PLAYBACK (id : Select.SDL_AudioDeviceID)
| BIND_REC_STREAM | BIND_OUT_STREAM.

(** What a run does, in program order. *)
Inductive event : Type :=
| EvStore (s : store)
| EvCall (step : startup_step)
| EvFail (what : string)                  (* a line on stderr *)
| EvPollEvent (e : sdl_event)
| EvSelect
| EvDqbuf (index : Z)                     (* VIDIOC_DQBUF handed out slot [index] *)
| EvConvert (index : Z)                   (* yuyv_to_rgb24 on buffers[index] *)
| EvUpdateTexture
| EvRenderClear
| EvRenderTexture (dst : FitRect.SDL_FRect)
| EvRenderPresent
| EvRequeue (index : Z)                   (* VIDIOC_QBUF of slot [index], in the loop *)
| EvDelay
| EvGetData (len : Z)
| EvPutData (len : Z).

Definition stores_of (tr : list event) : list store :=
  omap (fun e => match e with EvStore s => Some s | _ => None end) tr.

(** How a worker's run ends: it returns, or it is still in its loop
    when the observed iterations are used up. *)
Inductive result : Type :=
| Returned (rc : Z)
| StillRunning.

(** [static void signalHandler(int sig)] *)
Definition signalHandler (sig : Z) (fl : flags) : flags * list event :=
  (apply_store (SetGStop 1) fl, [EvStore (SetGStop 1)]).

(** *** The capture worker *)

Inductive select_result : Type :=
| SelectError (eintr : bool)     (* r < 0, errno == EINTR or not *)
| SelectTimeout                  (* r == 0 *)
| SelectReady.

Inductive dqbuf_result : Type :=
| DqbufOk (index : Z)
| DqbufError (eagain : bool).    (* < 0, errno == EAGAIN or not *)

(** What one iteration of the capture loop meets. *)
Record video_tick : Type := {
  v_interference : list store;   (* stores by other threads or the handler
                                    since the previous loop test *)
  v_events : list sdl_event;     (* what SDL_PollEvent hands out *)
  v_select : select_result;
  v_dqbuf : dqbuf_result;
  v_out_size : Z * Z;            (* SDL_GetRenderOutputSize *)
  v_requeue_ok : bool            (* VIDIOC_QBUF >= 0 *)
}.

(** What the driver and SDL answer during startup, and the iterations
    the loop then meets.  A driver answer is what [xioctl] hands back,
    that is, after it has repeated a call interrupted by a signal. *)
Record video_env : Type := {
  s_fmt_ok : bool;
  fmt_width : Z;                 (* fmt.pix.width as the driver set it *)
  fmt_height : Z;
  reqbufs_ok : bool;
  req_count : nat;               (* req->count as the driver set it *)
  calloc_ok : bool;
  querybuf_ok : nat -> bool;
  mmap_ok : nat -> bool;
  qbuf_ok : nat -> bool;
  streamon_ok : bool;
  window_ok : bool;
  renderer_ok : bool;
  texture_ok : bool;
  malloc_ok : bool;
  v_ticks : list video_tick
}.

(** [while (SDL_PollEvent(args->e)) { ... }] *)
Fixpoint poll_events (evs : list sdl_event) (fl : flags) : flags * list event :=
  match evs with
  | [] => (fl, [])
  | e :: rest =>
      let '(fl1, tr1) :=
        match e with
        | SDL_EVENT_QUIT => (apply_store (SetRunning 0) fl, [EvStore (SetRunning 0)])
        | _ => (fl, [])
        end in
      let '(fl2, tr2) :=
        match e with
        | SDL_EVENT_KEY_DOWN key =>
            if key =? SDLK_ESCAPE
            then (apply_store (SetRunning 0) fl1, [EvStore (SetRunning 0)])
            else (fl1, [])
        | _ => (fl1, [])
        end in
      let '(fl3, tr3) := poll_events rest fl2 in
      (fl3, EvPollEvent e :: tr1 ++ tr2 ++ tr3)
  end.

(** The events of the convert-and-draw part of one iteration, up to
    and including the requeue call. *)
Definition present_frame (env : video_env) (index : Z) (out_size : Z * Z)
  : list event :=
  [ EvConvert index;
    EvUpdateTexture;
    EvRenderClear;
    EvRenderTexture (FitRect.integer_fit_rect (fmt_width env) (fmt_height env)
                       (fst out_size) (snd out_size));
    EvRenderPresent;
    EvRequeue index ].

(** The loop of [proc_video], run while [*args->running && !g_stop]: the
    flags when the loop is left ([true]) or when the observed
    iterations are used up ([false]), and the events. *)
Fixpoint capture_loop (env : video_env) (ticks : list video_tick) (fl : flags)
  : bool * flags * list event :=
  match ticks with
  | [] => (false, fl, [])
  | t :: rest =>
      let fl := apply_stores (v_interference t) fl in
      if run_state fl then
        let '(fl, tr) := poll_events (v_events t) fl in
        let continue_ tr :=
          let '(fin, fl', tr') := capture_loop env rest fl in (fin, fl', tr ++ tr') in
        match v_select t with
        | SelectError true => continue_ (tr ++ [EvSelect])
        | SelectError false => (true, fl, tr ++ [EvSelect; EvFail "select failed"])
        | SelectTimeout => continue_ (tr ++ [EvSelect])
        | SelectReady =>
            match v_dqbuf t with
            | DqbufError true => continue_ (tr ++ [EvSelect])
            | DqbufError false =>
                (true, fl, tr ++ [EvSelect; EvFail "VIDIOC_DQBUF failed"])
            | DqbufOk index =>
                let tr := tr ++ [EvSelect; EvDqbuf index]
                             ++ present_frame env index (v_out_size t) in
                if v_requeue_ok t then continue_ tr
                else (true, fl, tr ++ [EvFail "VIDIOC_QBUF (requeue) failed"])
            end
        end
      else (true, fl, [])
  end.

(** [for (i = 0; i < req->count; i++) { VIDIOC_QUERYBUF; mmap }],
    with [n] buffers still to do from index [i]. *)
Fixpoint map_buffers (env : video_env) (n i : nat) : bool * list event :=
  match n with
  | O => (true, [])
  | S n' =>
      if querybuf_ok env i then
        if mmap_ok env i then
          let '(ok, tr) := map_buffers env n' (S i) in
          (ok, EvCall (QUERYBUF i) :: EvCall (MMAP i) :: tr)
        else (false, [EvCall (QUERYBUF i); EvCall (MMAP i); EvFail "mmap failed"])
      else (false, [EvCall (QUERYBUF i); EvFail "VIDIOC_QUERYBUF failed"])
  end.

(** [for (i = 0; i < req->count; i++) { VIDIOC_QBUF }] *)
Fixpoint queue_buffers (env : video_env) (n i : nat) : bool * list event :=
  match n with
  | O => (true, [])
  | S n' =>
      if qbuf_ok env i then
        let '(ok, tr) := queue_buffers env n' (S i) in
        (ok, EvCall (QBUF i) :: tr)
      else (false, [EvCall (QBUF i); EvFail "VIDIOC_QBUF failed"])
  end.

(** [int proc_video(const proc_video_args_t *args)] *)
Definition proc_video (env : video_env) (fl : flags) : result * flags * list event :=
  let tr := [EvCall S_FMT] in
  if negb (s_fmt_ok env) then (Returned 1, fl, tr ++ [EvFail "VIDIOC_S_FMT failed"]) else
  let tr := tr ++ [EvCall REQBUFS] in
  if negb (reqbufs_ok env) || (req_count env <? 2)%nat
  then (Returned 1, fl, tr ++ [EvFail "VIDIOC_REQBUFS failed"]) else
  let tr := tr ++ [EvCall CALLOC] in
  if negb (calloc_ok env) then (Returned 1, fl, tr ++ [EvFail "calloc(buffers)"]) else
  let '(ok, tr1) := map_buffers env (req_count env) 0 in
  let tr := tr ++ tr1 in
  if negb ok then (Returned 1, fl, tr) else
  let '(ok, tr1) := queue_buffers env (req_count env) 0 in
  let tr := tr ++ tr1 in
  if negb ok then (Returned 1, fl, tr) else
  let tr := tr ++ [EvCall STREAMON] in
  if negb (streamon_ok env)
  then (Returned 1, fl, tr ++ [EvFail "VIDIOC_STREAMON failed"]) else
  let tr := tr ++ [EvCall CREATE_WINDOW] in
  if negb (window_ok env)
  then (Returned 1, fl, tr ++ [EvFail "SDL_CreateWindow failed"]) else
  let tr := tr ++ [EvCall CREATE_RENDERER] in
  if negb (renderer_ok env)
  then (Returned 1, fl, tr ++ [EvFail "SDL_CreateRenderer failed"]) else
  let tr := tr ++ [EvCall CREATE_TEXTURE] in
  if negb (texture_ok env)
  then (Returned 1, fl, tr ++ [EvFail "SDL_CreateTexture failed"]) else
  let tr := tr ++ [EvCall MALLOC_RGB] in
  if negb (malloc_ok env) then (Returned 1, fl, tr ++ [EvFail "malloc(rgb)"]) else
  let '(fin, fl, tr1) := capture_loop env (v_ticks env) fl in
  let tr := tr ++ tr1 in
  if fin then
    (* ensure other thread exits too *)
    (Returned 0, apply_store (SetRunning 0) fl, tr ++ [EvStore (SetRunning 0)])
  else (StillRunning, fl, tr).

(** *** The audio worker *)

(** What one iteration of the passthrough loop meets. *)
Record audio_tick : Type := {
  a_interference : list store;
  a_avail : Z;                   (* SDL_GetAudioStreamAvailable *)
  a_got : Z;                     (* SDL_GetAudioStreamData *)
  a_put_ok : bool                (* SDL_PutAudioStreamData *)
}.

(** What SDL answers to the audio worker. *)
Record audio_env : Type := {
  device_name : Select.SDL_AudioDeviceID -> option string;
  recording_devices : option (list Select.SDL_AudioDeviceID);
  playback_devices : option (list Select.SDL_AudioDeviceID);
  open_ok : Select.SDL_AudioDeviceID -> bool;   (* SDL_OpenAudioDevice != 0 *)
  rec_stream_ok : bool;          (* SDL_CreateAudioStream(NULL, &appspec) *)
  rec_bind_ok : bool;            (* SDL_BindAudioStream(rec_dev, rec_stream) *)
  out_stream_ok : bool;
  out_bind_ok : bool;
  a_ticks : list audio_tick
}.

(** [proc_audio_args_t] without the pointer to the flags. *)
Record proc_audio_args : Type := {
  dev : option string;           (* recording device selector *)
  sample_rate : Z;
  out : Z                        (* playback device index, -1 = default *)
}.

Definition sizeof_buf : Z := 4096.

(** The loop of [proc_audio], run while [*args->running && !g_stop]. *)
Fixpoint passthrough_loop (ticks : list audio_tick) (fl : flags)
  : bool * flags * list event :=
  match ticks with
  | [] => (false, fl, [])
  | t :: rest =>
      let fl := apply_stores (a_interference t) fl in
      if run_state fl then
        let continue_ tr :=
          let '(fin, fl', tr') := passthrough_loop rest fl in (fin, fl', tr ++ tr') in
        let avail := a_avail t in
        if avail <=? 0 then continue_ [EvDelay]
        else
          let avail := if avail >? sizeof_buf then sizeof_buf else avail in
          let got := a_got t in
          if got <? 0
          then (true, fl, [EvGetData avail; EvFail "GetAudioStreamData"])
          else if got >? 0 then
            if negb (a_put_ok t)
            then (true, fl, [EvGetData avail; EvPutData got; EvFail "PutAudioStreamData"])
            else continue_ [EvGetData avail; EvPutData got]
          else continue_ [EvGetData avail]
      else (true, fl, [])
  end.

(** [int proc_audio(const proc_audio_args_t *args)]; every failure
    before the loop is a [goto cleanup] with [rc] still 1. *)
Definition proc_audio (env : audio_env) (args : proc_audio_args) (fl : flags)
  : result * flags * list event :=
  let rc := 1 in
  let rec_id :=
    fst (Select.pick_recording_device (device_name env) (recording_devices env)
           (dev args)) in
  let out_id :=
    fst (Select.pick_playback_device (device_name env) (playback_devices env)
           (out args)) in
  let tr := [EvCall (OPEN_RECORDING rec_id)] in
  if negb (open_ok env rec_id)
  then (Returned rc, fl, tr ++ [EvFail "Open recording failed"]) else
  let tr := tr ++ [EvCall (OPEN_PLAYBACK out_id)] in
  if negb (open_ok env out_id)
  then (Returned rc, fl, tr ++ [EvFail "Open playback failed"]) else
  let tr := tr ++ [EvCall BIND_REC_STREAM] in
  if negb (rec_stream_ok env) || negb (rec_bind_ok env)
  then (Returned rc, fl, tr ++ [EvFail "Bind rec_stream failed"]) else
  let tr := tr ++ [EvCall BIND_OUT_STREAM] in
  if negb (out_stream_ok env) || negb (out_bind_ok env)
  then (Returned rc, fl, tr ++ [EvFail "Bind out_stream failed"]) else
  let '(fin, fl, tr1) := passthrough_loop (a_ticks env) fl in
  let tr := tr ++ tr1 in
  if fin then
    let rc := 0 in
    (Returned rc, fl, tr)
  else (StillRunning, fl, tr).

(** *** [main] *)

Record world : Type := {
  open_video_ok : bool;          (* open(video_dev, ...) >= 0 *)
  sdl_init_ok : bool;
  create_video_ok : bool;        (* pthread_create(&video_thread, ...) == 0 *)
  create_audio_ok : bool;
  venv : video_env;
  aenv : audio_env;
  audio_sel : string             (* argv[5] or the built-in selector *)
}.

Definition initial_flags : flags := {| running := 1; g_stop := 0 |}.

Definition audio_args (w : world) : proc_audio_args :=
  {| dev := Some (audio_sel w); sample_rate := 44100; out := -1 |}.

(** [int main(int argc, char **argv)]: the exit code, or [None] while a
    joined worker has not returned, and the stores [main] itself makes
    once the flag exists.  The workers run concurrently; each meets the
    other's stores as the interference of its iterations.  The values
    the two threads return are dropped by [pthread_join(..., NULL)]. *)
Definition main (w : world) : option Z * list event :=
  if negb (open_video_ok w) then (Some 1, [EvFail "open failed"]) else
  if negb (sdl_init_ok w) then (Some 1, [EvFail "SDL_Init"]) else
  let fl := initial_flags in
  if negb (create_video_ok w)
  then (Some 1, [EvFail "pthread_create(video) failed"; EvStore (SetRunning 0)]) else
  if negb (create_audio_ok w) then
    let tr := [EvFail "pthread_create(audio) failed"; EvStore (SetRunning 0)] in
    match proc_video (venv w) fl with
    | (Returned _, _, _) => (Some 1, tr)
    | (StillRunning, _, _) => (None, tr)
    end
  else
    match proc_video (venv w) fl with
    | (Returned _, _, _) =>
        let tr := [EvStore (SetRunning 0)] in   (* in case video exits first *)
        match proc_audio (aenv w) (audio_args w) fl with
        | (Returned _, _, _) => (Some 0, tr)
        | (StillRunning, _, _) => (None, tr)
        end
    | (StillRunning, _, _) => (None, [])
    end.

(** *** Shape of the traces *)

(** The two diagnostics of the passthrough loop. *)
Definition loop_failure (what : string) : Prop :=
  what = "GetAudioStreamData" \/ what = "PutAudioStreamData".

(** Events of the startup phase: calls and their diagnostics only. *)
Definition startup_event (e : event) : Prop :=
  match e with
  | EvCall _ => True
  | EvFail what => ~ loop_failure what
  | _ => False
  end.

Ltac startup_events :=
  repeat constructor; cbn; try done; try (intros [?|?]; discriminate).

Definition is_requeue (e : event) : Prop :=
  match e with
  | EvRequeue _ => True
  | _ => False
  end.

(** Every requeue in the trace comes right after the dequeue of the
    same slot, its conversion, the upload, and the clear, draw and
    present calls, in this order. *)
Definition requeue_after_present (tr : list event) : Prop :=
  forall pre k post,
    tr = pre ++ EvRequeue k :: post ->
    exists pre' dst,
      pre = pre' ++ [EvDqbuf k; EvConvert k; EvUpdateTexture; EvRenderClear;
                     EvRenderTexture dst; EvRenderPresent].

Lemma rap_no_requeue tr :
  Forall (fun e => ~ is_requeue e) tr -> requeue_after_present tr.
Proof.
  intros H pre k post ->. exfalso.
  apply Forall_app in H as [_ H]. apply Forall_cons in H as [H _].
  by apply H.
Qed.

Lemma rap_app a b :
  requeue_after_present a -> requeue_after_present b ->
  requeue_after_present (a ++ b).
Proof.
  intros Ha Hb pre k post E.
  apply app_eq_app in E as [l [[E1 E2]|[E1 E2]]].
  - destruct l as [|e l]; cbn in E2.
    + destruct (Hb [] k post) as (pre' & dst & Hp); [by rewrite <- E2|].
      by destruct pre'.
    + injection E2 as <- ->. apply (Ha pre k l). by rewrite E1.
  - destruct (Hb l k post E2) as (pre' & dst & ->).
    exists (a ++ pre'), dst. by rewrite E1, app_assoc.
Qed.

Lemma rap_frame env index sz :
  requeue_after_present ([EvSelect; EvDqbuf index] ++ present_frame env index sz).
Proof.
  intros pre k post E. cbn in E.
  do 7 (destruct pre as [|? pre]; [discriminate|]; injection E as <- E).
  destruct pre as [|? pre].
  - injection E as <- <-. by eexists [EvSelect], _.
  - injection E as _ E. destruct pre; discriminate.
Qed.

Lemma startup_no_requeue tr :
  Forall startup_event tr -> Forall (fun e => ~ is_requeue e) tr.
Proof.
  intros H. eapply Forall_impl; [exact H|].
  intros e He Hr. by destruct e.
Qed.

Lemma startup_no_store tr : Forall startup_event tr -> stores_of tr = [].
Proof.
  induction 1 as [|e tr He _ IH]; [done|].
  unfold stores_of in *. cbn [omap]. destruct e; try done.
Qed.

Lemma stores_of_app a b : stores_of (a ++ b) = stores_of a ++ stores_of b.
Proof. apply omap_app. Qed.

Lemma poll_events_no_requeue evs fl :
  Forall (fun e => ~ is_requeue e) (snd (poll_events evs fl)).
Proof.
  revert fl. induction evs as [|e evs IH]; intros fl; cbn [poll_events]; [by constructor|].
  destruct e as [|key|]; cbn [snd].
  - specialize (IH (apply_store (SetRunning 0) fl)).
    destruct (poll_events evs (apply_store (SetRunning 0) fl)) as [fl3 tr3].
    cbn in *. repeat constructor; try (intros []); done.
  - destruct (key =? SDLK_ESCAPE).
    + specialize (IH (apply_store (SetRunning 0) fl)).
      destruct (poll_events evs (apply_store (SetRunning 0) fl)) as [fl3 tr3].
      cbn in *. repeat constructor; try (intros []); done.
    + specialize (IH fl). destruct (poll_events evs fl) as [fl3 tr3].
      cbn in *. repeat constructor; try (intros []); done.
  - specialize (IH fl). destruct (poll_events evs fl) as [fl3 tr3].
    cbn in *. repeat constructor; try (intros []); done.
Qed.

(** *** Stores to the flags *)

(** A store that means stop: [running = 0] or [g_stop = 1]. *)
Definition stops (s : store) : Prop := s = SetRunning 0 \/ s = SetGStop 1.

Lemma stops_clears s fl : stops s -> run_state (apply_store s fl) = false.
Proof.
  intros [-> | ->]; unfold run_state; cbn; [done|].
  by rewrite andb_false_r.
Qed.

Lemma stops_keep_cleared l fl :
  Forall stops l -> run_state fl = false -> run_state (apply_stores l fl) = false.
Proof.
  intros H. revert fl. induction H as [|s l Hs _ IH]; intros fl Hfl; [done|].
  cbn [apply_stores fold_left]. apply IH. by apply stops_clears.
Qed.

Lemma poll_events_stops evs fl :
  Forall stops (stores_of (snd (poll_events evs fl))).
Proof.
  revert fl. induction evs as [|e evs IH]; intros fl; cbn [poll_events];
    [by constructor|].
  destruct e as [|key|]; cbn [snd].
  - specialize (IH (apply_store (SetRunning 0) fl)).
    destruct (poll_events evs (apply_store (SetRunning 0) fl)) as [fl3 tr3].
    cbn in *. constructor; [by left | done].
  - destruct (key =? SDLK_ESCAPE).
    + specialize (IH (apply_store (SetRunning 0) fl)).
      destruct (poll_events evs (apply_store (SetRunning 0) fl)) as [fl3 tr3].
      cbn in *. constructor; [by left | done].
    + specialize (IH fl). destruct (poll_events evs fl) as [fl3 tr3].
      cbn in *. done.
  - specialize (IH fl). destruct (poll_events evs fl) as [fl3 tr3].
    cbn in *. done.
Qed.

(** A trace in which requeues are in order and every store means stop. *)
Definition good_trace (tr : list event) : Prop :=
  requeue_after_present tr /\ Forall stops (stores_of tr).

Lemma good_app a b : good_trace a -> good_trace b -> good_trace (a ++ b).
Proof.
  intros [Ha1 Ha2] [Hb1 Hb2]. split; [by apply rap_app|].
  rewrite stores_of_app. by apply Forall_app.
Qed.

Lemma good_startup tr : Forall startup_event tr -> good_trace tr.
Proof.
  intros H. split.
  - by apply rap_no_requeue, startup_no_requeue.
  - by rewrite startup_no_store.
Qed.

Lemma good_poll evs fl : good_trace (snd (poll_events evs fl)).
Proof.
  split; [apply rap_no_requeue, poll_events_no_requeue | apply poll_events_stops].
Qed.

Lemma good_frame env index sz :
  good_trace ([EvSelect; EvDqbuf index] ++ present_frame env index sz).
Proof. split; [apply rap_frame | by constructor]. Qed.

Lemma good_plain tr :
  Forall (fun e => ~ is_requeue e) tr -> stores_of tr = [] -> good_trace tr.
Proof. intros H1 H2. split; [by apply rap_no_requeue | by rewrite H2]. Qed.

Lemma capture_loop_good env ticks :
  forall fl, good_trace (snd (capture_loop env ticks fl)).
Proof.
  induction ticks as [|t ticks IH]; intros fl; cbn [capture_loop].
  { apply good_startup. constructor. }
  destruct (run_state (apply_stores (v_interference t) fl)); [|by apply good_startup].
  pose proof (good_poll (v_events t) (apply_stores (v_interference t) fl)) as Hp.
  destruct (poll_events (v_events t) (apply_stores (v_interference t) fl))
    as [fl1 tr1]. cbn [snd] in Hp.
  specialize (IH fl1).
  destruct (capture_loop env ticks fl1) as [[fin fl2] tr2]. cbn [snd] in IH.
  assert (Hsel : good_trace [EvSelect])
    by (apply good_plain; [repeat constructor; by intros [] | done]).
  destruct (v_select t) as [[|]| |]; cbn [snd].
  - by repeat apply good_app.
  - apply good_app; [done|]. apply good_plain; [|done].
    repeat constructor; by intros [].
  - by repeat apply good_app.
  - destruct (v_dqbuf t) as [index|[|]]; cbn [snd].
    + destruct (v_requeue_ok t); cbn [snd].
      * apply good_app; [|done]. apply good_app; [done|]. apply good_frame.
      * apply good_app; [apply good_app; [done | apply good_frame]|].
        apply good_startup. startup_events.
    + by repeat apply good_app.
    + apply good_app; [done|]. apply good_plain; [|done].
      repeat constructor; by intros [].
Qed.

Lemma map_buffers_startup env n :
  forall i, Forall startup_event (snd (map_buffers env n i)).
Proof.
  induction n as [|n IH]; intros i; cbn [map_buffers]; [by constructor|].
  destruct (querybuf_ok env i); [|startup_events].
  destruct (mmap_ok env i); [|startup_events].
  specialize (IH (S i)). destruct (map_buffers env n (S i)) as [ok tr].
  startup_events.
Qed.

Lemma queue_buffers_startup env n :
  forall i, Forall startup_event (snd (queue_buffers env n i)).
Proof.
  induction n as [|n IH]; intros i; cbn [queue_buffers]; [by constructor|].
  destruct (qbuf_ok env i); [|startup_events].
  specialize (IH (S i)). destruct (queue_buffers env n (S i)) as [ok tr].
  startup_events.
Qed.

(** Every startup check of [proc_video] passes. *)
Definition video_startup_ok (env : video_env) : bool :=
  s_fmt_ok env && reqbufs_ok env && negb (req_count env <? 2)%nat
  && calloc_ok env
  && fst (map_buffers env (req_count env) 0)
  && fst (queue_buffers env (req_count env) 0)
  && streamon_ok env && window_ok env && renderer_ok env && texture_ok env
  && malloc_ok env.

(** [proc_video] either fails at startup and returns 1 with the flags
    untouched, or runs its loop and, when that is left, clears
    [running] and returns 0. *)
Lemma proc_video_shape env fl :
  exists pre, Forall startup_event pre /\
    ((video_startup_ok env = false /\ proc_video env fl = (Returned 1, fl, pre))
     \/ (video_startup_ok env = true /\
         exists fl' ltr,
           capture_loop env (v_ticks env) fl = (true, fl', ltr)
           /\ proc_video env fl
              = (Returned 0, apply_store (SetRunning 0) fl',
                 pre ++ ltr ++ [EvStore (SetRunning 0)]))
     \/ (video_startup_ok env = true /\
         exists fl' ltr,
           capture_loop env (v_ticks env) fl = (false, fl', ltr)
           /\ proc_video env fl = (StillRunning, fl', pre ++ ltr))).
Proof.
  unfold proc_video, video_startup_ok.
  pose proof (map_buffers_startup env (req_count env) 0) as Hm.
  pose proof (queue_buffers_startup env (req_count env) 0) as Hq.
  destruct (s_fmt_ok env); cbn [negb andb orb];
    [|eexists; split; [|left; split; [done|reflexivity]]; startup_events].
  destruct (reqbufs_ok env); cbn [negb andb orb];
    [|eexists; split; [|left; split; [done|reflexivity]]; startup_events].
  destruct (req_count env <? 2)%nat; cbn [negb andb orb];
    [eexists; split; [|left; split; [done|reflexivity]]; startup_events|].
  destruct (calloc_ok env); cbn [negb andb orb];
    [|eexists; split; [|left; split; [done|reflexivity]]; startup_events].
  destruct (map_buffers env (req_count env) 0) as [ok1 tr1]. cbn [fst snd] in *.
  destruct ok1; cbn [negb andb orb];
    [|eexists; split; [|left; split; [done|reflexivity]];
      apply Forall_app; split; [startup_events | done]].
  destruct (queue_buffers env (req_count env) 0) as [ok2 tr2]. cbn [fst snd] in *.
  assert (Hpre : Forall startup_event
                   ((([EvCall S_FMT] ++ [EvCall REQBUFS]) ++ [EvCall CALLOC])
                      ++ tr1 ++ tr2)).
  { repeat (apply Forall_app; split); try done; startup_events. }
  destruct ok2; cbn [negb andb orb];
    [|eexists; split; [|left; split; [done|reflexivity]];
      by rewrite <- app_assoc].
  destruct (streamon_ok env); cbn [negb andb orb];
    [|eexists; split; [|left; split; [done|reflexivity]];
      repeat (apply Forall_app; split); try done; startup_events].
  destruct (window_ok env); cbn [negb andb orb];
    [|eexists; split; [|left; split; [done|reflexivity]];
      repeat (apply Forall_app; split); try done; startup_events].
  destruct (renderer_ok env); cbn [negb andb orb];
    [|eexists; split; [|left; split; [done|reflexivity]];
      repeat (apply Forall_app; split); try done; startup_events].
  destruct (texture_ok env); cbn [negb andb orb];
    [|eexists; split; [|left; split; [done|reflexivity]];
      repeat (apply Forall_app; split); try done; startup_events].
  destruct (malloc_ok env); cbn [negb andb orb];
    [|eexists; split; [|left; split; [done|reflexivity]];
      repeat (apply Forall_app; split); try done; startup_events].
  destruct (capture_loop env (v_ticks env) fl) as [[fin fl'] ltr].
  destruct fin.
  - eexists. split; [|right; left; split; [done|]; eexists _, _; split; [done|]].
    2: { rewrite <- app_assoc. reflexivity. }
    repeat (apply Forall_app; split); try done; startup_events.
  - eexists. split; [|right; right; split; [done|]; eexists _, _; split; [done|]].
    2: { reflexivity. }
    repeat (apply Forall_app; split); try done; startup_events.
Qed.

Lemma proc_video_good env fl : good_trace (snd (proc_video env fl)).
Proof.
  destruct (proc_video_shape env fl)
    as (pre & Hpre & [[_ ->] | [(_ & fl' & ltr & Hl & ->) | (_ & fl' & ltr & Hl & ->)]]);
    cbn [snd].
  - by apply good_startup.
  - pose proof (capture_loop_good env (v_ticks env) fl) as Hg.
    rewrite Hl in Hg. cbn [snd] in Hg.
    apply good_app; [by apply good_startup|]. apply good_app; [done|].
    split; [apply rap_no_requeue; repeat constructor; by intros []|].
    cbn. constructor; [by left | done].
  - pose proof (capture_loop_good env (v_ticks env) fl) as Hg.
    rewrite Hl in Hg. cbn [snd] in Hg.
    apply good_app; [by apply good_startup | done].
Qed.

(** C7: in every run of the capture worker, whatever the device, the
    window system and the other threads do, each requeue of a slot in
    the capture loop comes only after that slot was dequeued, converted,
    uploaded, drawn and presented: these calls have returned, in this
    order, immediately before the requeue is issued. *)
Theorem requeue_only_after_present env fl pre k post :
  snd (proc_video env fl) = pre ++ EvRequeue k :: post ->
  exists pre' dst,
    pre = pre' ++ [EvDqbuf k; EvConvert k; EvUpdateTexture; EvRenderClear;
                   EvRenderTexture dst; EvRenderPresent].
Proof. intros H. exact (proj1 (proc_video_good env fl) pre k post H). Qed.

(** *** Sample runs *)

(** A device and window system on which every startup call succeeds. *)
Definition video_env_ok (ticks : list video_tick) : video_env :=
  {| s_fmt_ok := true; fmt_width := 640; fmt_height := 480;
     reqbufs_ok := true; req_count := 4; calloc_ok := true;
     querybuf_ok := fun _ => true; mmap_ok := fun _ => true;
     qbuf_ok := fun _ => true; streamon_ok := true; window_ok := true;
     renderer_ok := true; texture_ok := true; malloc_ok := true;
     v_ticks := ticks |}.

(** An iteration that gets the frame in slot [index] and shows it. *)
Definition frame_tick (index : Z) : video_tick :=
  {| v_interference := []; v_events := []; v_select := SelectReady;
     v_dqbuf := DqbufOk index; v_out_size := (1280, 960); v_requeue_ok := true |}.

(** An iteration with the given UI events and no frame. *)
Definition idle_tick (evs : list sdl_event) : video_tick :=
  {| v_interference := []; v_events := evs; v_select := SelectTimeout;
     v_dqbuf := DqbufError true; v_out_size := (1280, 960); v_requeue_ok := true |}.

Definition audio_env_ok (ticks : list audio_tick) : audio_env :=
  {| device_name := Select.names_demo;
     recording_devices := Some [7; 9];
     playback_devices := Some [21];
     open_ok := fun _ => true;
     rec_stream_ok := true; rec_bind_ok := true;
     out_stream_ok := true; out_bind_ok := true;
     a_ticks := ticks |}.

Definition demo_args : proc_audio_args :=
  {| dev := Some "capture"; sample_rate := 44100; out := -1 |}.

Definition startup_trace : list event :=
  [EvCall S_FMT; EvCall REQBUFS; EvCall CALLOC;
   EvCall (QUERYBUF 0); EvCall (MMAP 0); EvCall (QUERYBUF 1); EvCall (MMAP 1);
   EvCall (QUERYBUF 2); EvCall (MMAP 2); EvCall (QUERYBUF 3); EvCall (MMAP 3);
   EvCall (QBUF 0); EvCall (QBUF 1); EvCall (QBUF 2); EvCall (QBUF 3);
   EvCall STREAMON; EvCall CREATE_WINDOW; EvCall CREATE_RENDERER;
   EvCall CREATE_TEXTURE; EvCall MALLOC_RGB].

Example proc_video_one_frame_then_quit :
  proc_video (video_env_ok [frame_tick 2; idle_tick [SDL_EVENT_QUIT]; idle_tick []])
    initial_flags
  = (Returned 0, {| running := 0; g_stop := 0 |},
     startup_trace
       ++ [EvSelect; EvDqbuf 2; EvConvert 2; EvUpdateTexture; EvRenderClear;
           EvRenderTexture (FitRect.integer_fit_rect 640 480 1280 960);
           EvRenderPresent; EvRequeue 2]
       ++ [EvPollEvent SDL_EVENT_QUIT; EvStore (SetRunning 0); EvSelect]
       ++ [EvStore (SetRunning 0)]).
Proof. reflexivity. Qed.

Lemma requeue_only_after_present_witness :
  exists pre' dst,
    startup_trace
      ++ [EvSelect; EvDqbuf 2; EvConvert 2; EvUpdateTexture; EvRenderClear;
          EvRenderTexture (FitRect.integer_fit_rect 640 480 1280 960);
          EvRenderPresent]
    = pre' ++ [EvDqbuf 2; EvConvert 2; EvUpdateTexture; EvRenderClear;
               EvRenderTexture dst; EvRenderPresent].
Proof.
  apply (requeue_only_after_present
           (video_env_ok [frame_tick 2; idle_tick [SDL_EVENT_QUIT]; idle_tick []])
           initial_flags _ 2
           [EvPollEvent SDL_EVENT_QUIT; EvStore (SetRunning 0); EvSelect;
            EvStore (SetRunning 0)]).
  reflexivity.
Defined.

(** *** The audio worker never stores to the flags *)

Lemma passthrough_loop_no_store ticks :
  forall fl, stores_of (snd (passthrough_loop ticks fl)) = [].
Proof.
  induction ticks as [|t ticks IH]; intros fl; cbn [passthrough_loop]; [done|].
  destruct (run_state (apply_stores (a_interference t) fl)); [|done].
  specialize (IH (apply_stores (a_interference t) fl)).
  destruct (passthrough_loop ticks (apply_stores (a_interference t) fl))
    as [[fin fl2] tr2]. cbn [snd] in IH.
  destruct (a_avail t <=? 0); cbn [snd]; [by rewrite stores_of_app, IH|].
  destruct (a_got t <? 0); cbn [snd]; [done|].
  destruct (a_got t >? 0); cbn [snd]; [|by rewrite stores_of_app, IH].
  destruct (a_put_ok t); cbn [negb snd]; [by rewrite stores_of_app, IH | done].
Qed.

(** Without interference the loop hands the flags back as it got them. *)
Lemma passthrough_loop_flags ticks :
  Forall (fun t => a_interference t = []) ticks ->
  forall fl, snd (fst (passthrough_loop ticks fl)) = fl.
Proof.
  induction 1 as [|t ticks Ht _ IH]; intros fl; cbn [passthrough_loop]; [done|].
  rewrite Ht. cbn [apply_stores fold_left].
  destruct (run_state fl); [|done].
  specialize (IH fl). destruct (passthrough_loop ticks fl) as [[fin fl2] tr2].
  cbn [fst snd] in IH.
  destruct (a_avail t <=? 0); cbn [fst snd]; [done|].
  destruct (a_got t <? 0); cbn [fst snd]; [done|].
  destruct (a_got t >? 0); cbn [fst snd]; [|done].
  destruct (a_put_ok t); cbn [negb fst snd]; done.
Qed.

Definition rec_id (env : audio_env) (args : proc_audio_args) : Select.SDL_AudioDeviceID :=
  fst (Select.pick_recording_device (device_name env) (recording_devices env)
         (dev args)).

Definition out_id (env : audio_env) (args : proc_audio_args) : Select.SDL_AudioDeviceID :=
  fst (Select.pick_playback_device (device_name env) (playback_devices env)
         (out args)).

(** Both devices open and both streams are created and bound. *)
Definition audio_startup_ok (env : audio_env) (args : proc_audio_args) : bool :=
  open_ok env (rec_id env args) && open_ok env (out_id env args)
  && rec_stream_ok env && rec_bind_ok env
  && out_stream_ok env && out_bind_ok env.

Lemma proc_audio_shape env args fl :
  exists pre, Forall startup_event pre /\
    ((audio_startup_ok env args = false
      /\ proc_audio env args fl = (Returned 1, fl, pre))
     \/ (audio_startup_ok env args = true /\
         exists fl' ltr,
           passthrough_loop (a_ticks env) fl = (true, fl', ltr)
           /\ proc_audio env args fl = (Returned 0, fl', pre ++ ltr))
     \/ (audio_startup_ok env args = true /\
         exists fl' ltr,
           passthrough_loop (a_ticks env) fl = (false, fl', ltr)
           /\ proc_audio env args fl = (StillRunning, fl', pre ++ ltr))).
Proof.
  unfold proc_audio, audio_startup_ok, rec_id, out_id.
  destruct (open_ok env _); cbn [negb andb orb];
    [|eexists; split; [|left; split; [done|reflexivity]]; startup_events].
  destruct (open_ok env _); cbn [negb andb orb];
    [|eexists; split; [|left; split; [done|reflexivity]]; startup_events].
  destruct (rec_stream_ok env); cbn [negb andb orb];
    [|eexists; split; [|left; split; [done|reflexivity]]; startup_events].
  destruct (rec_bind_ok env); cbn [negb andb orb];
    [|eexists; split; [|left; split; [done|reflexivity]]; startup_events].
  destruct (out_stream_ok env); cbn [negb andb orb];
    [|eexists; split; [|left; split; [done|reflexivity]]; startup_events].
  destruct (out_bind_ok env); cbn [negb andb orb];
    [|eexists; split; [|left; split; [done|reflexivity]]; startup_events].
  destruct (passthrough_loop (a_ticks env) fl) as [[fin fl'] ltr].
  destruct fin.
  - eexists. split; [|right; left; split; [done|]; eexists _, _; split; [done|]].
    2: { reflexivity. }
    startup_events.
  - eexists. split; [|right; right; split; [done|]; eexists _, _; split; [done|]].
    2: { reflexivity. }
    startup_events.
Qed.

Lemma proc_audio_no_store env args fl : stores_of (snd (proc_audio env args fl)) = [].
Proof.
  destruct (proc_audio_shape env args fl)
    as (pre & Hpre & [[_ ->] | [(_ & fl' & ltr & Hl & ->) | (_ & fl' & ltr & Hl & ->)]]);
    cbn [snd]; rewrite ?stores_of_app, (startup_no_store pre Hpre); try done.
  - pose proof (passthrough_loop_no_store (a_ticks env) fl) as H.
    by rewrite Hl in H.
  - pose proof (passthrough_loop_no_store (a_ticks env) fl) as H.
    by rewrite Hl in H.
Qed.

Lemma main_stores_stop w : Forall stops (stores_of (snd (main w))).
Proof.
  unfold main.
  destruct (open_video_ok w); cbn [negb]; [|by constructor].
  destruct (sdl_init_ok w); cbn [negb]; [|by constructor].
  destruct (create_video_ok w); cbn [negb]; [|constructor; [by left | done]].
  destruct (create_audio_ok w); cbn [negb].
  - destruct (proc_video (venv w) initial_flags) as [[[rc|] fl'] tr]; [|by constructor].
    destruct (proc_audio (aenv w) (audio_args w) initial_flags) as [[[rc'|] fl''] tr'];
      cbn; (constructor; [by left | done]).
  - destruct (proc_video (venv w) initial_flags) as [[[rc|] fl'] tr];
      cbn; (constructor; [by left | done]).
Qed.

(** C8: every store to the shared flag, by the capture worker (its UI
    event path and its exit path), by the signal handler and by [main]
    once the flag exists, is a store of the stop value; the audio
    worker does not store at all.  A stop store leaves RunState false,
    so after it has been cleared no sequence of these stores sets it
    back: it goes from true to false at most once. *)
Theorem run_state_only_cleared :
  (forall env fl, Forall stops (stores_of (snd (proc_video env fl))))
  /\ (forall env args fl, stores_of (snd (proc_audio env args fl)) = [])
  /\ (forall sig fl, Forall stops (stores_of (snd (signalHandler sig fl))))
  /\ (forall w, Forall stops (stores_of (snd (main w))))
  /\ (forall s fl, stops s -> run_state (apply_store s fl) = false)
  /\ (forall l fl, Forall stops l -> run_state fl = false ->
        run_state (apply_stores l fl) = false).
Proof.
  split; [intros env fl; apply (proc_video_good env fl)|].
  split; [apply proc_audio_no_store|].
  split; [intros sig fl; cbn; constructor; [by right | done]|].
  split; [apply main_stores_stop|].
  split; [apply stops_clears | apply stops_keep_cleared].
Qed.

Lemma run_state_only_cleared_witness :
  run_state (apply_stores [SetGStop 1; SetRunning 0]
               (apply_store (SetRunning 0) initial_flags)) = false.
Proof.
  apply (proj2 (proj2 (proj2 (proj2 (proj2 run_state_only_cleared))))).
  - constructor; [by right|]. constructor; [by left | constructor].
  - reflexivity.
Defined.

(** *** The audio worker's failures *)

Definition read_fails : audio_tick :=
  {| a_interference := []; a_avail := 64; a_got := -1; a_put_ok := true |}.

Definition write_fails : audio_tick :=
  {| a_interference := []; a_avail := 64; a_got := 64; a_put_ok := false |}.

(** C2, the code at the failing inputs: when the stream read fails (or
    the write), the audio worker leaves its loop and returns with
    [running] still 1 and [g_stop] still 0, so RunState stays true and
    the capture worker keeps going; the audio worker has no store to
    the flag on any path. *)
Theorem audio_failure_leaves_run_state :
  proc_audio (audio_env_ok [read_fails]) demo_args initial_flags
  = (Returned 0, initial_flags,
     [EvCall (OPEN_RECORDING 9); EvCall (OPEN_PLAYBACK 4294967295);
      EvCall BIND_REC_STREAM; EvCall BIND_OUT_STREAM;
      EvGetData 64; EvFail "GetAudioStreamData"])
  /\ proc_audio (audio_env_ok [write_fails]) demo_args initial_flags
     = (Returned 0, initial_flags,
        [EvCall (OPEN_RECORDING 9); EvCall (OPEN_PLAYBACK 4294967295);
         EvCall BIND_REC_STREAM; EvCall BIND_OUT_STREAM;
         EvGetData 64; EvPutData 64; EvFail "PutAudioStreamData"])
  /\ run_state initial_flags = true
  /\ (forall env args fl, stores_of (snd (proc_audio env args fl)) = [])
  /\ (forall env args fl,
        Forall (fun t => a_interference t = []) (a_ticks env) ->
        snd (fst (proc_audio env args fl)) = fl).
Proof.
  split; [reflexivity|]. split; [reflexivity|]. split; [reflexivity|].
  split; [apply proc_audio_no_store|].
  intros env args fl Hq.
  destruct (proc_audio_shape env args fl)
    as (pre & Hpre & [[_ ->] | [(_ & fl' & ltr & Hl & ->) | (_ & fl' & ltr & Hl & ->)]]);
    cbn [fst snd]; [done| |];
    pose proof (passthrough_loop_flags (a_ticks env) Hq fl) as H;
    by rewrite Hl in H.
Qed.



Example proc_audio_stopped_returns_0 :
  fst (fst (proc_audio
              (audio_env_ok
                 [ {| a_interference := [SetRunning 0]; a_avail := 0;
                      a_got := 0; a_put_ok := true |} ])
              demo_args initial_flags)) = Returned 0.
Proof. reflexivity. Qed.

Example proc_audio_open_fails_returns_1 :
  fst (fst (proc_audio
              {| device_name := Select.names_demo;
                 recording_devices := Some [7; 9]; playback_devices := Some [21];
                 open_ok := fun id => negb (id =? 9);
                 rec_stream_ok := true; rec_bind_ok := true;
                 out_stream_ok := true; out_bind_ok := true;
                 a_ticks := [read_fails] |}
              demo_args initial_flags)) = Returned 1.
Proof. reflexivity. Qed.

(** *** The exit code *)

(** The driver rejects the format; everything else works. *)
Definition video_env_fmt_rejected : video_env :=
  {| s_fmt_ok := false; fmt_width := 640; fmt_height := 480;
     reqbufs_ok := true; req_count := 4; calloc_ok := true;
     querybuf_ok := fun _ => true; mmap_ok := fun _ => true;
     qbuf_ok := fun _ => true; streamon_ok := true; window_ok := true;
     renderer_ok := true; texture_ok := true; malloc_ok := true;
     v_ticks := [] |}.

(** The audio worker finds [running] cleared by [main] at its first test. *)
Definition stopped_by_main : audio_tick :=
  {| a_interference := [SetRunning 0]; a_avail := 0; a_got := 0; a_put_ok := true |}.

Definition world_fmt_rejected : world :=
  {| open_video_ok := true; sdl_init_ok := true;
     create_video_ok := true; create_audio_ok := true;
     venv := video_env_fmt_rejected;
     aenv := audio_env_ok [stopped_by_main];
     audio_sel := "capture" |}.

(** Once both threads exist, [main] exits with 0 whatever they return;
    it exits with 1 only for a failed open, SDL_Init or pthread_create. *)
Lemma main_exit_code w rc :
  fst (main w) = Some rc ->
  (rc = 1 /\ (open_video_ok w = false \/ sdl_init_ok w = false
              \/ create_video_ok w = false \/ create_audio_ok w = false))
  \/ (rc = 0 /\ open_video_ok w = true /\ sdl_init_ok w = true
      /\ create_video_ok w = true /\ create_audio_ok w = true).
Proof.
  unfold main.
  destruct (open_video_ok w); cbn [negb fst]; [|intros [= <-]; left; auto].
  destruct (sdl_init_ok w); cbn [negb fst]; [|intros [= <-]; left; auto].
  destruct (create_video_ok w); cbn [negb fst]; [|intros [= <-]; left; auto].
  destruct (create_audio_ok w); cbn [negb fst].
  - destruct (proc_video (venv w) initial_flags) as [[[rv|] fl'] tr]; [|done].
    destruct (proc_audio (aenv w) (audio_args w) initial_flags) as [[[ra|] fl''] tr'];
      [|done].
    intros [= <-]. right. auto.
  - destruct (proc_video (venv w) initial_flags) as [[[rv|] fl'] tr]; [|done].
    intros [= <-]. left. auto.
Qed.

(** C1, the code at a failing input: the device opens, SDL starts and
    both threads are created, then the driver rejects the format;
    [proc_video] returns 1, yet the process exits with 0, because
    [main] joins both threads without looking at what they returned.
    A failed open of the device does give exit code 1, and a clean
    shutdown 0. *)
Theorem main_exit_code_drops_worker_failure :
  proc_video video_env_fmt_rejected initial_flags
  = (Returned 1, initial_flags, [EvCall S_FMT; EvFail "VIDIOC_S_FMT failed"])
  /\ fst (main world_fmt_rejected) = Some 0
  /\ (forall w, open_video_ok w = false -> fst (main w) = Some 1)
  /\ (forall w rc, fst (main w) = Some rc ->
        video_startup_ok (venv w) = false \/ audio_startup_ok (aenv w) (audio_args w) = false ->
        open_video_ok w = true -> sdl_init_ok w = true ->
        create_video_ok w = true -> create_audio_ok w = true ->
        rc = 0).
Proof.
  split; [reflexivity|]. split; [reflexivity|]. split.
  - intros w Hw. unfold main. by rewrite Hw.
  - intros w rc Hrc _ H1 H2 H3 H4.
    destruct (main_exit_code w rc Hrc) as [(_ & [H|[H|[H|H]]]) | (-> & _)];
      congruence.
Qed.

(** *** Further properties of the workers *)

Lemma stops_clear_nonempty l fl :
  Forall stops l -> l <> [] -> run_state (apply_stores l fl) = false.
Proof.
  intros H Hne. destruct H as [|s l Hs Hl]; [done|].
  cbn [apply_stores fold_left]. apply stops_keep_cleared; [done|].
  by apply stops_clears.
Qed.

Lemma capture_loop_stopped env t rest fl :
  run_state (apply_stores (v_interference t) fl) = false ->
  capture_loop env (t :: rest) fl = (true, apply_stores (v_interference t) fl, []).
Proof. intros H. cbn [capture_loop]. by rewrite H. Qed.

Lemma passthrough_loop_stopped t rest fl :
  run_state (apply_stores (a_interference t) fl) = false ->
  passthrough_loop (t :: rest) fl = (true, apply_stores (a_interference t) fl, []).
Proof. intros H. cbn [passthrough_loop]. by rewrite H. Qed.

(** X14: once a stop store has landed (the signal handler's
    [g_stop = 1], or [running = 0] by the other thread or [main]),
    each worker leaves its loop at its very next loop test: it polls no
    event, waits for no frame and moves no audio in that iteration,
    and makes no store of its own inside the loop. *)
Theorem stop_store_ends_both_loops
    env (t : video_tick) (rest : list video_tick)
    (ta : audio_tick) (resta : list audio_tick) fl :
  (Forall stops (v_interference t) -> v_interference t <> [] ->
     capture_loop env (t :: rest) fl
     = (true, apply_stores (v_interference t) fl, [])
     /\ run_state (apply_stores (v_interference t) fl) = false)
  /\ (Forall stops (a_interference ta) -> a_interference ta <> [] ->
      passthrough_loop (ta :: resta) fl
      = (true, apply_stores (a_interference ta) fl, [])
      /\ run_state (apply_stores (a_interference ta) fl) = false).
Proof.
  split; intros Hs Hne; pose proof (stops_clear_nonempty _ fl Hs Hne) as Hr.
  - split; [by apply capture_loop_stopped | done].
  - split; [by apply passthrough_loop_stopped | done].
Qed.

Lemma stop_store_ends_both_loops_witness :
  capture_loop (video_env_ok []) [ {| v_interference := [SetGStop 1];
                                      v_events := [SDL_EVENT_OTHER];
                                      v_select := SelectReady;
                                      v_dqbuf := DqbufOk 0;
                                      v_out_size := (640, 480);
                                      v_requeue_ok := true |} ] initial_flags
  = (true, apply_stores [SetGStop 1] initial_flags, [])
  /\ run_state (apply_stores [SetGStop 1] initial_flags) = false.
Proof.
  apply (proj1 (stop_store_ends_both_loops (video_env_ok [])
                  {| v_interference := [SetGStop 1]; v_events := [SDL_EVENT_OTHER];
                     v_select := SelectReady; v_dqbuf := DqbufOk 0;
                     v_out_size := (640, 480); v_requeue_ok := true |}
                  [] read_fails [] initial_flags)).
  - constructor; [by right | constructor].
  - discriminate.
Defined.

(** The UI events only ever clear [running]; a quit event or the
    Escape key clears it. *)
Lemma poll_events_flags evs :
  forall fl,
    g_stop (fst (poll_events evs fl)) = g_stop fl
    /\ (running fl = 0 -> running (fst (poll_events evs fl)) = 0)
    /\ (SDL_EVENT_QUIT ∈ evs \/ SDL_EVENT_KEY_DOWN SDLK_ESCAPE ∈ evs ->
        running (fst (poll_events evs fl)) = 0).
Proof.
  induction evs as [|e evs IH]; intros fl; cbn [poll_events].
  - repeat split; try done. intros [H|H]; by apply elem_of_nil in H.
  - assert (Hstep : forall fl1 (tr : list event),
              (running fl1 = 0 \/ fl1 = fl) -> g_stop fl1 = g_stop fl ->
              (e = SDL_EVENT_QUIT \/ e = SDL_EVENT_KEY_DOWN SDLK_ESCAPE ->
               running fl1 = 0) ->
              g_stop (fst (let '(fl3, tr3) := poll_events evs fl1 in
                           (fl3, EvPollEvent e :: tr ++ tr3))) = g_stop fl
              /\ (running fl = 0 ->
                  running (fst (let '(fl3, tr3) := poll_events evs fl1 in
                                (fl3, EvPollEvent e :: tr ++ tr3))) = 0)
              /\ (SDL_EVENT_QUIT ∈ e :: evs
                  \/ SDL_EVENT_KEY_DOWN SDLK_ESCAPE ∈ e :: evs ->
                  running (fst (let '(fl3, tr3) := poll_events evs fl1 in
                                (fl3, EvPollEvent e :: tr ++ tr3))) = 0)).
    { intros fl1 tr H1 H2 H3. destruct (IH fl1) as (I1 & I2 & I3).
      destruct (poll_events evs fl1) as [fl3 tr3]. cbn [fst] in *.
      split; [congruence|]. split.
      - intros H0. apply I2. destruct H1 as [H1| ->]; done.
      - intros [H|H]; apply elem_of_cons in H as [H|H];
          first [ apply I2, H3; by (left + right)
                | apply I3; by (left + right) ]. }
    destruct e as [|key|].
    + apply (Hstep _ ([EvStore (SetRunning 0)] ++ [])); [by left|done|done].
    + destruct (key =? SDLK_ESCAPE) eqn:E.
      * apply (Hstep _ ([] ++ [EvStore (SetRunning 0)])); [by left|done|done].
      * apply (Hstep _ ([] ++ [])); [by right|done|].
        intros [H|H]; [done|]. injection H as ->. by rewrite Z.eqb_refl in E.
    + apply (Hstep _ ([] ++ [])); [by right|done|]. by intros [H|H].
Qed.

(** X15: a window-close event or the Escape key seen in one iteration
    ends the capture loop no later than the next loop test: the current
    iteration is finished (a frame that is ready is still shown), then
    the loop is left with RunState false, and no later iteration takes
    place. *)
Theorem quit_event_ends_capture env t t' rest fl :
  SDL_EVENT_QUIT ∈ v_events t \/ SDL_EVENT_KEY_DOWN SDLK_ESCAPE ∈ v_events t ->
  Forall stops (v_interference t') ->
  fst (fst (capture_loop env (t :: t' :: rest) fl)) = true
  /\ run_state (snd (fst (capture_loop env (t :: t' :: rest) fl))) = false
  /\ capture_loop env (t :: t' :: rest) fl = capture_loop env [t; t'] fl.
Proof.
  intros Hq Hs. cbn [capture_loop].
  destruct (run_state (apply_stores (v_interference t) fl)) eqn:Er; [|done].
  destruct (poll_events_flags (v_events t) (apply_stores (v_interference t) fl))
    as (_ & _ & Hrun). specialize (Hrun Hq).
  destruct (poll_events (v_events t) (apply_stores (v_interference t) fl))
    as [fl1 tr1]. cbn [fst] in Hrun.
  assert (Hr1 : run_state fl1 = false) by (unfold run_state; by rewrite Hrun).
  assert (Hr2 : run_state (apply_stores (v_interference t') fl1) = false)
    by (by apply stops_keep_cleared).
  rewrite Hr2.
  destruct (v_select t) as [[|]| |]; cbn [fst snd]; try done.
  destruct (v_dqbuf t) as [index|[|]]; cbn [fst snd]; try done.
  by destruct (v_requeue_ok t).
Qed.

Lemma quit_event_ends_capture_witness :
  fst (fst (capture_loop (video_env_ok [])
              (idle_tick [SDL_EVENT_KEY_DOWN 27] :: idle_tick [] :: [frame_tick 1])
              initial_flags)) = true
  /\ run_state (snd (fst (capture_loop (video_env_ok [])
                            (idle_tick [SDL_EVENT_KEY_DOWN 27] :: idle_tick []
                               :: [frame_tick 1])
                            initial_flags))) = false
  /\ capture_loop (video_env_ok [])
       (idle_tick [SDL_EVENT_KEY_DOWN 27] :: idle_tick [] :: [frame_tick 1])
       initial_flags
     = capture_loop (video_env_ok []) [idle_tick [SDL_EVENT_KEY_DOWN 27]; idle_tick []]
         initial_flags.
Proof.
  apply (quit_event_ends_capture (video_env_ok [])
           (idle_tick [SDL_EVENT_KEY_DOWN 27]) (idle_tick []) [frame_tick 1]
           initial_flags).
  - right. apply list_elem_of_here.
  - constructor.
Defined.

(** X16: the capture worker returns 1 exactly when one of its startup
    checks fails (the format is rejected, fewer than 2 buffers are
    granted, an allocation, mapping, queueing, stream-on or SDL object
    creation fails); it has then entered no loop and has left the flag
    alone.  Whenever it returns 0 its last action was the store
    [running = 0], so RunState is false when it returns. *)
Theorem proc_video_return_value env fl :
  (video_startup_ok env = false ->
     exists tr, proc_video env fl = (Returned 1, fl, tr)
                /\ Forall startup_event tr)
  /\ (forall rc fl' tr,
        proc_video env fl = (Returned rc, fl', tr) ->
        (rc = 1 <-> video_startup_ok env = false)
        /\ (rc = 0 <-> video_startup_ok env = true)
        /\ (rc = 0 ->
            run_state fl' = false /\ last tr = Some (EvStore (SetRunning 0)))).
Proof.
  destruct (proc_video_shape env fl)
    as (pre & Hpre & [[Hs ->] | [(Hs & fl' & ltr & Hl & ->) | (Hs & fl' & ltr & Hl & ->)]]).
  - split; [intros _; by eexists|].
    intros rc fl' tr [= <- <- <-]. rewrite Hs. done.
  - split; [intros; congruence|].
    intros rc fl'' tr [= <- <- <-]. rewrite Hs.
    split; [done|]. split; [done|]. intros _. split.
    + apply (stops_clears (SetRunning 0) fl'). by left.
    + by rewrite !app_assoc, last_snoc.
  - split; [intros; congruence|]. intros rc fl'' tr [=].
Qed.

Lemma proc_video_return_value_witness :
  (0 = 1 <-> video_startup_ok
               (video_env_ok [frame_tick 2; idle_tick [SDL_EVENT_QUIT]; idle_tick []])
             = false)
  /\ (0 = 0 <-> video_startup_ok
                  (video_env_ok [frame_tick 2; idle_tick [SDL_EVENT_QUIT]; idle_tick []])
                = true)
  /\ (0 = 0 ->
      run_state {| running := 0; g_stop := 0 |} = false
      /\ last (startup_trace
                 ++ [EvSelect; EvDqbuf 2; EvConvert 2; EvUpdateTexture; EvRenderClear;
                     EvRenderTexture (FitRect.integer_fit_rect 640 480 1280 960);
                     EvRenderPresent; EvRequeue 2]
                 ++ [EvPollEvent SDL_EVENT_QUIT; EvStore (SetRunning 0); EvSelect]
                 ++ [EvStore (SetRunning 0)])
         = Some (EvStore (SetRunning 0))).
Proof.
  apply (proj2 (proc_video_return_value
                  (video_env_ok [frame_tick 2; idle_tick [SDL_EVENT_QUIT]; idle_tick []])
                  initial_flags) 0 {| running := 0; g_stop := 0 |}).
  reflexivity.
Defined.

(** Events of the loops: everything but startup calls. *)
Definition loop_event (e : event) : Prop :=
  match e with
  | EvCall _ => False
  | _ => True
  end.

(** Events that hand out no buffer. *)
Definition not_dqbuf (e : event) : Prop :=
  match e with
  | EvDqbuf _ => False
  | _ => True
  end.

Lemma poll_events_trace evs :
  forall fl,
    Forall (fun e => loop_event e /\ not_dqbuf e) (snd (poll_events evs fl)).
Proof.
  induction evs as [|e evs IH]; intros fl; cbn [poll_events]; [by constructor|].
  destruct e as [|key|]; cbn [snd].
  - specialize (IH (apply_store (SetRunning 0) fl)).
    destruct (poll_events evs (apply_store (SetRunning 0) fl)) as [fl3 tr3].
    cbn in *. by repeat constructor.
  - destruct (key =? SDLK_ESCAPE).
    + specialize (IH (apply_store (SetRunning 0) fl)).
      destruct (poll_events evs (apply_store (SetRunning 0) fl)) as [fl3 tr3].
      cbn in *. by repeat constructor.
    + specialize (IH fl). destruct (poll_events evs fl) as [fl3 tr3].
      cbn in *. by repeat constructor.
  - specialize (IH fl). destruct (poll_events evs fl) as [fl3 tr3].
    cbn in *. by repeat constructor.
Qed.

(** Every dequeue in the trace is followed at once by the conversion of
    that slot, the upload, the clear, draw and present calls, and the
    requeue of that slot. *)
Definition dequeue_then_requeue (tr : list event) : Prop :=
  forall pre k post,
    tr = pre ++ EvDqbuf k :: post ->
    exists dst post',
      post = [EvConvert k; EvUpdateTexture; EvRenderClear; EvRenderTexture dst;
              EvRenderPresent; EvRequeue k] ++ post'.

Lemma dtr_no_dqbuf tr : Forall not_dqbuf tr -> dequeue_then_requeue tr.
Proof.
  intros H pre k post ->. exfalso.
  apply Forall_app in H as [_ H]. by apply Forall_cons in H as [H _].
Qed.

Lemma dtr_app a b :
  dequeue_then_requeue a -> dequeue_then_requeue b ->
  dequeue_then_requeue (a ++ b).
Proof.
  intros Ha Hb pre k post E.
  apply app_eq_app in E as [l [[E1 E2]|[E1 E2]]].
  - destruct l as [|e l]; cbn in E2.
    + apply (Hb [] k post). by rewrite <- E2.
    + injection E2 as <- ->.
      destruct (Ha pre k l E1) as (dst & post' & ->).
      exists dst, (post' ++ b). by rewrite <- app_assoc.
  - by apply (Hb l k post).
Qed.

Lemma dtr_frame env index sz :
  dequeue_then_requeue ([EvSelect; EvDqbuf index] ++ present_frame env index sz).
Proof.
  intros pre k post E. cbn in E.
  destruct pre as [|? pre]; [discriminate|]. injection E as <- E.
  destruct pre as [|? pre].
  - injection E as <- <-. by eexists _, [].
  - injection E as <- E.
    do 6 (destruct pre as [|? pre]; [discriminate|]; injection E as <- E).
    destruct pre; discriminate.
Qed.

Lemma loop_event_no_dqbuf_weaken tr :
  Forall (fun e => loop_event e /\ not_dqbuf e) tr -> Forall not_dqbuf tr.
Proof. intros H. eapply Forall_impl; [exact H|]. by intros e [_ ?]. Qed.

Lemma capture_loop_dtr env ticks :
  forall fl,
    dequeue_then_requeue (snd (capture_loop env ticks fl))
    /\ Forall loop_event (snd (capture_loop env ticks fl)).
Proof.
  induction ticks as [|t ticks IH]; intros fl; cbn [capture_loop].
  { split; [apply dtr_no_dqbuf|]; constructor. }
  destruct (run_state (apply_stores (v_interference t) fl));
    [|split; [apply dtr_no_dqbuf|]; constructor].
  pose proof (poll_events_trace (v_events t) (apply_stores (v_interference t) fl)) as Hp.
  destruct (poll_events (v_events t) (apply_stores (v_interference t) fl))
    as [fl1 tr1]. cbn [snd] in Hp.
  assert (Hp1 : dequeue_then_requeue tr1)
    by (by apply dtr_no_dqbuf, loop_event_no_dqbuf_weaken).
  assert (Hp2 : Forall loop_event tr1)
    by (eapply Forall_impl; [exact Hp|]; by intros e [? _]).
  destruct (IH fl1) as [I1 I2].
  destruct (capture_loop env ticks fl1) as [[fin fl2] tr2]. cbn [snd] in I1, I2.
  assert (Hplain : forall l, Forall (fun e => loop_event e /\ not_dqbuf e) l ->
                     dequeue_then_requeue (tr1 ++ l) /\ Forall loop_event (tr1 ++ l)).
  { intros l Hl. split.
    - apply dtr_app; [done|]. by apply dtr_no_dqbuf, loop_event_no_dqbuf_weaken.
    - apply Forall_app. split; [done|].
      eapply Forall_impl; [exact Hl|]. by intros e [? _]. }
  assert (Hcont : forall l, dequeue_then_requeue (tr1 ++ l) /\ Forall loop_event (tr1 ++ l) ->
                    dequeue_then_requeue ((tr1 ++ l) ++ tr2)
                    /\ Forall loop_event ((tr1 ++ l) ++ tr2)).
  { intros l [H1 H2]. split; [by apply dtr_app | by apply Forall_app]. }
  destruct (v_select t) as [[|]| |]; cbn [snd].
  - apply Hcont, Hplain. by repeat constructor.
  - apply Hplain. by repeat constructor.
  - apply Hcont, Hplain. by repeat constructor.
  - destruct (v_dqbuf t) as [index|[|]]; cbn [snd].
    + assert (Hf : dequeue_then_requeue
                     (tr1 ++ [EvSelect; EvDqbuf index]
                        ++ present_frame env index (v_out_size t))
                   /\ Forall loop_event
                        (tr1 ++ [EvSelect; EvDqbuf index]
                           ++ present_frame env index (v_out_size t))).
      { split; [apply dtr_app; [done | apply dtr_frame]|].
        apply Forall_app. split; [done|]. by repeat constructor. }
      destruct (v_requeue_ok t); cbn [snd].
      * by apply Hcont.
      * destruct Hf as [H1 H2]. split.
        -- apply dtr_app; [done|]. apply dtr_no_dqbuf. by repeat constructor.
        -- apply Forall_app. split; [done|]. by repeat constructor.
    + apply Hcont, Hplain. by repeat constructor.
    + apply Hplain. by repeat constructor.
Qed.

Lemma startup_not_dqbuf tr : Forall startup_event tr -> Forall not_dqbuf tr.
Proof.
  intros H. eapply Forall_impl; [exact H|]. intros e He. by destruct e.
Qed.

(** X17: in every run of the capture worker every buffer the driver
    hands out is given back: each dequeue is followed at once by the
    conversion of that slot, the upload, clear, draw and present and
    the requeue call for that slot, before anything else happens; so
    the worker never holds two buffers and never leaves its loop with
    a buffer it has not tried to requeue. *)
Theorem dequeued_slot_is_requeued env fl pre k post :
  snd (proc_video env fl) = pre ++ EvDqbuf k :: post ->
  exists dst post',
    post = [EvConvert k; EvUpdateTexture; EvRenderClear; EvRenderTexture dst;
            EvRenderPresent; EvRequeue k] ++ post'.
Proof.
  revert pre k post. change (dequeue_then_requeue (snd (proc_video env fl))).
  destruct (capture_loop_dtr env (v_ticks env) fl) as [Hd _].
  destruct (proc_video_shape env fl)
    as (pr & Hpre & [[_ ->] | [(_ & fl' & ltr & Hl & ->) | (_ & fl' & ltr & Hl & ->)]]);
    cbn [snd]; rewrite ?Hl in Hd; cbn [snd] in Hd.
  - by apply dtr_no_dqbuf, startup_not_dqbuf.
  - apply dtr_app; [by apply dtr_no_dqbuf, startup_not_dqbuf|].
    apply dtr_app; [done|]. apply dtr_no_dqbuf. by repeat constructor.
  - apply dtr_app; [by apply dtr_no_dqbuf, startup_not_dqbuf | done].
Qed.

Lemma dequeued_slot_is_requeued_witness :
  exists dst post',
    [EvConvert 2; EvUpdateTexture; EvRenderClear;
     EvRenderTexture (FitRect.integer_fit_rect 640 480 1280 960);
     EvRenderPresent; EvRequeue 2; EvPollEvent SDL_EVENT_QUIT;
     EvStore (SetRunning 0); EvSelect; EvStore (SetRunning 0)]
    = [EvConvert 2; EvUpdateTexture; EvRenderClear; EvRenderTexture dst;
       EvRenderPresent; EvRequeue 2] ++ post'.
Proof.
  apply (dequeued_slot_is_requeued
           (video_env_ok [frame_tick 2; idle_tick [SDL_EVENT_QUIT]; idle_tick []])
           initial_flags (startup_trace ++ [EvSelect]) 2).
  reflexivity.
Defined.

(** What the passthrough loop may do: wait, read at most one buffer
    full, write what was read, report a failure. *)
Definition passthrough_event (e : event) : Prop :=
  match e with
  | EvDelay | EvFail _ => True
  | EvGetData len => 0 < len <= sizeof_buf
  | EvPutData len => 0 < len
  | _ => False
  end.

Lemma passthrough_loop_events ticks :
  forall fl, Forall passthrough_event (snd (passthrough_loop ticks fl)).
Proof.
  induction ticks as [|t ticks IH]; intros fl; cbn [passthrough_loop];
    [by constructor|].
  destruct (run_state (apply_stores (a_interference t) fl)); [|by constructor].
  specialize (IH (apply_stores (a_interference t) fl)).
  destruct (passthrough_loop ticks (apply_stores (a_interference t) fl))
    as [[fin fl2] tr2]. cbn [snd] in IH.
  destruct (a_avail t <=? 0) eqn:Ea; cbn [snd]; [by repeat constructor|].
  assert (Hlen : passthrough_event
                   (EvGetData (if a_avail t >? sizeof_buf then sizeof_buf
                               else a_avail t))).
  { unfold passthrough_event, sizeof_buf. destruct (a_avail t >? 4096) eqn:E; lia. }
  destruct (a_got t <? 0) eqn:Eg; cbn [snd].
  { constructor; [exact Hlen|]. by repeat constructor. }
  destruct (a_got t >? 0) eqn:Eg2; cbn [snd].
  - assert (Hput : passthrough_event (EvPutData (a_got t)))
      by (unfold passthrough_event; lia).
    destruct (a_put_ok t); cbn [negb snd].
    + constructor; [exact Hlen|]. by constructor.
    + constructor; [exact Hlen|]. constructor; [exact Hput|]. by repeat constructor.
  - by constructor.
Qed.

(** X18: in every run of the audio worker each read asks for at least
    1 and at most 4096 bytes, the size of its buffer, however much the
    capture stream holds, and each write passes on a positive byte
    count. *)
Theorem proc_audio_chunks env args fl :
  (forall len, EvGetData len ∈ snd (proc_audio env args fl) -> 0 < len <= 4096)
  /\ (forall len, EvPutData len ∈ snd (proc_audio env args fl) -> 0 < len).
Proof.
  assert (Hev : Forall (fun e => startup_event e \/ passthrough_event e)
                  (snd (proc_audio env args fl))).
  { pose proof (passthrough_loop_events (a_ticks env) fl) as Hl.
    destruct (proc_audio_shape env args fl)
      as (pr & Hpre & [[_ ->] | [(_ & fl' & ltr & El & ->) | (_ & fl' & ltr & El & ->)]]);
      cbn [snd]; rewrite ?El in Hl; cbn [snd] in Hl;
      rewrite ?Forall_app; repeat split;
      (eapply Forall_impl; [eassumption|]); by (left + right). }
  rewrite Forall_forall in Hev.
  split.
  - intros len Hin. destruct (Hev _ Hin) as [H|H]; [done | exact H].
  - intros len Hin. destruct (Hev _ Hin) as [H|H]; [done | exact H].
Qed.

Lemma proc_audio_chunks_witness : 0 < 4096 <= 4096.
Proof.
  apply (proj1 (proc_audio_chunks
                  (audio_env_ok [ {| a_interference := []; a_avail := 8000;
                                     a_got := 4096; a_put_ok := true |};
                                  stopped_by_main ])
                  demo_args initial_flags) 4096).
  cbn. do 4 apply list_elem_of_further. apply list_elem_of_here.
Defined.

(** The devices a run of the audio worker opens. *)
Definition opens_only (r o : Select.SDL_AudioDeviceID) (e : event) : Prop :=
  match e with
  | EvCall (OPEN_RECORDING id) => id = r
  | EvCall (OPEN_PLAYBACK id) => id = o
  | _ => True
  end.

Lemma proc_audio_opens env args fl :
  Forall (opens_only (rec_id env args) (out_id env args))
    (snd (proc_audio env args fl)).
Proof.
  unfold proc_audio. fold (rec_id env args). fold (out_id env args).
  destruct (open_ok env (rec_id env args)); cbn [negb snd]; [|by repeat constructor].
  destruct (open_ok env (out_id env args)); cbn [negb snd]; [|by repeat constructor].
  destruct (negb (rec_stream_ok env) || negb (rec_bind_ok env)); cbn [snd];
    [by repeat constructor|].
  destruct (negb (out_stream_ok env) || negb (out_bind_ok env)); cbn [snd];
    [by repeat constructor|].
  pose proof (passthrough_loop_events (a_ticks env) fl) as Hl.
  destruct (passthrough_loop (a_ticks env) fl) as [[fin fl'] ltr]. cbn [snd] in Hl.
  assert (Hl' : Forall (opens_only (rec_id env args) (out_id env args)) ltr).
  { eapply Forall_impl; [exact Hl|]. intros e He. by destruct e. }
  destruct fin; cbn [snd]; apply Forall_app; split; try done; by repeat constructor.
Qed.

(** X19: whatever playback devices exist, the audio worker that [main]
    starts opens only the default playback device, because [main]
    passes the sink index -1; the one capture device it opens is the
    one [pick_recording_device] chooses for the selector. *)
Theorem main_audio_devices w fl :
  (forall id,
     EvCall (OPEN_PLAYBACK id) ∈ snd (proc_audio (aenv w) (audio_args w) fl) ->
     id = Select.SDL_AUDIO_DEVICE_DEFAULT_PLAYBACK)
  /\ (forall id,
        EvCall (OPEN_RECORDING id) ∈ snd (proc_audio (aenv w) (audio_args w) fl) ->
        id = fst (Select.pick_recording_device (device_name (aenv w))
                    (recording_devices (aenv w)) (Some (audio_sel w)))).
Proof.
  pose proof (proc_audio_opens (aenv w) (audio_args w) fl) as H.
  rewrite Forall_forall in H. split; intros id Hin.
  - apply H in Hin. cbn in Hin. rewrite Hin. reflexivity.
  - apply H in Hin. exact Hin.
Qed.

Lemma main_audio_devices_witness :
  4294967295 = Select.SDL_AUDIO_DEVICE_DEFAULT_PLAYBACK.
Proof.
  apply (proj1 (main_audio_devices world_fmt_rejected initial_flags) 4294967295).
  cbn. apply list_elem_of_further, list_elem_of_here.
Defined.

(** *** Order of the startup calls *)

Lemma split_at_unique {A} (x : A) (l1 l2 pre post : list A) :
  l1 ++ x :: l2 = pre ++ x :: post -> x ∉ l1 -> x ∉ l2 ->
  pre = l1 /\ post = l2.
Proof.
  revert pre. induction l1 as [|a l1 IH]; intros pre E H1 H2.
  - destruct pre as [|b pre]; cbn in E.
    + by injection E as ->.
    + injection E as <- ->. exfalso. apply H2.
      apply elem_of_app. right. apply list_elem_of_here.
  - destruct pre as [|b pre]; cbn in E.
    + injection E as -> _. exfalso. apply H1. apply list_elem_of_here.
    + injection E as <- E.
      destruct (IH pre E) as [-> ->]; [|done|done].
      intros Hin. apply H1. by apply list_elem_of_further.
Qed.

Lemma map_buffers_all env n :
  forall i k,
    fst (map_buffers env n i) = true -> (i <= k < i + n)%nat ->
    EvCall (QUERYBUF k) ∈ snd (map_buffers env n i)
    /\ EvCall (MMAP k) ∈ snd (map_buffers env n i).
Proof.
  induction n as [|n IH]; intros i k; cbn [map_buffers]; [lia|].
  destruct (querybuf_ok env i); [|done].
  destruct (mmap_ok env i); [|done].
  specialize (IH (S i) k).
  destruct (map_buffers env n (S i)) as [ok tr]. cbn [fst snd] in *.
  intros Hok Hk. destruct (decide (k = i)) as [->|Hne].
  - split; [apply list_elem_of_here | apply list_elem_of_further, list_elem_of_here].
  - destruct (IH Hok ltac:(lia)) as [H1 H2].
    split; by do 2 apply list_elem_of_further.
Qed.

Lemma queue_buffers_all env n :
  forall i k,
    fst (queue_buffers env n i) = true -> (i <= k < i + n)%nat ->
    EvCall (QBUF k) ∈ snd (queue_buffers env n i).
Proof.
  induction n as [|n IH]; intros i k; cbn [queue_buffers]; [lia|].
  destruct (qbuf_ok env i); [|done].
  specialize (IH (S i) k).
  destruct (queue_buffers env n (S i)) as [ok tr]. cbn [fst snd] in *.
  intros Hok Hk. destruct (decide (k = i)) as [->|Hne].
  - apply list_elem_of_here.
  - apply list_elem_of_further. apply IH; [done | lia].
Qed.

Definition not_streamon (e : event) : Prop := e <> EvCall STREAMON.

Lemma map_buffers_no_streamon env n :
  forall i, Forall not_streamon (snd (map_buffers env n i)).
Proof.
  induction n as [|n IH]; intros i; cbn [map_buffers]; [by constructor|].
  destruct (querybuf_ok env i); [|by repeat constructor].
  destruct (mmap_ok env i); [|by repeat constructor].
  specialize (IH (S i)). destruct (map_buffers env n (S i)) as [ok tr].
  by repeat constructor.
Qed.

Lemma queue_buffers_no_streamon env n :
  forall i, Forall not_streamon (snd (queue_buffers env n i)).
Proof.
  induction n as [|n IH]; intros i; cbn [queue_buffers]; [by constructor|].
  destruct (qbuf_ok env i); [|by repeat constructor].
  specialize (IH (S i)). destruct (queue_buffers env n (S i)) as [ok tr].
  by repeat constructor.
Qed.

Ltac no_streamon :=
  repeat first
    [ assumption
    | apply Forall_nil_2
    | apply Forall_app; split
    | apply Forall_cons; split
    | (unfold not_streamon; discriminate) ].

(** Either streaming is never switched on, or it is switched on once,
    after the startup calls up to the queueing of all buffers. *)
Lemma proc_video_streamon env fl :
  Forall not_streamon (snd (proc_video env fl))
  \/ ((2 <= req_count env)%nat
      /\ fst (map_buffers env (req_count env) 0) = true
      /\ fst (queue_buffers env (req_count env) 0) = true
      /\ exists rest,
          Forall not_streamon rest
          /\ snd (proc_video env fl)
             = ([EvCall S_FMT; EvCall REQBUFS; EvCall CALLOC]
                  ++ snd (map_buffers env (req_count env) 0)
                  ++ snd (queue_buffers env (req_count env) 0))
                 ++ EvCall STREAMON :: rest).
Proof.
  unfold proc_video.
  pose proof (map_buffers_no_streamon env (req_count env) 0) as Hm.
  pose proof (queue_buffers_no_streamon env (req_count env) 0) as Hq.
  destruct (s_fmt_ok env); cbn [negb orb snd]; [|left; no_streamon].
  destruct (reqbufs_ok env); cbn [negb orb snd]; [|left; no_streamon].
  destruct (req_count env <? 2)%nat eqn:Ec; cbn [snd]; [left; no_streamon|].
  apply Nat.ltb_ge in Ec.
  destruct (calloc_ok env); cbn [negb snd]; [|left; no_streamon].
  destruct (map_buffers env (req_count env) 0) as [ok1 tr1]. cbn [fst snd] in *.
  destruct ok1; cbn [negb snd]; [|left; no_streamon].
  destruct (queue_buffers env (req_count env) 0) as [ok2 tr2]. cbn [fst snd] in *.
  destruct ok2; cbn [negb snd]; [|left; no_streamon].
  right. split; [done|]. split; [done|]. split; [done|].
  destruct (capture_loop_dtr env (v_ticks env) fl) as [_ Hl].
  assert (Hl' : forall tr, Forall loop_event tr -> Forall not_streamon tr).
  { intros tr H. eapply Forall_impl; [exact H|]. intros e He ->. exact He. }
  destruct (streamon_ok env); cbn [negb snd];
    [|eexists; split; [|rewrite <- !app_assoc; reflexivity]; no_streamon].
  destruct (window_ok env); cbn [negb snd];
    [|eexists; split; [|rewrite <- !app_assoc; reflexivity]; no_streamon].
  destruct (renderer_ok env); cbn [negb snd];
    [|eexists; split; [|rewrite <- !app_assoc; reflexivity]; no_streamon].
  destruct (texture_ok env); cbn [negb snd];
    [|eexists; split; [|rewrite <- !app_assoc; reflexivity]; no_streamon].
  destruct (malloc_ok env); cbn [negb snd];
    [|eexists; split; [|rewrite <- !app_assoc; reflexivity]; no_streamon].
  destruct (capture_loop env (v_ticks env) fl) as [[fin fl'] ltr]. cbn [snd] in Hl.
  apply Hl' in Hl.
  destruct fin; cbn [snd];
    (eexists; split; [|rewrite <- !app_assoc; reflexivity]; no_streamon).
Qed.

(** X20: streaming is switched on only after at least 2 buffers were
    granted and every granted buffer has been queried, mapped and
    queued: in every run, all these calls come before VIDIOC_STREAMON,
    which is issued at most once. *)
Theorem streamon_after_all_buffers env fl pre post :
  snd (proc_video env fl) = pre ++ EvCall STREAMON :: post ->
  (2 <= req_count env)%nat
  /\ (forall i, (i < req_count env)%nat ->
        EvCall (QUERYBUF i) ∈ pre /\ EvCall (MMAP i) ∈ pre /\ EvCall (QBUF i) ∈ pre)
  /\ (EvCall STREAMON ∉ pre) /\ (EvCall STREAMON ∉ post).
Proof.
  intros E.
  assert (Hnot : forall tr, Forall not_streamon tr -> EvCall STREAMON ∉ tr).
  { intros tr H Hin. rewrite Forall_forall in H. by apply (H _ Hin). }
  destruct (proc_video_streamon env fl) as [Hno | (Hc & Hm & Hq & rest & Hrest & Etr)].
  { exfalso. rewrite E in Hno. apply (Hnot _ Hno).
    apply elem_of_app. right. apply list_elem_of_here. }
  rewrite E in Etr. symmetry in Etr.
  assert (Hpre : Forall not_streamon
                   ([EvCall S_FMT; EvCall REQBUFS; EvCall CALLOC]
                      ++ snd (map_buffers env (req_count env) 0)
                      ++ snd (queue_buffers env (req_count env) 0))).
  { pose proof (map_buffers_no_streamon env (req_count env) 0).
    pose proof (queue_buffers_no_streamon env (req_count env) 0).
    no_streamon. }
  apply split_at_unique in Etr as [-> ->]; [|by apply Hnot|by apply Hnot].
  split; [done|]. split; [|split; by apply Hnot].
  intros i Hi.
  destruct (map_buffers_all env (req_count env) 0 i Hm ltac:(lia)) as [H1 H2].
  pose proof (queue_buffers_all env (req_count env) 0 i Hq ltac:(lia)) as H3.
  repeat split; apply elem_of_app; right; apply elem_of_app; (by left) || (by right).
Qed.

Lemma streamon_after_all_buffers_witness :
  (2 <= 4)%nat
  /\ (forall i, (i < 4)%nat ->
        EvCall (QUERYBUF i)
          ∈ [EvCall S_FMT; EvCall REQBUFS; EvCall CALLOC;
             EvCall (QUERYBUF 0); EvCall (MMAP 0); EvCall (QUERYBUF 1); EvCall (MMAP 1);
             EvCall (QUERYBUF 2); EvCall (MMAP 2); EvCall (QUERYBUF 3); EvCall (MMAP 3);
             EvCall (QBUF 0); EvCall (QBUF 1); EvCall (QBUF 2); EvCall (QBUF 3)]
        /\ EvCall (MMAP i)
          ∈ [EvCall S_FMT; EvCall REQBUFS; EvCall CALLOC;
             EvCall (QUERYBUF 0); EvCall (MMAP 0); EvCall (QUERYBUF 1); EvCall (MMAP 1);
             EvCall (QUERYBUF 2); EvCall (MMAP 2); EvCall (QUERYBUF 3); EvCall (MMAP 3);
             EvCall (QBUF 0); EvCall (QBUF 1); EvCall (QBUF 2); EvCall (QBUF 3)]
        /\ EvCall (QBUF i)
          ∈ [EvCall S_FMT; EvCall REQBUFS; EvCall CALLOC;
             EvCall (QUERYBUF 0); EvCall (MMAP 0); EvCall (QUERYBUF 1); EvCall (MMAP 1);
             EvCall (QUERYBUF 2); EvCall (MMAP 2); EvCall (QUERYBUF 3); EvCall (MMAP 3);
             EvCall (QBUF 0); EvCall (QBUF 1); EvCall (QBUF 2); EvCall (QBUF 3)])
  /\ (EvCall STREAMON
       ∉ [EvCall S_FMT; EvCall REQBUFS; EvCall CALLOC;
          EvCall (QUERYBUF 0); EvCall (MMAP 0); EvCall (QUERYBUF 1); EvCall (MMAP 1);
          EvCall (QUERYBUF 2); EvCall (MMAP 2); EvCall (QUERYBUF 3); EvCall (MMAP 3);
          EvCall (QBUF 0); EvCall (QBUF 1); EvCall (QBUF 2); EvCall (QBUF 3)])
  /\ (EvCall STREAMON
       ∉ [EvCall CREATE_WINDOW; EvCall CREATE_RENDERER; EvCall CREATE_TEXTURE;
          EvCall MALLOC_RGB; EvStore (SetRunning 0)]).
Proof.
  apply (streamon_after_all_buffers
           (video_env_ok [ {| v_interference := [SetGStop 1]; v_events := [];
                              v_select := SelectTimeout; v_dqbuf := DqbufError true;
                              v_out_size := (0, 0); v_requeue_ok := true |} ])
           initial_flags).
  reflexivity.
Defined.

End Lifecycle.


(** ** Command line of [main] and the ioctl retry wrapper *)
Module Args.

Local Open Scope string_scope.
Local Open Scope list_scope.
Local Open Scope Z_scope.

(** [atoi(nptr)] as the C library defines it: [(int) strtol(nptr, NULL, 10)]. *)
Definition atoi (nptr : string) : Z := CInt.wrap_int (fst (Select.strtol nptr)).

Record settings : Type := {
  width : Z;
  height : Z;
  video_dev : string;
  audio_sel : string
}.

(** [argv[a]] for [a < argc]. *)
Definition argv_at (argv : list string) (a : Z) : string :=
  default "" (argv !! Z.to_nat a).

(** The first statements of [main] after the signal handlers are
    installed; [argc] is the length of [argv].  The counter starts at 1
    and is incremented before every use. *)
Definition main_args (argv : list string) : settings :=
  let argc := Z.of_nat (length argv) in
  let a := 1 in
  let a := a + 1 in
  let width := if argc >? a then atoi (argv_at argv a) else 640 in
  let a := a + 1 in
  let height := if argc >? a then atoi (argv_at argv a) else 480 in
  let a := a + 1 in
  let video_dev := if argc >? a then argv_at argv a else "/dev/video0" in
  let a := a + 1 in
  let audio_sel :=
    if argc >? a then argv_at argv a else "USB3. 0 capture Stereo analogico" in
  {| width := width; height := height; video_dev := video_dev;
     audio_sel := audio_sel |}.

Definition default_settings : settings :=
  {| width := 640; height := 480; video_dev := "/dev/video0";
     audio_sel := "USB3. 0 capture Stereo analogico" |}.

(** *** [xioctl] *)

Definition EINTR : Z := 4.

(** One call of [ioctl]: its return value and [errno] after it. *)
Definition answer : Type := (Z * Z)%type.

Definition interrupted (a : answer) : bool := (fst a =? -1) && (snd a =? EINTR).

(** [xioctl(fd, req, arg)] against the answers of the successive
    [ioctl] calls: the value returned and the number of calls made, or
    [None] while every answer so far was an interruption. *)
Fixpoint xioctl (answers : list answer) : option (Z * nat) :=
  match answers with
  | [] => None
  | a :: rest =>
      let r := fst a in
      if interrupted a then
        match xioctl rest with
        | Some (r', calls) => Some (r', S calls)
        | None => None
        end
      else Some (r, 1%nat)
  end.

(** *** Facts *)

Lemma skip_spaces_length s :
  (String.length (Select.skip_spaces s) <= String.length s)%nat.
Proof.
  induction s as [|c s IH]; cbn [Select.skip_spaces]; [done|].
  destruct (Select.isspace c); cbn [String.length]; lia.
Qed.

Lemma parse_digits_length s :
  forall acc,
    (String.length (snd (Select.parse_digits acc s)) <= String.length s)%nat.
Proof.
  induction s as [|c s IH]; intros acc; cbn [Select.parse_digits]; [done|].
  destruct (Select.isdigit c); cbn [snd String.length]; [|lia].
  specialize (IH (10 * acc + (Select.code c - 48))). lia.
Qed.

(** When [strtol] consumes nothing, its value is 0. *)
Lemma strtol_nothing_consumed s :
  snd (Select.strtol s) = s -> fst (Select.strtol s) = 0.
Proof.
  unfold Select.strtol.
  pose proof (skip_spaces_length s) as Hs.
  destruct (Select.skip_spaces s) as [|c r] eqn:E1; [done|].
  assert (Hdig : forall (neg : bool) c2 r2,
             (String.length (String c2 r2) <= String.length s)%nat ->
             snd (if Select.isdigit c2
                  then let '(v, rest) := Select.parse_digits 0 (String c2 r2) in
                       (Select.clamp_long (if neg then - v else v), rest)
                  else (0, s)) = s ->
             fst (if Select.isdigit c2
                  then let '(v, rest) := Select.parse_digits 0 (String c2 r2) in
                       (Select.clamp_long (if neg then - v else v), rest)
                  else (0, s)) = 0).
  { intros neg c2 r2 Hlen. cbn [Select.parse_digits].
    destruct (Select.isdigit c2); [|done].
    pose proof (parse_digits_length r2 (10 * 0 + (Select.code c2 - 48))) as Hp.
    destruct (Select.parse_digits (10 * 0 + (Select.code c2 - 48)) r2) as [v rest].
    cbn [fst snd] in *. intros ->. cbn [String.length] in Hlen. lia. }
  cbn [String.length] in Hs.
  destruct (Ascii.eqb c "-").
  { destruct r as [|c2 r2]; [done|].
    apply (Hdig true). cbn [String.length] in *. lia. }
  destruct (Ascii.eqb c "+").
  { destruct r as [|c2 r2]; [done|].
    apply (Hdig false). cbn [String.length] in *. lia. }
  apply (Hdig false). cbn [String.length] in *. lia.
Qed.

(** X21: the first command-line argument is never read: the settings
    come from argv[2] to argv[5], so changing argv[0] or argv[1]
    changes nothing, and a command line with a single argument gives
    the four defaults. *)
Theorem main_args_skips_first_argument p p' x x' rest :
  main_args (p :: x :: rest) = main_args (p' :: x' :: rest)
  /\ main_args [p; x] = default_settings.
Proof. split; reflexivity. Qed.

(** X22: the width and height arguments are not validated: an argument
    of which strtol consumes nothing (no leading number) is read as 0,
    the defaults 640 and 480 apply only when the argument is absent. *)
Theorem main_args_unparsed_size_is_zero argv s :
  snd (Select.strtol s) = s ->
  (argv !! 2%nat = Some s -> width (main_args argv) = 0)
  /\ (argv !! 3%nat = Some s -> height (main_args argv) = 0).
Proof.
  intros Hs. apply strtol_nothing_consumed in Hs.
  assert (Hat : atoi s = 0) by (unfold atoi; rewrite Hs; reflexivity).
  split; intros Hl; pose proof (lookup_lt_Some _ _ _ Hl) as Hlen;
    unfold main_args, argv_at; cbn [width height].
  - change (1 + 1) with 2. change (Z.to_nat 2) with 2%nat.
    destruct (Z.gtb_spec (Z.of_nat (length argv)) 2); [|lia].
    rewrite Hl. exact Hat.
  - change (1 + 1 + 1) with 3. change (Z.to_nat 3) with 3%nat.
    destruct (Z.gtb_spec (Z.of_nat (length argv)) 3); [|lia].
    rewrite Hl. exact Hat.
Qed.

Lemma main_args_unparsed_size_is_zero_witness :
  width (main_args ["videoplayer"; "-"; "wide"; "wide"]) = 0
  /\ height (main_args ["videoplayer"; "-"; "wide"; "wide"]) = 0.
Proof.
  destruct (main_args_unparsed_size_is_zero
              ["videoplayer"; "-"; "wide"; "wide"] "wide" eq_refl) as [H1 H2].
  split; [apply H1 | apply H2]; reflexivity.
Defined.

Lemma xioctl_inv answers r calls :
  xioctl answers = Some (r, calls) ->
  exists pre e post,
    answers = pre ++ (r, e) :: post
    /\ Forall (fun a => a = (-1, EINTR)) pre
    /\ interrupted (r, e) = false
    /\ calls = S (length pre).
Proof.
  revert r calls. induction answers as [|[r0 e0] rest IH]; intros r calls; [done|].
  cbn [xioctl fst]. destruct (interrupted (r0, e0)) eqn:Ei.
  - destruct (xioctl rest) as [[r' calls']|] eqn:Ex; [|done].
    intros [= -> <-].
    destruct (IH _ _ eq_refl) as (pre & e & post & -> & Hpre & Hne & ->).
    exists ((r0, e0) :: pre), e, post. repeat split; [|done].
    constructor; [|done].
    unfold interrupted in Ei. cbn [fst snd] in Ei.
    apply andb_true_iff in Ei as [H1 H2].
    apply Z.eqb_eq in H1, H2. by subst.
  - intros [= -> <-]. exists [], e0, rest. by repeat split.
Qed.

(** X23: xioctl repeats the ioctl while it fails with EINTR and returns
    the first other answer: it returns r after n calls exactly when the
    first n-1 answers are (-1, EINTR) and the n-th is r with an errno
    that makes it no interruption; so it never returns -1 with errno
    EINTR. *)
Theorem xioctl_returns_first_uninterrupted answers r calls :
  xioctl answers = Some (r, calls)
  <-> exists pre e post,
        answers = pre ++ (r, e) :: post
        /\ Forall (fun a => a = (-1, EINTR)) pre
        /\ ~ (r = -1 /\ e = EINTR)
        /\ calls = S (length pre).
Proof.
  split.
  - intros H. destruct (xioctl_inv _ _ _ H) as (pre & e & post & E & Hpre & Hne & Hc).
    exists pre, e, post. repeat split; try done.
    intros [-> ->]. discriminate Hne.
  - intros (pre & e & post & -> & Hpre & Hne & ->).
    induction Hpre as [|a pre -> _ IH]; cbn [app xioctl length fst].
    + destruct (interrupted (r, e)) eqn:Ei; [|done].
      exfalso. apply Hne. unfold interrupted in Ei. cbn [fst snd] in Ei.
      apply andb_true_iff in Ei as [H1 H2]. apply Z.eqb_eq in H1, H2. done.
    + change (interrupted (-1, EINTR)) with true. cbn iota. by rewrite IH.
Qed.

End Args.
